(** * Motorola S-record decoder: shallow embedding of [srec.go] and [bytes.go]

    The Go package [srec] reads an S-record file line by line, keeps the
    S1/S2/S3 data records, and materialises them into one padded byte
    buffer that can afterwards be read ([Bytes]) and patched ([SetBytes]).

    Conventions of the embedding.
    - [uint32] and [byte] values are integers in [Z]; every conversion and
      every wrapping operation of the source is written out ([u32], [byte]).
      Go's [int] is the 64-bit one, so [int(x)] of a [uint32] is [x].
    - A Go call returns a value, returns a non-nil [error], or stops with a
      run-time panic; the three outcomes are the constructors of [result].
    - Methods with a pointer receiver take the receiver and give it back
      next to the outcome, so what a failed call leaves behind is visible.
    - [bufio.Scanner] is outside the embedding: [ParseFile] takes the list
      of lines the scanner yields.
    - Lines are ASCII, as the S-record format has them, so one character of
      a line is one byte and [strings.Split(line, "")] yields one string per
      byte.
    - The repository holds two revisions of the parser. The embedding
      follows [srec.go], whose [ParseFile] returns an [error]; [bytes.go]
      repeats its [Bytes] and [SetBytes]. The scanning loop of the older
      revision, which returns nothing, is in [Module Legacy]. *)

From Stdlib Require Import ZArith String Ascii Bool Lia.
From stdpp Require Import base numbers strings list.

#[local] Open Scope string_scope.
#[local] Open Scope list_scope.
#[local] Open Scope Z_scope.

(** ** Outcomes of a call *)

Inductive error : Type :=
| ErrSyntax (num : string)        (* strconv.NumError with strconv.ErrSyntax *)
| ErrRange (num : string)         (* strconv.NumError with strconv.ErrRange *)
| ErrNotSrectype (srectype : string)  (* "%s is not srectype." *)
| ErrEmpty                        (* "byte data is empty. ..." *)
| ErrNotAscending                 (* "Address is not acending order." *)
| ErrOutOfRange (addr : Z).       (* "data address 0x%08X is out of srec range." *)

Inductive panic : Type :=
| SliceBounds                     (* slice bounds out of range *)
| IndexOutOfRange.                (* index out of range *)

Inductive result (A : Type) : Type :=
| Ok (a : A)
| Err (e : error)
| Panic (p : panic).

Arguments Ok {A} a.
Arguments Err {A} e.
Arguments Panic {A} p.

Definition bind {A B : Type} (r : result A) (k : A -> result B) : result B :=
  match r with
  | Ok a => k a
  | Err e => Err e
  | Panic p => Panic p
  end.

Notation "x <-- r ;; k" := (bind r (fun x => k))
  (at level 100, r at next level, right associativity).

(** ** Machine integers *)

Definition u32 (z : Z) : Z := z mod 2 ^ 32.
Definition u64 (z : Z) : Z := z mod 2 ^ 64.
Definition byte (z : Z) : Z := z mod 2 ^ 8.

(** ** Strings and slices *)

(** [strings.Split(s, sep)] with the empty separator: one string per
    character. *)
Fixpoint explode (s : string) : list string :=
  match s with
  | EmptyString => []
  | String c s' => String c EmptyString :: explode s'
  end.

Definition Split (s sep : string) : list string :=
  match sep with
  | EmptyString => explode s
  | _ => [s]   (* not used by the package: every call passes the empty separator *)
  end.

(** [strings.Join(elems, sep)]. *)
Definition Join (elems : list string) (sep : string) : string :=
  String.concat sep elems.

(** The slice expression [sl[lo:hi]]: the bounds are checked against the
    capacity, which for the result of [strings.Split] is its length. *)
Definition slice {A : Type} (sl : list A) (lo hi : Z) : result (list A) :=
  if (0 <=? lo) && (lo <=? hi) && (hi <=? Z.of_nat (length sl))
  then Ok (take (Z.to_nat (hi - lo)) (drop (Z.to_nat lo) sl))
  else Panic SliceBounds.

(** The indexed store [a[idx] = v]. *)
Definition store (a : list Z) (idx : Z) (v : Z) : result (list Z) :=
  if (0 <=? idx) && (idx <? Z.of_nat (length a))
  then Ok (<[Z.to_nat idx := v]> a)
  else Panic IndexOutOfRange.

(** ** strconv.ParseUint, for an explicit base in 2..36 *)

Definition lower (c : Z) : Z := Z.lor c 32.   (* c | ('x' - 'X') *)

Definition digitVal (c : ascii) : option Z :=
  let n := Z.of_nat (nat_of_ascii c) in
  if (48 <=? n) && (n <=? 57) then Some (n - 48)
  else if (97 <=? lower n) && (lower n <=? 122) then Some (lower n - 97 + 10)
  else None.

Fixpoint ParseUint_loop (s0 : string) (base cutoff maxVal : Z)
    (cs : string) (n : Z) : result Z :=
  match cs with
  | EmptyString => Ok n
  | String c cs' =>
      match digitVal c with
      | None => Err (ErrSyntax s0)
      | Some d =>
          if d >=? base then Err (ErrSyntax s0)
          else if n >=? cutoff then Err (ErrRange s0)
          else
            let n := u64 (n * base) in
            let n1 := u64 (n + d) in
            if (n1 <? n) || (n1 >? maxVal) then Err (ErrRange s0)
            else ParseUint_loop s0 base cutoff maxVal cs' n1
      end
  end.

Definition ParseUint (s : string) (base bitSize : Z) : result Z :=
  match s with
  | EmptyString => Err (ErrSyntax s)
  | _ =>
      let cutoff := (2 ^ 64 - 1) / base + 1 in
      let maxVal := 2 ^ bitSize - 1 in
      ParseUint_loop s base cutoff maxVal s 0
  end.

(** ** The records *)

Definition TypeFieldStrLen : Z := 2.
Definition LengthFieldStrLen : Z := 2.
Definition CSumFieldStrLen : Z := 2.

Record headerRecord : Type := mkHeaderRecord {
  hr_length : Z;
  hr_data : list Z;
  hr_checksum : Z
}.

Record dataRecord : Type := mkDataRecord {
  dr_srectype : string;
  dr_length : Z;
  dr_address : Z;
  dr_data : list Z;
  dr_checksum : Z
}.

Record footerRecord : Type := mkFooterRecord {
  fr_srectype : string;
  fr_entryAddr : Z;
  fr_checksum : Z
}.

Record Srec : Type := mkSrec {
  sr_headerRecord : option headerRecord;
  sr_dataRecords : list dataRecord;
  sr_footerRecord : option footerRecord;
  startAddress : Z;
  endAddress : Z;
  dataBytes : list Z
}.

Definition NewSrec : Srec := mkSrec None [] None 0 0 [].
Definition newHeaderRecord : headerRecord := mkHeaderRecord 0 [] 0.
Definition newBianryRecord : dataRecord := mkDataRecord "" 0 0 [] 0.
Definition newFooterRecord : footerRecord := mkFooterRecord "" 0 0.

Definition set_headerRecord (sr : Srec) (h : headerRecord) : Srec :=
  mkSrec (Some h) (sr_dataRecords sr) (sr_footerRecord sr)
         (startAddress sr) (endAddress sr) (dataBytes sr).
Definition set_dataRecords (sr : Srec) (l : list dataRecord) : Srec :=
  mkSrec (sr_headerRecord sr) l (sr_footerRecord sr)
         (startAddress sr) (endAddress sr) (dataBytes sr).
Definition set_startAddress (sr : Srec) (a : Z) : Srec :=
  mkSrec (sr_headerRecord sr) (sr_dataRecords sr) (sr_footerRecord sr)
         a (endAddress sr) (dataBytes sr).
Definition set_endAddress (sr : Srec) (a : Z) : Srec :=
  mkSrec (sr_headerRecord sr) (sr_dataRecords sr) (sr_footerRecord sr)
         (startAddress sr) a (dataBytes sr).
Definition set_dataBytes (sr : Srec) (b : list Z) : Srec :=
  mkSrec (sr_headerRecord sr) (sr_dataRecords sr) (sr_footerRecord sr)
         (startAddress sr) (endAddress sr) b.

(** ** Field decoding *)

Definition getAddrLenAsStr (srectype : string) : result Z :=
  if String.eqb srectype "S0" then Ok 4
  else if String.eqb srectype "S1" then Ok 4
  else if String.eqb srectype "S2" then Ok 6
  else if String.eqb srectype "S3" then Ok 8
  else Err (ErrNotSrectype srectype).

Definition getDataLenAsStr (sl : list string) : result Z :=
  s <-- slice sl 2 4 ;;
  len <-- ParseUint (Join s "") 16 32 ;;
  Ok (u64 (len * 2)).

Definition getAddress (srectype : string) (sl : list string) : result Z :=
  addrLenAsStr <-- getAddrLenAsStr srectype ;;
  s <-- slice sl 4 (4 + addrLenAsStr) ;;
  addr <-- ParseUint (Join s "") 16 32 ;;
  Ok (u32 addr).

Definition getLengh (sl : list string) : result Z :=
  s <-- slice sl 2 4 ;;
  len <-- ParseUint (Join s "") 16 32 ;;
  Ok (u32 len).

(** The loop [for i := DataIndexSt; i < DataIndexEd; i += 2] of [getData];
    [n] is the number of iterations left. *)
Fixpoint getData_loop (sl : list string) (n : nat) (i : Z) (data : list Z)
    : result (list Z) :=
  match n with
  | O => Ok data
  | S n' =>
      s <-- slice sl i (i + 2) ;;
      b <-- ParseUint (Join s "") 16 32 ;;
      getData_loop sl n' (i + 2) (data ++ [byte b])
  end.

(** Trip count of [for i := lo; i < hi; i += 2]. *)
Definition trips2 (lo hi : Z) : nat := Z.to_nat ((hi - lo + 1) / 2).

Definition getData (srectype : string) (sl : list string) : result (list Z) :=
  addrLenAsStr <-- getAddrLenAsStr srectype ;;
  dataLenAsStr <-- getDataLenAsStr sl ;;
  let DataIndexSt := TypeFieldStrLen + LengthFieldStrLen + addrLenAsStr in
  let DataIndexEd :=
    (TypeFieldStrLen + LengthFieldStrLen) + (dataLenAsStr - CSumFieldStrLen) in
  getData_loop sl (trips2 DataIndexSt DataIndexEd) DataIndexSt [].

Definition getChecksum (srectype : string) (sl : list string) : result Z :=
  dataLenAsStr <-- getDataLenAsStr sl ;;
  let CSumIndexSt :=
    TypeFieldStrLen + LengthFieldStrLen + dataLenAsStr - CSumFieldStrLen in
  let CSumIndexEd := TypeFieldStrLen + LengthFieldStrLen + dataLenAsStr in
  s <-- slice sl CSumIndexSt CSumIndexEd ;;
  csum <-- ParseUint (Join s "") 16 32 ;;
  Ok (byte csum).

(** What [x, err = f()] leaves in [x]: the value, or the zero value that
    [f] returns next to its error; a panic leaves [x] as it was. *)
Definition assigned {A : Type} (old zero : A) (r : result A) : A :=
  match r with
  | Ok a => a
  | Err _ => zero
  | Panic _ => old
  end.

Definition outcome {A : Type} (r : result A) : result unit :=
  match r with
  | Ok _ => Ok tt
  | Err e => Err e
  | Panic p => Panic p
  end.

Definition getHeaderRecordFields (rec : headerRecord) (sl : list string)
    : headerRecord * result unit :=
  let srectype := "S0" in
  let r := getLengh sl in
  let rec := mkHeaderRecord (assigned (hr_length rec) 0 r) (hr_data rec)
                            (hr_checksum rec) in
  match r with
  | Ok _ =>
      let r := getData srectype sl in
      let rec := mkHeaderRecord (hr_length rec) (assigned (hr_data rec) [] r)
                                (hr_checksum rec) in
      match r with
      | Ok _ =>
          let r := getChecksum srectype sl in
          let rec := mkHeaderRecord (hr_length rec) (hr_data rec)
                                    (assigned (hr_checksum rec) 0 r) in
          (rec, outcome r)
      | _ => (rec, outcome r)
      end
  | _ => (rec, outcome r)
  end.

Definition getDataRecordFields (rec : dataRecord) (srectype : string)
    (sl : list string) : dataRecord * result unit :=
  let rec := mkDataRecord srectype (dr_length rec) (dr_address rec)
                          (dr_data rec) (dr_checksum rec) in
  let r := getLengh sl in
  let rec := mkDataRecord (dr_srectype rec) (assigned (dr_length rec) 0 r)
                          (dr_address rec) (dr_data rec) (dr_checksum rec) in
  match r with
  | Ok _ =>
      let r := getAddress srectype sl in
      let rec := mkDataRecord (dr_srectype rec) (dr_length rec)
                              (assigned (dr_address rec) 0 r)
                              (dr_data rec) (dr_checksum rec) in
      match r with
      | Ok _ =>
          let r := getData srectype sl in
          let rec := mkDataRecord (dr_srectype rec) (dr_length rec)
                                  (dr_address rec)
                                  (assigned (dr_data rec) [] r)
                                  (dr_checksum rec) in
          match r with
          | Ok _ =>
              let r := getChecksum srectype sl in
              let rec := mkDataRecord (dr_srectype rec) (dr_length rec)
                                      (dr_address rec) (dr_data rec)
                                      (assigned (dr_checksum rec) 0 r) in
              (rec, outcome r)
          | _ => (rec, outcome r)
          end
      | _ => (rec, outcome r)
      end
  | _ => (rec, outcome r)
  end.

(** ** Parsing a file *)

Definition isDataType (srectype : string) : bool :=
  String.eqb srectype "S1" || String.eqb srectype "S2"
  || String.eqb srectype "S3".

Definition isFooterType (srectype : string) : bool :=
  String.eqb srectype "S7" || String.eqb srectype "S8"
  || String.eqb srectype "S9".

(** One iteration of the [for scanner.Scan()] loop, on the line
    [scanner.Text()]. *)
Definition scanLine (srs : Srec) (line : string) : Srec * result unit :=
  let splitedLine := Split line "" in
  match slice splitedLine 0 2 with
  | Ok tag =>
      let srectype := Join tag "" in
      if String.eqb srectype "S0" then
        let '(rec, err) := getHeaderRecordFields newHeaderRecord splitedLine in
        match err with
        | Ok _ => (set_headerRecord srs rec, Ok tt)
        | _ => (srs, err)
        end
      else if isDataType srectype then
        let '(rec, err) :=
          getDataRecordFields newBianryRecord srectype splitedLine in
        match err with
        | Ok _ => (set_dataRecords srs (sr_dataRecords srs ++ [rec]), Ok tt)
        | _ => (srs, err)
        end
      else if isFooterType srectype then (srs, Ok tt)
      else (srs, Ok tt)   (* default: pass S4~6 *)
  | Err e => (srs, Err e)
  | Panic p => (srs, Panic p)
  end.

Fixpoint scanLines (srs : Srec) (lines : list string) : Srec * result unit :=
  match lines with
  | [] => (srs, Ok tt)
  | line :: rest =>
      match scanLine srs line with
      | (srs', Ok _) => scanLines srs' rest
      | stopped => stopped
      end
  end.

Definition isDataRecordExists (sr : Srec) : result unit :=
  if Z.of_nat (length (sr_dataRecords sr)) =? 0 then Err ErrEmpty else Ok tt.

(** The [range] loop of [isAddrAcending]: [i] is the index of the head of
    [recs] in [sr.dataRecords]. *)
Fixpoint isAddrAcending_loop (i : nat) (prevAddr : Z) (recs : list dataRecord)
    : result unit :=
  match recs with
  | [] => Ok tt
  | brec :: rest =>
      if Nat.eqb i 0 then isAddrAcending_loop (S i) prevAddr rest   (* continue *)
      else if dr_address brec <? prevAddr then Err ErrNotAscending
      else isAddrAcending_loop (S i) (dr_address brec) rest
  end.

Definition isAddrAcending (sr : Srec) : result unit :=
  isAddrAcending_loop 0 0 (sr_dataRecords sr).

(** [a[i]] on a slice of records. *)
Definition index {A : Type} (a : list A) (i : Z) : result A :=
  if (0 <=? i) && (i <? Z.of_nat (length a))
  then match a !! Z.to_nat i with
       | Some x => Ok x
       | None => Panic IndexOutOfRange
       end
  else Panic IndexOutOfRange.

Definition getStartAddr (sr : Srec) : result Z :=
  r <-- index (sr_dataRecords sr) 0 ;;
  Ok (dr_address r).

Definition getEndAddr (sr : Srec) : result Z :=
  r <-- index (sr_dataRecords sr) (Z.of_nat (length (sr_dataRecords sr)) - 1) ;;
  Ok (dr_address r).

Definition getLastRecordDataLen (sr : Srec) : result Z :=
  r <-- index (sr_dataRecords sr) (Z.of_nat (length (sr_dataRecords sr)) - 1) ;;
  Ok (u32 (Z.of_nat (length (dr_data r)))).

(** The inner loop of [makePaddedBytes] over the bytes [ds] still to copy
    of the record [brcs]; [i] is the index of the head of [ds] in
    [brcs.data]. *)
Fixpoint copyRecord (sr : Srec) (ofst : Z) (brcs : dataRecord) (i : Z)
    (ds : list Z) : Srec * result unit :=
  match ds with
  | [] => (sr, Ok tt)
  | d :: ds' =>
      if (dr_address brcs <? startAddress sr)
         || (dr_address brcs >? endAddress sr)
      then (sr, Err (ErrOutOfRange (dr_address brcs)))
      else
        match store (dataBytes sr) ((dr_address brcs - ofst) + i) d with
        | Ok b => copyRecord (set_dataBytes sr b) ofst brcs (i + 1) ds'
        | Err e => (sr, Err e)
        | Panic p => (sr, Panic p)
        end
  end.

(** The outer loop of [makePaddedBytes] over the records still to copy. *)
Fixpoint copyRecords (sr : Srec) (ofst : Z) (recs : list dataRecord)
    : Srec * result unit :=
  match recs with
  | [] => (sr, Ok tt)
  | brcs :: rest =>
      match copyRecord sr ofst brcs 0 (dr_data brcs) with
      | (sr', Ok _) => copyRecords sr' ofst rest
      | stopped => stopped
      end
  end.

Definition makePaddedBytes (sr : Srec) (startAddr endAddr lastRecordDataLen : Z)
    : Srec * result unit :=
  let size := u32 (u32 (endAddr - startAddr) + lastRecordDataLen) in
  let sr := set_dataBytes sr (dataBytes sr ++ replicate (Z.to_nat size) 255) in
  let ofst := startAddr in
  copyRecords sr ofst (sr_dataRecords sr).

Definition ParseFile (srs : Srec) (lines : list string) : Srec * result unit :=
  match scanLines srs lines with
  | (srs, Ok _) =>
      match isDataRecordExists srs with
      | Ok _ =>
          match isAddrAcending srs with
          | Ok _ =>
              match getStartAddr srs with
              | Ok a =>
                  let srs := set_startAddress srs a in
                  match getEndAddr srs with
                  | Ok a =>
                      let srs := set_endAddress srs a in
                      match getLastRecordDataLen srs with
                      | Ok LastRecordDatalen =>
                          makePaddedBytes srs (startAddress srs)
                                          (endAddress srs) LastRecordDatalen
                      | Err e => (srs, Err e)
                      | Panic p => (srs, Panic p)
                      end
                  | Err e => (srs, Err e)
                  | Panic p => (srs, Panic p)
                  end
              | Err e => (srs, Err e)
              | Panic p => (srs, Panic p)
              end
          | err => (srs, err)
          end
      | err => (srs, err)
      end
  | stopped => stopped
  end.

(** ** Reading and patching the image *)

Definition Bytes (sr : Srec) : list Z := dataBytes sr.

(** The loop of [SetBytes] over the bytes [ws] still to write; [i] is the
    index of the head of [ws] in [wBytes]. *)
Fixpoint SetBytes_loop (sr : Srec) (start i : Z) (ws : list Z)
    : Srec * result unit :=
  match ws with
  | [] => (sr, Ok tt)
  | w :: ws' =>
      match store (dataBytes sr) (start + i) w with
      | Ok b => SetBytes_loop (set_dataBytes sr b) start (i + 1) ws'
      | Err e => (sr, Err e)
      | Panic p => (sr, Panic p)
      end
  end.

Definition SetBytes (sr : Srec) (wAddr : Z) (wBytes : list Z)
    : Srec * result unit :=
  if Z.of_nat (length (sr_dataRecords sr)) =? 0 then (sr, Err ErrEmpty)
  else if (wAddr <? startAddress sr) || (wAddr >? endAddress sr)
  then (sr, Err (ErrOutOfRange wAddr))
  else
    let start := wAddr - startAddress sr in
    SetBytes_loop sr start 0 wBytes.

(** ** The older revision of the scanning loop *)

Module Legacy.

(** [x, _ = strconv.ParseUint(s, 16, 32)]: the value that [ParseUint]
    returns next to an error is 0 for a syntax error and the largest 32-bit
    value for a range error. *)
Definition ignoringError (r : result Z) : Z :=
  match r with
  | Ok v => v
  | Err (ErrRange _) => 2 ^ 32 - 1
  | _ => 0
  end.

Definition getAddrStrLen (srectype : string) : result Z :=
  if String.eqb srectype "S1" then Ok 4
  else if String.eqb srectype "S2" then Ok 6
  else if String.eqb srectype "S3" then Ok 8
  else Err (ErrNotSrectype srectype).

(** The error of [getLengthStrLen] is dropped by its only caller. *)
Definition getLengthStrLen (sl : list string) : result Z :=
  s <-- slice sl 2 4 ;;
  Ok (u64 (ignoringError (ParseUint (Join s "") 16 32) * 2)).

Fixpoint data_loop (sl : list string) (n : nat) (i : Z) (data : list Z)
    : result (list Z) :=
  match n with
  | O => Ok data
  | S n' =>
      s <-- slice sl i (i + 2) ;;
      let b := ignoringError (ParseUint (Join s "") 16 32) in
      data_loop sl n' (i + 2) (data ++ [byte b])
  end.

(** The record is the receiver; it is given back unchanged when the call
    returns an error or panics, since the fields are assigned last. *)
Definition getSrecBinaryRecordFields (rec : dataRecord) (srectype : string)
    (sl : list string) : dataRecord * result unit :=
  match
    (addrStrLen <-- getAddrStrLen srectype ;;
     lengthStrLen <-- getLengthStrLen sl ;;
     s <-- slice sl 2 4 ;;
     let len := ignoringError (ParseUint (Join s "") 16 32) in
     s <-- slice sl 4 (4 + addrStrLen) ;;
     let addr := ignoringError (ParseUint (Join s "") 16 32) in
     data <-- data_loop sl
                (trips2 (TypeFieldStrLen + LengthFieldStrLen + addrStrLen)
                        ((TypeFieldStrLen + LengthFieldStrLen)
                         + (lengthStrLen - CSumFieldStrLen)))
                (TypeFieldStrLen + LengthFieldStrLen + addrStrLen) [] ;;
     s <-- slice sl (4 + len * 2 - 2) (4 + len * 2 - 2 + 2) ;;
     let csum := ignoringError (ParseUint (Join s "") 16 32) in
     Ok (mkDataRecord srectype (u32 len) (u32 addr) data (byte csum)))
  with
  | Ok rec' => (rec', Ok tt)
  | Err e => (rec, Err e)
  | Panic p => (rec, Panic p)
  end.

(** The state of the loop of [ParseFile]: the one record [rec] that every
    iteration decodes into, and [srs.BinaryRecords]. The loop drops the
    error that [getSrecBinaryRecordFields] returns and appends a copy of
    [rec] all the same. *)
Definition scanLine (st : dataRecord * list dataRecord) (line : string)
    : (dataRecord * list dataRecord) * result unit :=
  let sl := Split line "" in
  match slice sl 0 2 with
  | Ok tag =>
      let srectype := Join tag "" in
      if String.eqb srectype "S0" then (st, Ok tt)
      else if isDataType srectype then
        let '(rec, err) := getSrecBinaryRecordFields (fst st) srectype sl in
        match err with
        | Panic p => ((rec, snd st), Panic p)
        | _ => ((rec, snd st ++ [rec]), Ok tt)
        end
      else if isFooterType srectype then (st, Ok tt)
      else (st, Ok tt)   (* default: pass S4~6 *)
  | Err e => (st, Err e)
  | Panic p => (st, Panic p)
  end.

Fixpoint scanLines (st : dataRecord * list dataRecord) (lines : list string)
    : (dataRecord * list dataRecord) * result unit :=
  match lines with
  | [] => (st, Ok tt)
  | line :: rest =>
      match scanLine st line with
      | (st', Ok _) => scanLines st' rest
      | stopped => stopped
      end
  end.

(** [ParseFile] of the older revision on an [Srec] whose [BinaryRecords]
    are [recs]: the records afterwards, and whether the call panicked. *)
Definition ParseFile (recs : list dataRecord) (lines : list string)
    : list dataRecord * result unit :=
  let '((_, recs'), out) := scanLines (newBianryRecord, recs) lines in
  (recs', out).

(** The inner loop of [GetBytes] over the bytes [ds] still to take from one
    record; the flag tells whether the loop returned from the function. *)
Fixpoint GetBytes_data (bytes : list Z) (ds : list Z) (ByteSize : Z)
    : list Z * bool :=
  match ds with
  | [] => (bytes, false)
  | b :: ds' =>
      let bytes := bytes ++ [b] in
      if u32 (Z.of_nat (length bytes)) =? ByteSize then (bytes, true)
      else GetBytes_data bytes ds' ByteSize
  end.

(** The outer loop of [GetBytes] over the records still to visit. *)
Fixpoint GetBytes_records (bytes : list Z) (recs : list dataRecord)
    (ByteSize : Z) : list Z :=
  match recs with
  | [] => bytes
  | br :: rest =>
      match GetBytes_data bytes (dr_data br) ByteSize with
      | (bytes', true) => bytes'
      | (bytes', false) => GetBytes_records bytes' rest ByteSize
      end
  end.

(** [GetBytes] on an [Srec] whose [BinaryRecords] are [recs]. *)
Definition GetBytes (recs : list dataRecord) (ByteSize : Z) : list Z :=
  GetBytes_records [] recs ByteSize.

End Legacy.

(** ** Specification-side functions

    These are not code of the package; the theorems below use them to say
    what the loops of the package compute. *)

(** A run of indexed stores [b[off] = d0; b[off+1] = d1; ...], with the
    buffer as the last successful store left it. *)
Fixpoint storeAll (b : list Z) (off : Z) (ds : list Z) : list Z * result unit :=
  match ds with
  | [] => (b, Ok tt)
  | d :: ds' =>
      match store b off d with
      | Ok b' => storeAll b' (off + 1) ds'
      | Err e => (b, Err e)
      | Panic p => (b, Panic p)
      end
  end.

(** The buffer offsets that the record [r] occupies when the image starts
    at address [ofst]. *)
Definition covers (ofst : Z) (r : dataRecord) (k : Z) : bool :=
  (dr_address r - ofst <=? k)
  && (k <? dr_address r - ofst + Z.of_nat (length (dr_data r))).

(** The byte of [r] that belongs at buffer offset [k]. *)
Definition byteAt (ofst : Z) (r : dataRecord) (k : Z) : option Z :=
  dr_data r !! Z.to_nat (k - (dr_address r - ofst)).

(** Content of offset [k] after the records were copied in list order over
    a buffer that held [old] there. *)
Fixpoint image (ofst : Z) (recs : list dataRecord) (k : Z) (old : option Z)
    : option Z :=
  match recs with
  | [] => old
  | r :: rest =>
      image ofst rest k (if covers ofst r k then byteAt ofst r k else old)
  end.

(** Non-decreasing in list order. *)
Fixpoint ascending (l : list Z) : bool :=
  match l with
  | a :: (b :: _) as rest => (a <=? b) && ascending rest
  | _ => true
  end.

(** Whether a line carries the tag of a data record. *)
Definition hasDataTag (line : string) : bool :=
  match slice (Split line "") 0 2 with
  | Ok tag => isDataType (Join tag "")
  | _ => false
  end.

(** Number of lines of a file that carry the tag of a data record. *)
Fixpoint dataLines (lines : list string) : nat :=
  match lines with
  | [] => O
  | line :: rest => ((if hasDataTag line then 1 else 0) + dataLines rest)%nat
  end.

(** The range test that [makePaddedBytes] repeats before every store. *)
Definition outOfRange (sr : Srec) (brcs : dataRecord) : bool :=
  (dr_address brcs <? startAddress sr) || (dr_address brcs >? endAddress sr).

(** What a data record needs for its copy to go through. *)
Definition fitsIn (sr : Srec) (ofst : Z) (r : dataRecord) : Prop :=
  dr_data r <> [] ->
  startAddress sr <= dr_address r <= endAddress sr /\
  0 <= dr_address r - ofst /\
  dr_address r - ofst + Z.of_nat (length (dr_data r))
    <= Z.of_nat (length (dataBytes sr)).

(** Size of the padding that [makePaddedBytes] appends. *)
Definition paddedSize (first lst : dataRecord) : Z :=
  u32 (u32 (dr_address lst - dr_address first)
       + u32 (Z.of_nat (length (dr_data lst)))).

(** Hexadecimal digits, as [strconv.ParseUint] with base 16 accepts them. *)
Definition hexDigit (c : ascii) : bool :=
  match digitVal c with
  | Some d => d <? 16
  | None => false
  end.

Fixpoint allHex (s : string) : bool :=
  match s with
  | EmptyString => true
  | String c s' => hexDigit c && allHex s'
  end.

(** A string of one character, as [strings.Split] with the empty separator
    produces them. *)
Definition oneChar (s : string) : Prop := exists c, s = String c EmptyString.

(** The numeric field at [sl[lo:hi]], as every field decoder reads it. *)
Definition field (sl : list string) (lo hi : Z) : result Z :=
  s <-- slice sl lo hi ;; ParseUint (Join s "") 16 32.

(** The two failures that a truncated or malformed field can end in. *)
Definition softFail {A : Type} (r : result A) : Prop :=
  r = Panic SliceBounds \/ exists num, r = Err (ErrSyntax num).

(** The characters of a line after its tag and length fields are all
    hexadecimal digits. *)
Definition hexAfterLength (sl : list string) : Prop :=
  Forall (fun s => allHex s = true) (drop 4 sl).

(** A call that stops on a truncated or malformed field: with a
    slice-bounds panic or a syntax error, and with the panic when the line
    holds only hexadecimal digits. *)
Definition stops {A : Type} (sl : list string) (r : result A) : Prop :=
  softFail r /\ (hexAfterLength sl -> r = Panic SliceBounds).

(** The tags whose lines [ParseFile] decodes. *)
Definition decoded (srectype : string) : bool :=
  String.eqb srectype "S0" || isDataType srectype.

(** The value of a string of hexadecimal digits, most significant first. *)
Definition digitOf (c : ascii) : Z :=
  match digitVal c with
  | Some d => d
  | None => 0
  end.

Fixpoint hexValue (s : string) : Z :=
  match s with
  | EmptyString => 0
  | String c s' => digitOf c * 16 ^ Z.of_nat (String.length s') + hexValue s'
  end.

(** The characters of a split line in the columns [lo..hi-1]. *)
Definition cols (sl : list string) (lo hi : Z) : string :=
  Join (take (Z.to_nat (hi - lo)) (drop (Z.to_nat lo) sl)) "".

(** Width of the address field of a record type, in characters. *)
Definition addrWidth (srectype : string) : Z :=
  match getAddrLenAsStr srectype with
  | Ok a => a
  | _ => 0
  end.

(** The record that a line with the tag of a data record decodes to. *)
Definition decodeDataLine (line : string) : list dataRecord :=
  match slice (Split line "") 0 2 with
  | Ok tag =>
      if isDataType (Join tag "")
      then [fst (getDataRecordFields newBianryRecord (Join tag "")
                                     (Split line ""))]
      else []
  | _ => []
  end.

(** All data bytes of a list of records, in list order. *)
Definition allData (recs : list dataRecord) : list Z :=
  concat (dr_data <$> recs).

(** Every record starts where the record before it ends. *)
Fixpoint contiguous (recs : list dataRecord) : Prop :=
  match recs with
  | r :: (r' :: _) as rest =>
      dr_address r' = dr_address r + Z.of_nat (length (dr_data r))
      /\ contiguous rest
  | _ => True
  end.

(** The [Srec] on which [makePaddedBytes] starts to copy, when the scan
    left [srs1] and its first and last data records are [first] and
    [lst]. *)
Definition padded (srs1 : Srec) (first lst : dataRecord) : Srec :=
  mkSrec (sr_headerRecord srs1) (sr_dataRecords srs1) (sr_footerRecord srs1)
         (dr_address first) (dr_address lst)
         (dataBytes srs1 ++ replicate (Z.to_nat (paddedSize first lst)) 255).

(** The outcomes that the package can end in: the range error of
    [strconv] and the error of [getAddrLenAsStr] are not among them. *)
Definition reachable {A : Type} (r : result A) : Prop :=
  match r with
  | Err (ErrRange _) | Err (ErrNotSrectype _) => False
  | _ => True
  end.

(** ** Sample files *)

(** Two records with a gap of two bytes between them. *)
Definition file_gap : list string :=
  ["S1050010AABB00"; "S1050014CCDD00"].

(** Two records at the same address. *)
Definition file_same_address : list string :=
  ["S1050010AABB00"; "S1050010CCDD00"].

(** Three records at the same address. *)
Definition file_three_same_address : list string :=
  ["S1040010AA00"; "S1040010BB00"; "S1040010CC00"].

(** The records of [file_gap] with a line between them whose tag is not
    an S-record tag. *)
Definition file_unknown_tag : list string :=
  ["S1050010AABB00"; "XX"; "S1050014CCDD00"].

(** A second line with a malformed address field. *)
Definition file_bad_hex : list string :=
  ["S1050010AABB00"; "S10500ZZCCDD00"].

(** Addresses [0x10, 0x20, 0x15]: the third record steps back. *)
Definition file_late_descent : list string :=
  ["S1050010AABB00"; "S1050020CCDD00"; "S1050015EEFF00"].

(** Addresses [0x10, 0x05, 0x20]: the second record steps back. *)
Definition file_dip : list string :=
  ["S1050010AABB00"; "S1050005CCDD00"; "S1050020EEFF00"].

(** Addresses [0x10, 0x05, 0x20], the second record without data bytes. *)
Definition file_dip_nodata : list string :=
  ["S1050010AABB00"; "S1030005F7"; "S1050020EEFF00"].

(** Addresses [0x100, 0x050]. *)
Definition file_descending : list string :=
  ["S1050100AABB00"; "S1050050CCDD00"].

(** The record line of the format's usual example, with sixteen data
    bytes, and the record it decodes to. *)
Definition line_example : string :=
  "S1130000214601360021470136007EFE09D2190140".

Definition record_example : dataRecord :=
  mkDataRecord "S1" 19 0
    [33; 70; 1; 54; 0; 33; 71; 1; 54; 0; 126; 254; 9; 210; 25; 1] 64.

(** A header and a footer, and no data record. *)
Definition file_no_data : list string :=
  ["S00600004844521B"; "S9030000FC"].

(** One record. *)
Definition file_one_record : list string :=
  ["S1050010AABB00"].

(** Three records that follow each other without a gap, between a header
    and a footer. *)
Definition file_contiguous : list string :=
  ["S00600004844521B"; "S1050010AABB00"; "S1060012CCDDEE00"; "S1040015FF00";
   "S9030000FC"].

(** Addresses [0x00, 0x02] in order, the first record five bytes long and
    the second one byte. *)
Definition file_overhang : list string :=
  ["S1080000010203040500"; "S10400020600"].

(** A record of two bytes at [0x10] and a record without data at
    [0x14]. *)
Definition file_empty_last : list string :=
  ["S1050010AABB00"; "S103001400"].

(** What [ParseFile] leaves in a fresh [Srec] for the sample files. *)
Definition image_gap : Srec :=
  Eval vm_compute in fst (ParseFile NewSrec file_gap).
Definition image_same_address : Srec :=
  Eval vm_compute in fst (ParseFile NewSrec file_same_address).
Definition image_three_same_address : Srec :=
  Eval vm_compute in fst (ParseFile NewSrec file_three_same_address).

Definition state_bad_hex : Srec :=
  Eval vm_compute in fst (ParseFile NewSrec file_bad_hex).
Definition state_late_descent : Srec :=
  Eval vm_compute in fst (ParseFile NewSrec file_late_descent).
Definition state_dip : Srec :=
  Eval vm_compute in fst (ParseFile NewSrec file_dip).
Definition image_dip_nodata : Srec :=
  Eval vm_compute in fst (ParseFile NewSrec file_dip_nodata).

Definition image_one_record : Srec :=
  Eval vm_compute in fst (ParseFile NewSrec file_one_record).
Definition image_contiguous : Srec :=
  Eval vm_compute in fst (ParseFile NewSrec file_contiguous).
Definition scanned_contiguous : Srec :=
  Eval vm_compute in fst (scanLines NewSrec file_contiguous).

(** What a second [ParseFile] of [file_one_record] leaves in the [Srec]
    of the first. *)
Definition image_one_record_twice : Srec :=
  Eval vm_compute in fst (ParseFile image_one_record file_one_record).

Definition scanned_overhang : Srec :=
  Eval vm_compute in fst (scanLines NewSrec file_overhang).

Definition image_empty_last : Srec :=
  Eval vm_compute in fst (ParseFile NewSrec file_empty_last).

(** What the scanning loop leaves for [file_descending]. *)
Definition scanned_descending : Srec :=
  Eval vm_compute in fst (scanLines NewSrec file_descending).

(** ** Lemmas on stores *)

(** Turns the boolean tests of the embedding into propositions. *)
Ltac zbool :=
  repeat match goal with
  | H : _ && _ = true |- _ => apply andb_true_iff in H as [? ?]
  | H : _ && _ = false |- _ => apply andb_false_iff in H as [H|H]
  | H : _ || _ = true |- _ => apply orb_true_iff in H as [H|H]
  | H : _ || _ = false |- _ => apply orb_false_iff in H as [? ?]
  | H : (_ <=? _) = true |- _ => apply Z.leb_le in H
  | H : (_ <=? _) = false |- _ => apply Z.leb_gt in H
  | H : (_ <? _) = true |- _ => apply Z.ltb_lt in H
  | H : (_ <? _) = false |- _ => apply Z.ltb_ge in H
  | H : (_ >? _) = true |- _ => rewrite Z.gtb_ltb in H
  | H : (_ >? _) = false |- _ => rewrite Z.gtb_ltb in H
  | H : (_ >=? _) = true |- _ => rewrite Z.geb_leb in H
  | H : (_ >=? _) = false |- _ => rewrite Z.geb_leb in H
  | H : (_ =? _) = true |- _ => apply Z.eqb_eq in H
  | H : (_ =? _) = false |- _ => apply Z.eqb_neq in H
  end.

Lemma store_inv (a : list Z) idx v b :
  store a idx v = Ok b ->
  0 <= idx < Z.of_nat (length a) /\ b = <[Z.to_nat idx := v]> a.
Proof.
  unfold store. destruct (_ && _) eqn:E; [|discriminate].
  intros [= <-]. zbool. auto.
Qed.

Lemma store_in (a : list Z) idx v :
  0 <= idx < Z.of_nat (length a) -> store a idx v = Ok (<[Z.to_nat idx := v]> a).
Proof.
  intros [H1 H2]. unfold store.
  apply Z.leb_le in H1. apply Z.ltb_lt in H2. now rewrite H1, H2.
Qed.

Lemma store_out (a : list Z) idx v :
  ~ (0 <= idx < Z.of_nat (length a)) -> store a idx v = Panic IndexOutOfRange.
Proof.
  intros H. unfold store. destruct (_ && _) eqn:E; [|reflexivity].
  zbool. lia.
Qed.

Lemma storeAll_length ds : forall b off b' r,
  storeAll b off ds = (b', r) -> length b' = length b.
Proof.
  induction ds as [|d ds IH]; simpl; intros b off b' r H.
  - now inversion H.
  - destruct (store b off d) eqn:E; try (now inversion H).
    apply store_inv in E as [_ ->]. apply IH in H.
    now rewrite length_insert in H.
Qed.

Lemma storeAll_lookup ds : forall b off b',
  storeAll b off ds = (b', Ok tt) ->
  forall k : nat,
    b' !! k =
    if (off <=? Z.of_nat k) && (Z.of_nat k <? off + Z.of_nat (length ds))
    then ds !! Z.to_nat (Z.of_nat k - off) else b !! k.
Proof.
  induction ds as [|d ds IH]; simpl length; simpl storeAll; intros b off b' H k.
  - inversion H; subst.
    destruct (_ && _) eqn:E; [|reflexivity].
    zbool. lia.
  - destruct (store b off d) eqn:E; try discriminate.
    apply store_inv in E as [Hoff ->].
    rewrite (IH _ _ _ H k).
    destruct ((off + 1 <=? Z.of_nat k) && _) eqn:E1;
      destruct ((off <=? Z.of_nat k) && _) eqn:E2; zbool; try lia;
      first
        [ apply list_lookup_insert_ne; lia
        | replace (Z.to_nat (Z.of_nat k - off))
            with (S (Z.to_nat (Z.of_nat k - (off + 1)))) by lia; reflexivity
        | replace (Z.to_nat (Z.of_nat k - off)) with O by lia;
          replace k with (Z.to_nat off) by lia; simpl;
          apply list_lookup_insert_eq; lia ].
Qed.

Lemma storeAll_fits ds : forall b off,
  0 <= off -> off + Z.of_nat (length ds) <= Z.of_nat (length b) ->
  exists b', storeAll b off ds = (b', Ok tt).
Proof.
  induction ds as [|d ds IH]; simpl; intros b off H0 H1; [eauto|].
  rewrite store_in by lia. apply IH; [lia|]. rewrite length_insert. lia.
Qed.

Lemma storeAll_overflow ds : forall b off,
  ds <> [] ->
  0 <= off -> Z.of_nat (length b) < off + Z.of_nat (length ds) ->
  exists b', storeAll b off ds = (b', Panic IndexOutOfRange).
Proof.
  induction ds as [|d ds IH]; simpl; intros b off Hne H0 H1; [congruence|].
  destruct (Z_lt_dec off (Z.of_nat (length b))) as [Hlt|Hge].
  - rewrite store_in by lia. apply IH.
    + destruct ds; [simpl in H1; lia | discriminate].
    + lia.
    + rewrite length_insert. lia.
  - rewrite store_out by lia. eauto.
Qed.

Lemma storeAll_Ok_bounds ds b off b' :
  storeAll b off ds = (b', Ok tt) -> ds <> [] ->
  0 <= off /\ off + Z.of_nat (length ds) <= Z.of_nat (length b).
Proof.
  intros H Hne. destruct ds as [|d ds]; [congruence|]. clear Hne.
  assert (0 <= off) as H0.
  { simpl in H. destruct (store b off d) eqn:E; try (now inversion H).
    apply store_inv in E. lia. }
  split; [exact H0|].
  destruct (Z_le_dec (off + Z.of_nat (length (d :: ds))) (Z.of_nat (length b)))
    as [|Hgt]; [assumption|].
  destruct (storeAll_overflow (d :: ds) b off) as [b2 Hb2];
    [discriminate | exact H0 | lia | congruence].
Qed.

(** ** The copy loops in terms of [storeAll] *)

Lemma set_dataBytes_id sr : set_dataBytes sr (dataBytes sr) = sr.
Proof. now destruct sr. Qed.

Lemma SetBytes_loop_storeAll ws : forall sr start i,
  SetBytes_loop sr start i ws =
  (set_dataBytes sr (fst (storeAll (dataBytes sr) (start + i) ws)),
   snd (storeAll (dataBytes sr) (start + i) ws)).
Proof.
  induction ws as [|w ws IH]; intros sr start i; simpl.
  - now rewrite set_dataBytes_id.
  - destruct (store (dataBytes sr) (start + i) w) eqn:E; simpl;
      try (now rewrite set_dataBytes_id).
    rewrite IH. simpl. now replace (start + (i + 1)) with (start + i + 1) by lia.
Qed.

Lemma copyRecord_storeAll ds : forall sr ofst brcs i,
  outOfRange sr brcs = false ->
  copyRecord sr ofst brcs i ds =
  (set_dataBytes sr
     (fst (storeAll (dataBytes sr) (dr_address brcs - ofst + i) ds)),
   snd (storeAll (dataBytes sr) (dr_address brcs - ofst + i) ds)).
Proof.
  unfold outOfRange.
  induction ds as [|d ds IH]; intros sr ofst brcs i Hin; simpl.
  - now rewrite set_dataBytes_id.
  - rewrite Hin.
    destruct (store (dataBytes sr) (dr_address brcs - ofst + i) d) eqn:E; simpl;
      try (now rewrite set_dataBytes_id).
    rewrite IH by exact Hin. simpl.
    now replace (dr_address brcs - ofst + (i + 1))
      with (dr_address brcs - ofst + i + 1) by lia.
Qed.

Lemma copyRecord_outOfRange d ds sr ofst brcs i :
  outOfRange sr brcs = true ->
  copyRecord sr ofst brcs i (d :: ds) = (sr, Err (ErrOutOfRange (dr_address brcs))).
Proof. unfold outOfRange. intros H. simpl. now rewrite H. Qed.

Lemma copyRecord_Ok sr ofst r sr' :
  copyRecord sr ofst r 0 (dr_data r) = (sr', Ok tt) ->
  sr' = set_dataBytes sr (dataBytes sr') /\
  length (dataBytes sr') = length (dataBytes sr) /\
  fitsIn sr ofst r /\
  forall k : nat,
    dataBytes sr' !! k =
    if covers ofst r (Z.of_nat k) then byteAt ofst r (Z.of_nat k)
    else dataBytes sr !! k.
Proof.
  intros H. unfold fitsIn, covers, byteAt.
  destruct (dr_data r) as [|d ds] eqn:Hd.
  - simpl in H. inversion H; subst sr'. rewrite set_dataBytes_id.
    repeat split; try congruence.
    intros k. destruct (_ && _) eqn:E; [|reflexivity]. zbool. simpl in *. lia.
  - destruct (outOfRange sr r) eqn:Hr.
    + rewrite copyRecord_outOfRange in H by exact Hr. discriminate.
    + rewrite copyRecord_storeAll in H by exact Hr.
      replace (dr_address r - ofst + 0) with (dr_address r - ofst) in H by lia.
      destruct (storeAll (dataBytes sr) (dr_address r - ofst) (d :: ds))
        as [b out] eqn:Hs.
      simpl in H. inversion H; subst sr' out. simpl.
      pose proof (storeAll_length _ _ _ _ _ Hs) as Hlen.
      pose proof (storeAll_Ok_bounds _ _ _ _ Hs ltac:(discriminate)) as Hb.
      pose proof (storeAll_lookup _ _ _ _ Hs) as Hl.
      unfold outOfRange in Hr. zbool. simpl length in *.
      repeat split; try lia; try assumption.
Qed.

Lemma copyRecords_Ok recs : forall sr ofst sr',
  copyRecords sr ofst recs = (sr', Ok tt) ->
  sr' = set_dataBytes sr (dataBytes sr') /\
  length (dataBytes sr') = length (dataBytes sr) /\
  Forall (fitsIn sr ofst) recs /\
  forall k : nat,
    dataBytes sr' !! k = image ofst recs (Z.of_nat k) (dataBytes sr !! k).
Proof.
  induction recs as [|r rest IH]; intros sr ofst sr' H; simpl in H.
  - inversion H; subst sr'. rewrite set_dataBytes_id. auto.
  - destruct (copyRecord sr ofst r 0 (dr_data r)) as [sr1 out] eqn:E.
    destruct out as [[]| |]; try discriminate.
    apply copyRecord_Ok in E as (E1 & E2 & E3 & E4).
    apply IH in H as (H1 & H2 & H3 & H4).
    repeat split.
    + rewrite H1 at 1. rewrite E1. reflexivity.
    + lia.
    + constructor; [exact E3|].
      eapply Forall_impl; [exact H3|].
      simpl. intros x Hx. unfold fitsIn in *. rewrite E1 in Hx. simpl in Hx.
      rewrite <- E2. exact Hx.
    + intros k. rewrite H4, E4. reflexivity.
Qed.

(** ** What the scanning loop changes *)

Lemma u32_range z : 0 <= u32 z < 2 ^ 32.
Proof. unfold u32. apply Z.mod_pos_bound. lia. Qed.

Lemma u32_small z : 0 <= z < 2 ^ 32 -> u32 z = z.
Proof. intros H. unfold u32. now apply Z.mod_small. Qed.

Lemma getAddress_range srectype sl a :
  getAddress srectype sl = Ok a -> 0 <= a < 2 ^ 32.
Proof.
  unfold getAddress, bind.
  destruct (getAddrLenAsStr srectype); try discriminate.
  destruct (slice sl 4 _); try discriminate.
  destruct (ParseUint _ 16 32); try discriminate.
  intros [= <-]. apply u32_range.
Qed.

Lemma getDataRecordFields_Ok rec srectype sl rec' :
  getDataRecordFields rec srectype sl = (rec', Ok tt) ->
  exists n a d c,
    getLengh sl = Ok n /\ getAddress srectype sl = Ok a /\
    getData srectype sl = Ok d /\ getChecksum srectype sl = Ok c /\
    rec' = mkDataRecord srectype n a d c.
Proof.
  unfold getDataRecordFields.
  destruct (getLengh sl) as [n| |]; simpl; try discriminate.
  destruct (getAddress srectype sl) as [a| |]; simpl; try discriminate.
  destruct (getData srectype sl) as [d| |]; simpl; try discriminate.
  destruct (getChecksum srectype sl) as [c| |]; simpl; try discriminate.
  intros [= <-]. now exists n, a, d, c.
Qed.

(** Outcome-independent frame of one loop iteration: only the header and
    the list of data records can change, and the list only grows. *)
Lemma scanLine_frame srs line srs' out :
  scanLine srs line = (srs', out) ->
  startAddress srs' = startAddress srs /\
  endAddress srs' = endAddress srs /\
  dataBytes srs' = dataBytes srs /\
  sr_footerRecord srs' = sr_footerRecord srs /\
  exists recs,
    sr_dataRecords srs' = sr_dataRecords srs ++ recs /\
    Forall (fun r => 0 <= dr_address r < 2 ^ 32) recs /\
    length recs = match out with
                  | Ok _ => if hasDataTag line then 1%nat else 0%nat
                  | _ => 0%nat
                  end.
Proof.
  unfold scanLine, hasDataTag.
  destruct (slice (Split line "") 0 2) as [tag| |]; simpl.
  2,3: intros [= <- <-]; repeat split; exists []; now rewrite app_nil_r.
  destruct (String.eqb (Join tag "") "S0") eqn:E0.
  { apply String.eqb_eq in E0. rewrite E0. simpl.
    destruct (getHeaderRecordFields _ _)
      as [h [[]| |]]; simpl; intros [= <- <-]; repeat split;
      exists []; now rewrite app_nil_r. }
  destruct (isDataType (Join tag "")) eqn:E1.
  { destruct (getDataRecordFields _ _ _)
      as [rec [[]| |]] eqn:E; simpl; intros [= <- <-]; repeat split.
    - exists [rec]. repeat split. constructor; [|constructor].
      apply getDataRecordFields_Ok in E as (n & a & d & c & _ & Ha & _ & _ & ->).
      simpl. eapply getAddress_range, Ha.
    - exists []; now rewrite app_nil_r.
    - exists []; now rewrite app_nil_r. }
  destruct (isFooterType (Join tag ""));
    intros [= <- <-]; repeat split; exists []; now rewrite app_nil_r.
Qed.

(** A line that does not decode leaves the receiver as it was. *)
Lemma scanLine_stopped srs line srs' out :
  scanLine srs line = (srs', out) -> out <> Ok tt -> srs' = srs.
Proof.
  unfold scanLine.
  destruct (slice (Split line "") 0 2) as [tag| |]; simpl.
  2,3: now intros [= <- <-].
  destruct (String.eqb (Join tag "") "S0").
  { destruct (getHeaderRecordFields _ _)
      as [h [[]| |]]; simpl; intros [= <- <-]; congruence. }
  destruct (isDataType (Join tag "")).
  { destruct (getDataRecordFields _ _ _)
      as [rec [[]| |]]; simpl; intros [= <- <-]; congruence. }
  destruct (isFooterType (Join tag "")); intros [= <- <-]; congruence.
Qed.

Lemma scanLines_frame lines : forall srs srs' out,
  scanLines srs lines = (srs', out) ->
  startAddress srs' = startAddress srs /\
  endAddress srs' = endAddress srs /\
  dataBytes srs' = dataBytes srs /\
  sr_footerRecord srs' = sr_footerRecord srs /\
  exists recs,
    sr_dataRecords srs' = sr_dataRecords srs ++ recs /\
    Forall (fun r => 0 <= dr_address r < 2 ^ 32) recs /\
    (out = Ok tt -> length recs = dataLines lines).
Proof.
  induction lines as [|line rest IH]; intros srs srs' out H; simpl in H.
  - inversion H; subst. repeat split. exists []. now rewrite app_nil_r.
  - destruct (scanLine srs line) as [srs1 out1] eqn:E.
    apply scanLine_frame in E as (E1 & E2 & E3 & E4 & recs1 & E5 & E6 & E7).
    destruct out1 as [[]| |].
    + apply IH in H as (H1 & H2 & H3 & H4 & recs2 & H5 & H6 & H7).
      repeat split; try congruence.
      exists (recs1 ++ recs2). repeat split.
      * rewrite H5, E5. now rewrite app_assoc.
      * apply Forall_app; auto.
      * intros Hout. rewrite length_app, E7, (H7 Hout). reflexivity.
    + inversion H; subst. repeat split; try congruence.
      exists recs1. repeat split; try assumption. discriminate.
    + inversion H; subst. repeat split; try congruence.
      exists recs1. repeat split; try assumption. discriminate.
Qed.

(** ** A successful parse, step by step *)

Lemma index_Ok {A : Type} (a : list A) i x :
  index a i = Ok x -> 0 <= i /\ a !! Z.to_nat i = Some x.
Proof.
  unfold index. destruct (_ && _) eqn:E; [|discriminate]. zbool.
  destruct (a !! Z.to_nat i); [|discriminate]. now intros [= ->].
Qed.

Lemma ParseFile_Ok srs lines sr :
  ParseFile srs lines = (sr, Ok tt) ->
  exists srs1 first lst,
    scanLines srs lines = (srs1, Ok tt) /\
    head (sr_dataRecords srs1) = Some first /\
    last (sr_dataRecords srs1) = Some lst /\
    isAddrAcending srs1 = Ok tt /\
    copyRecords
      (mkSrec (sr_headerRecord srs1) (sr_dataRecords srs1)
              (sr_footerRecord srs1) (dr_address first) (dr_address lst)
              (dataBytes srs1
                 ++ replicate (Z.to_nat (paddedSize first lst)) 255))
      (dr_address first) (sr_dataRecords srs1) = (sr, Ok tt).
Proof.
  unfold ParseFile.
  destruct (scanLines srs lines) as [srs1 [[]| |]] eqn:Hscan; try discriminate.
  destruct (isDataRecordExists srs1) as [[]| |]; try discriminate.
  destruct (isAddrAcending srs1) as [[]| |] eqn:Hasc; try discriminate.
  unfold getStartAddr, getEndAddr, getLastRecordDataLen, bind.
  destruct (index (sr_dataRecords srs1) 0) as [first| |] eqn:H0;
    try discriminate.
  simpl sr_dataRecords.
  destruct (index (sr_dataRecords srs1)
              (Z.of_nat (length (sr_dataRecords srs1)) - 1))
    as [lst| |] eqn:H1; try discriminate.
  unfold makePaddedBytes. simpl.
  intros H. exists srs1, first, lst.
  apply index_Ok in H0 as [_ H0]. apply index_Ok in H1 as [Hpos H1].
  repeat split; try assumption.
  - now rewrite head_lookup.
  - rewrite last_lookup.
    now replace (Nat.pred (length (sr_dataRecords srs1)))
      with (Z.to_nat (Z.of_nat (length (sr_dataRecords srs1)) - 1)) by lia.
Qed.

Lemma ascending_head_last l : forall a z,
  ascending (a :: l) = true -> last (a :: l) = Some z -> a <= z.
Proof.
  induction l as [|b l IH]; intros a z H Hl.
  - simpl in Hl. injection Hl as <-. lia.
  - simpl in H. apply andb_true_iff in H as [H1 H2]. apply Z.leb_le in H1.
    rewrite last_cons_cons in Hl. specialize (IH b z H2 Hl). lia.
Qed.

(** All that the theorems on the assembled image need from a successful
    parse of a file into a fresh [Srec]. *)
Lemma ParseFile_image lines sr :
  ParseFile NewSrec lines = (sr, Ok tt) ->
  exists first lst,
    head (sr_dataRecords sr) = Some first /\
    last (sr_dataRecords sr) = Some lst /\
    startAddress sr = dr_address first /\
    endAddress sr = dr_address lst /\
    Z.of_nat (length (dataBytes sr)) = paddedSize first lst /\
    Forall (fun r => 0 <= dr_address r < 2 ^ 32) (sr_dataRecords sr) /\
    Forall (fitsIn sr (startAddress sr)) (sr_dataRecords sr) /\
    forall k : nat,
      (k < length (dataBytes sr))%nat ->
      dataBytes sr !! k =
      image (startAddress sr) (sr_dataRecords sr) (Z.of_nat k) (Some 255).
Proof.
  intros H.
  apply ParseFile_Ok in H as (srs1 & first & lst & Hscan & Hh & Hl & _ & Hc).
  apply scanLines_frame in Hscan as (_ & _ & Hb & _ & recs & Hr & Hu & _).
  simpl in Hb, Hr. rewrite Hb in Hc. simpl in Hc.
  apply copyRecords_Ok in Hc as (E1 & E2 & E3 & E4).
  simpl in E2, E4.
  assert (0 <= paddedSize first lst) as Hsz
    by (unfold paddedSize; apply u32_range).
  rewrite length_replicate in E2.
  rewrite E1. simpl. rewrite Hr. exists first, lst.
  rewrite <- Hr.
  repeat split; try assumption; try lia.
  - rewrite Hr. exact Hu.
  - eapply Forall_impl; [exact E3|]. simpl. unfold fitsIn. simpl.
    intros r Hf Hne. specialize (Hf Hne).
    rewrite length_replicate in Hf. rewrite E2. exact Hf.
  - intros k Hk. rewrite E4. f_equal. apply lookup_replicate_2. lia.
Qed.

(** ** The image as the last write to every offset *)

Lemma image_none ofst k recs : forall old,
  Forall (fun r => covers ofst r k = false) recs ->
  image ofst recs k old = old.
Proof.
  induction recs as [|r rest IH]; intros old H; simpl; [reflexivity|].
  inversion H as [|? ? Hr Hrest]; subst. rewrite Hr. now apply IH.
Qed.

Lemma image_app ofst k l1 : forall l2 old,
  image ofst (l1 ++ l2) k old = image ofst l2 k (image ofst l1 k old).
Proof.
  induction l1 as [|r l1 IH]; intros l2 old; simpl; [reflexivity|].
  apply IH.
Qed.

Lemma image_last_cover ofst k recs (q : nat) r old :
  recs !! q = Some r ->
  covers ofst r k = true ->
  Forall (fun r' => covers ofst r' k = false) (drop (S q) recs) ->
  image ofst recs k old = byteAt ofst r k.
Proof.
  intros Hq Hc Hlater.
  rewrite <- (take_drop_middle recs q r Hq), image_app. simpl.
  rewrite Hc. now apply image_none.
Qed.

Lemma covers_byteAt ofst r k :
  covers ofst r k = true -> is_Some (byteAt ofst r k).
Proof.
  unfold covers, byteAt. intros H. zbool.
  apply lookup_lt_is_Some. lia.
Qed.

(** ** The assembled image *)

Section Assembled.

(** A file that [ParseFile] accepts, and the [Srec] it leaves when it
    starts from a fresh one. *)
Variable lines : list string.
Variable sr : Srec.
Hypothesis parsed : ParseFile NewSrec lines = (sr, Ok tt).

(** C3. After a successful [ParseFile] of a file whose data-record
    addresses are non-decreasing in file order, [startAddress] is the
    address of the first data record, [endAddress] the address of the last
    one, and the buffer returned by [Bytes] has exactly
    [endAddress - startAddress + len(last record's data)] bytes. *)
Theorem ParseFile_Bytes_length :
  ascending (dr_address <$> sr_dataRecords sr) = true ->
  exists first lst,
    head (sr_dataRecords sr) = Some first /\
    last (sr_dataRecords sr) = Some lst /\
    startAddress sr = dr_address first /\
    endAddress sr = dr_address lst /\
    Z.of_nat (length (Bytes sr))
    = endAddress sr - startAddress sr + Z.of_nat (length (dr_data lst)).
Proof.
  intros Hasc.
  destruct (ParseFile_image _ _ parsed)
    as (first & lst & Hh & Hl & Hs & He & Hlen & Hu & Hfit & _).
  exists first, lst. repeat split; try assumption.
  unfold Bytes. rewrite Hlen, Hs, He. unfold paddedSize.
  assert (dr_address first <= dr_address lst) as Hle.
  { destruct (sr_dataRecords sr) as [|r0 tl] eqn:Hrecs; [discriminate|].
    injection Hh as ->. rewrite fmap_cons in Hasc.
    apply (ascending_head_last _ _ _ Hasc).
    rewrite <- fmap_cons, fmap_last, Hl. reflexivity. }
  assert (0 <= dr_address first < 2 ^ 32) as Hf.
  { rewrite head_lookup in Hh. exact (Forall_lookup_1 _ _ _ _ Hu Hh). }
  assert (0 <= dr_address lst < 2 ^ 32) as Hlst.
  { rewrite last_lookup in Hl. exact (Forall_lookup_1 _ _ _ _ Hu Hl). }
  rewrite (u32_small (dr_address lst - dr_address first)) by lia.
  destruct (dr_data lst) as [|d ds] eqn:Hd.
  - change (Z.of_nat (length (@nil Z))) with 0.
    rewrite (u32_small 0) by lia. rewrite u32_small by lia. lia.
  - rewrite last_lookup in Hl.
    pose proof (Forall_lookup_1 _ _ _ _ Hfit Hl) as Hfl.
    unfold fitsIn in Hfl. rewrite Hd in Hfl.
    specialize (Hfl ltac:(discriminate)) as (_ & _ & Hb).
    rewrite Hlen, Hs in Hb. unfold paddedSize in Hb.
    rewrite (u32_small (dr_address lst - dr_address first)) in Hb by lia.
    rewrite Hd in Hb.
    set (L := Z.of_nat (length (d :: ds))) in *.
    assert (0 <= L) by (unfold L; lia).
    pose proof (u32_range (dr_address lst - dr_address first + u32 L)) as Hr.
    assert (L < 2 ^ 32) by lia.
    rewrite (u32_small L) by lia.
    rewrite u32_small by lia. lia.
Qed.

(** C5. After a successful [ParseFile], every byte of the buffer at an
    offset that no data record covers is the fill byte [0xFF]. *)
Theorem uncovered_bytes_are_fill (k : nat) :
  (k < length (Bytes sr))%nat ->
  Forall (fun r => covers (startAddress sr) r (Z.of_nat k) = false)
         (sr_dataRecords sr) ->
  Bytes sr !! k = Some 255.
Proof.
  intros Hk Hnone.
  destruct (ParseFile_image _ _ parsed)
    as (_ & _ & _ & _ & _ & _ & _ & _ & _ & Himg).
  unfold Bytes in *. rewrite (Himg k Hk). now apply image_none.
Qed.

(** C4, amended. After a successful [ParseFile], for every data record [r]
    and every index [i] into its data such that no record later in file
    order covers the offset [(r.address - startAddress) + i], the buffer
    byte at that offset is [r.data[i]]. *)
Theorem record_bytes_in_image (p : nat) r (i : nat) d :
  sr_dataRecords sr !! p = Some r ->
  dr_data r !! i = Some d ->
  Forall (fun r' =>
            covers (startAddress sr) r'
                   (dr_address r - startAddress sr + Z.of_nat i) = false)
         (drop (S p) (sr_dataRecords sr)) ->
  0 <= dr_address r - startAddress sr /\
  Bytes sr !! Z.to_nat (dr_address r - startAddress sr + Z.of_nat i) = Some d.
Proof.
  intros Hp Hi Hlater.
  destruct (ParseFile_image _ _ parsed)
    as (_ & _ & _ & _ & _ & _ & _ & _ & Hfit & Himg).
  pose proof (lookup_lt_Some _ _ _ Hi) as Hlt.
  pose proof (Forall_lookup_1 _ _ _ _ Hfit Hp) as Hf.
  unfold fitsIn in Hf.
  destruct Hf as (_ & Hoff & Hend);
    [intros E; rewrite E in Hlt; simpl in Hlt; lia|].
  split; [exact Hoff|].
  set (k := Z.to_nat (dr_address r - startAddress sr + Z.of_nat i)).
  assert (Z.of_nat k = dr_address r - startAddress sr + Z.of_nat i) as Hk
    by (unfold k; lia).
  unfold Bytes. rewrite Himg by lia. rewrite Hk.
  rewrite (image_last_cover _ _ _ p r); try assumption.
  - unfold byteAt. rewrite <- Hi. f_equal. lia.
  - unfold covers. apply andb_true_iff.
    split; [apply Z.leb_le|apply Z.ltb_lt]; lia.
Qed.

(** C10, amended. Records are copied in file order, and records with equal
    consecutive addresses pass the ordering check, so ranges can overlap;
    after a successful [ParseFile], a buffer byte covered by two records
    holds the corresponding byte of the last record in file order that
    covers it. *)
Theorem overlap_last_record_wins (p q : nat) rp rq (k : nat) :
  (p < q)%nat ->
  sr_dataRecords sr !! p = Some rp ->
  sr_dataRecords sr !! q = Some rq ->
  covers (startAddress sr) rp (Z.of_nat k) = true ->
  covers (startAddress sr) rq (Z.of_nat k) = true ->
  Forall (fun r' => covers (startAddress sr) r' (Z.of_nat k) = false)
         (drop (S q) (sr_dataRecords sr)) ->
  is_Some (Bytes sr !! k) /\
  Bytes sr !! k = byteAt (startAddress sr) rq (Z.of_nat k).
Proof.
  intros Hpq Hp Hq Hcp Hcq Hlater.
  destruct (ParseFile_image _ _ parsed)
    as (_ & _ & _ & _ & _ & _ & _ & _ & Hfit & Himg).
  assert (k < length (dataBytes sr))%nat as Hk.
  { pose proof (Forall_lookup_1 _ _ _ _ Hfit Hq) as Hf.
    unfold fitsIn in Hf. unfold covers in Hcq. zbool.
    destruct Hf as (_ & _ & Hend); [intros E; rewrite E in *; simpl in *; lia|].
    lia. }
  unfold Bytes. rewrite (Himg k Hk).
  rewrite (image_last_cover _ _ _ q rq) by assumption.
  split; [now apply covers_byteAt|reflexivity].
Qed.

End Assembled.

(** Witness of C3: the two records of [file_gap]. *)
Lemma ParseFile_Bytes_length_witness :
  ParseFile NewSrec file_gap = (image_gap, Ok tt) /\
  ascending (dr_address <$> sr_dataRecords image_gap) = true /\
  exists first lst,
    head (sr_dataRecords image_gap) = Some first /\
    last (sr_dataRecords image_gap) = Some lst /\
    startAddress image_gap = dr_address first /\
    endAddress image_gap = dr_address lst /\
    Z.of_nat (length (Bytes image_gap))
    = endAddress image_gap - startAddress image_gap
      + Z.of_nat (length (dr_data lst)).
Proof.
  assert (ParseFile NewSrec file_gap = (image_gap, Ok tt)) as H
    by (vm_compute; reflexivity).
  assert (ascending (dr_address <$> sr_dataRecords image_gap) = true) as Ha
    by (vm_compute; reflexivity).
  split; [exact H|]. split; [exact Ha|].
  exact (ParseFile_Bytes_length file_gap image_gap H Ha).
Defined.

(** Witness of C5: offset 2 of the image of [file_gap], in the gap between
    its records. *)
Lemma uncovered_bytes_are_fill_witness :
  ParseFile NewSrec file_gap = (image_gap, Ok tt) /\
  (2 < length (Bytes image_gap))%nat /\
  Forall (fun r => covers (startAddress image_gap) r (Z.of_nat 2) = false)
         (sr_dataRecords image_gap) /\
  Bytes image_gap !! 2%nat = Some 255.
Proof.
  assert (ParseFile NewSrec file_gap = (image_gap, Ok tt)) as H
    by (vm_compute; reflexivity).
  assert (2 < length (Bytes image_gap))%nat as Hk by (vm_compute; lia).
  assert (Forall (fun r => covers (startAddress image_gap) r (Z.of_nat 2) = false)
                 (sr_dataRecords image_gap)) as Hn
    by (repeat constructor).
  split; [exact H|]. split; [exact Hk|]. split; [exact Hn|].
  exact (uncovered_bytes_are_fill file_gap image_gap H 2 Hk Hn).
Defined.

(** C4, as stated, fails when a later record is copied over an earlier one:
    the two records of [file_same_address] both sit at address [0x10]; the
    parse succeeds, the first record holds [0xAA] at index 0, and the buffer
    holds the second record's [0xCC] at that record's offset. *)
Lemma overwritten_record_byte_differs :
  ParseFile NewSrec file_same_address = (image_same_address, Ok tt) /\
  exists r,
    sr_dataRecords image_same_address !! 0%nat = Some r /\
    dr_data r !! 0%nat = Some 170 /\
    Bytes image_same_address
      !! Z.to_nat (dr_address r - startAddress image_same_address + 0)
    = Some 204.
Proof.
  split; [vm_compute; reflexivity|].
  eexists. split; [reflexivity|]. split; reflexivity.
Qed.

(** Witness of C4, amended: the second byte of the second record of
    [file_same_address]. *)
Lemma record_bytes_in_image_witness :
  ParseFile NewSrec file_same_address = (image_same_address, Ok tt) /\
  sr_dataRecords image_same_address !! 1%nat
  = Some (mkDataRecord "S1" 5 16 [204; 221] 0) /\
  [204; 221] !! 1%nat = Some 221 /\
  Forall (fun r' =>
            covers (startAddress image_same_address) r'
                   (16 - startAddress image_same_address + Z.of_nat 1) = false)
         (drop 2 (sr_dataRecords image_same_address)) /\
  0 <= 16 - startAddress image_same_address /\
  Bytes image_same_address
    !! Z.to_nat (16 - startAddress image_same_address + Z.of_nat 1)
  = Some 221.
Proof.
  assert (ParseFile NewSrec file_same_address = (image_same_address, Ok tt))
    as H by (vm_compute; reflexivity).
  assert (Forall (fun r' =>
            covers (startAddress image_same_address) r'
                   (16 - startAddress image_same_address + Z.of_nat 1) = false)
         (drop 2 (sr_dataRecords image_same_address))) as Hn
    by constructor.
  split; [exact H|]. split; [reflexivity|]. split; [reflexivity|].
  split; [exact Hn|].
  exact (record_bytes_in_image file_same_address image_same_address H 1
           (mkDataRecord "S1" 5 16 [204; 221] 0) 1 221
           eq_refl eq_refl Hn).
Defined.

(** C10, as stated, fails when a third record covers the same offset: the
    three records of [file_three_same_address] all sit at address [0x10].
    The first two overlap at offset 0 and the later of the two holds
    [0xBB], yet the buffer holds the third record's [0xCC]. *)
Lemma overlap_of_two_overwritten_by_third :
  ParseFile NewSrec file_three_same_address
  = (image_three_same_address, Ok tt) /\
  exists rp rq,
    sr_dataRecords image_three_same_address !! 0%nat = Some rp /\
    sr_dataRecords image_three_same_address !! 1%nat = Some rq /\
    covers (startAddress image_three_same_address) rp 0 = true /\
    covers (startAddress image_three_same_address) rq 0 = true /\
    byteAt (startAddress image_three_same_address) rq 0 = Some 187 /\
    Bytes image_three_same_address !! 0%nat = Some 204.
Proof.
  split; [vm_compute; reflexivity|].
  do 2 eexists. repeat (split; [reflexivity|]). reflexivity.
Qed.

(** Witness of C10, amended: the second and third record of
    [file_three_same_address] at offset 0. *)
Lemma overlap_last_record_wins_witness :
  ParseFile NewSrec file_three_same_address
  = (image_three_same_address, Ok tt) /\
  (1 < 2)%nat /\
  sr_dataRecords image_three_same_address !! 1%nat
  = Some (mkDataRecord "S1" 4 16 [187] 0) /\
  sr_dataRecords image_three_same_address !! 2%nat
  = Some (mkDataRecord "S1" 4 16 [204] 0) /\
  covers (startAddress image_three_same_address)
         (mkDataRecord "S1" 4 16 [187] 0) (Z.of_nat 0) = true /\
  covers (startAddress image_three_same_address)
         (mkDataRecord "S1" 4 16 [204] 0) (Z.of_nat 0) = true /\
  Forall (fun r' =>
            covers (startAddress image_three_same_address) r' (Z.of_nat 0)
            = false)
         (drop 3 (sr_dataRecords image_three_same_address)) /\
  is_Some (Bytes image_three_same_address !! 0%nat) /\
  Bytes image_three_same_address !! 0%nat
  = byteAt (startAddress image_three_same_address)
           (mkDataRecord "S1" 4 16 [204] 0) (Z.of_nat 0).
Proof.
  assert (ParseFile NewSrec file_three_same_address
          = (image_three_same_address, Ok tt)) as H
    by (vm_compute; reflexivity).
  assert (1 < 2)%nat as Hlt by lia.
  assert (Forall (fun r' =>
            covers (startAddress image_three_same_address) r' (Z.of_nat 0)
            = false)
         (drop 3 (sr_dataRecords image_three_same_address))) as Hn
    by constructor.
  split; [exact H|]. split; [exact Hlt|]. split; [reflexivity|].
  split; [reflexivity|]. split; [reflexivity|]. split; [reflexivity|].
  split; [exact Hn|].
  exact (overlap_last_record_wins file_three_same_address
           image_three_same_address H 1 2
           (mkDataRecord "S1" 4 16 [187] 0) (mkDataRecord "S1" 4 16 [204] 0) 0
           Hlt eq_refl eq_refl eq_refl eq_refl Hn).
Defined.

(** ** Patching the image *)

(** Whatever the outcome, a run of stores that starts at a non-negative
    offset has written every byte that has a place in the buffer. *)
Lemma storeAll_lookup_lt ds : forall b off b' out,
  0 <= off ->
  storeAll b off ds = (b', out) ->
  forall k : nat,
    (k < length b)%nat ->
    b' !! k =
    if (off <=? Z.of_nat k) && (Z.of_nat k <? off + Z.of_nat (length ds))
    then ds !! Z.to_nat (Z.of_nat k - off) else b !! k.
Proof.
  induction ds as [|d ds IH]; simpl length; simpl storeAll;
    intros b off b' out H0 H k Hk.
  - inversion H; subst.
    destruct (_ && _) eqn:E; [|reflexivity]. zbool. lia.
  - destruct (store b off d) eqn:E.
    + apply store_inv in E as [Hoff ->].
      assert (0 <= off + 1) as H1 by lia.
      rewrite (IH _ _ _ _ H1 H k) by (rewrite length_insert; lia).
      destruct ((off + 1 <=? Z.of_nat k) && _) eqn:E1;
        destruct ((off <=? Z.of_nat k) && _) eqn:E2; zbool; try lia;
        first
          [ apply list_lookup_insert_ne; lia
          | replace (Z.to_nat (Z.of_nat k - off))
              with (S (Z.to_nat (Z.of_nat k - (off + 1)))) by lia; reflexivity
          | replace (Z.to_nat (Z.of_nat k - off)) with O by lia;
            replace k with (Z.to_nat off) by lia; simpl;
            apply list_lookup_insert_eq; lia ].
    + unfold store in E. destruct (_ && _); discriminate.
    + inversion H; subst.
      assert (Z.of_nat (length b') <= off) as Hge.
      { destruct (Z_lt_dec off (Z.of_nat (length b'))); [|lia].
        rewrite store_in in E by lia. discriminate. }
      destruct (_ && _) eqn:E2; [zbool; lia|reflexivity].
Qed.

Lemma ParseFile_records_nonempty srs lines sr :
  ParseFile srs lines = (sr, Ok tt) -> sr_dataRecords sr <> [].
Proof.
  intros H.
  apply ParseFile_Ok in H as (srs1 & first & lst & _ & Hh & _ & _ & Hc).
  apply copyRecords_Ok in Hc as (-> & _). simpl.
  destruct (sr_dataRecords srs1); [discriminate|discriminate].
Qed.

(** C8. On an [Srec] that holds data records (so on every assembled
    image): [SetBytes] at an address below [startAddress] or above
    [endAddress] returns the out-of-range error and leaves the [Srec] as it
    was; [SetBytes] at an address within [startAddress..endAddress] whose
    bytes fit in the buffer returns no error, puts [wBytes] at offset
    [wAddr - startAddress], and changes nothing else: the buffer keeps its
    length and every byte outside the written range, and all other fields
    keep their values. *)
Theorem SetBytes_range_and_frame sr wAddr wBytes :
  sr_dataRecords sr <> [] ->
  (wAddr < startAddress sr \/ endAddress sr < wAddr ->
   SetBytes sr wAddr wBytes = (sr, Err (ErrOutOfRange wAddr))) /\
  (startAddress sr <= wAddr <= endAddress sr ->
   wAddr - startAddress sr + Z.of_nat (length wBytes)
     <= Z.of_nat (length (Bytes sr)) ->
   exists sr',
     SetBytes sr wAddr wBytes = (sr', Ok tt) /\
     sr' = set_dataBytes sr (Bytes sr') /\
     length (Bytes sr') = length (Bytes sr) /\
     (forall i : nat,
        (i < length wBytes)%nat ->
        Bytes sr' !! (Z.to_nat (wAddr - startAddress sr) + i)%nat
        = wBytes !! i) /\
     (forall k : nat,
        Z.of_nat k < wAddr - startAddress sr \/
        wAddr - startAddress sr + Z.of_nat (length wBytes) <= Z.of_nat k ->
        Bytes sr' !! k = Bytes sr !! k)).
Proof.
  intros Hne. unfold SetBytes, Bytes.
  assert ((Z.of_nat (length (sr_dataRecords sr)) =? 0) = false) as ->.
  { apply Z.eqb_neq. destruct (sr_dataRecords sr); [congruence|simpl; lia]. }
  split.
  - intros Hout.
    assert ((wAddr <? startAddress sr) || (wAddr >? endAddress sr) = true) as ->.
    { apply orb_true_iff. rewrite Z.gtb_ltb, !Z.ltb_lt. lia. }
    reflexivity.
  - intros Hin Hfit.
    assert ((wAddr <? startAddress sr) || (wAddr >? endAddress sr) = false) as ->.
    { apply orb_false_iff. rewrite Z.gtb_ltb, !Z.ltb_ge. lia. }
    rewrite SetBytes_loop_storeAll.
    replace (wAddr - startAddress sr + 0) with (wAddr - startAddress sr) by lia.
    destruct (storeAll_fits wBytes (dataBytes sr) (wAddr - startAddress sr))
      as [b Hb]; [lia|lia|].
    rewrite Hb. simpl.
    pose proof (storeAll_length _ _ _ _ _ Hb) as Hlen.
    pose proof (storeAll_lookup _ _ _ _ Hb) as Hl.
    eexists. split; [reflexivity|]. simpl.
    split; [reflexivity|]. split; [exact Hlen|]. split.
    + intros i Hi. rewrite Hl.
      destruct (_ && _) eqn:E; [f_equal; lia|zbool; lia].
    + intros k Hk. rewrite Hl.
      destruct (_ && _) eqn:E; [zbool; lia|reflexivity].
Qed.

(** Witness of C8: the image of [file_gap], which spans [0x10..0x14] and
    holds six bytes; writes of two bytes at [0x0F], [0x15] and [0x11]. *)
Lemma SetBytes_range_and_frame_witness :
  sr_dataRecords image_gap <> [] /\
  SetBytes image_gap 15 [1; 2] = (image_gap, Err (ErrOutOfRange 15)) /\
  SetBytes image_gap 21 [1; 2] = (image_gap, Err (ErrOutOfRange 21)) /\
  exists sr',
    SetBytes image_gap 17 [1; 2] = (sr', Ok tt) /\
    sr' = set_dataBytes image_gap (Bytes sr') /\
    length (Bytes sr') = length (Bytes image_gap) /\
    (forall i : nat,
       (i < length [1; 2])%nat ->
       Bytes sr' !! (Z.to_nat (17 - startAddress image_gap) + i)%nat
       = [1; 2] !! i) /\
    (forall k : nat,
       Z.of_nat k < 17 - startAddress image_gap \/
       17 - startAddress image_gap + Z.of_nat (length [1; 2]) <= Z.of_nat k ->
       Bytes sr' !! k = Bytes image_gap !! k).
Proof.
  assert (sr_dataRecords image_gap <> []) as Hne by discriminate.
  split; [exact Hne|]. split; [|split].
  - apply (proj1 (SetBytes_range_and_frame image_gap 15 [1; 2] Hne)).
    left. vm_compute. reflexivity.
  - apply (proj1 (SetBytes_range_and_frame image_gap 21 [1; 2] Hne)).
    right. vm_compute. reflexivity.
  - apply (proj2 (SetBytes_range_and_frame image_gap 17 [1; 2] Hne)).
    + vm_compute. split; discriminate.
    + vm_compute. discriminate.
Defined.

(** C9. [SetBytes] checks only the first address of a write. Whenever
    [wAddr] lies within [startAddress..endAddress] the call passes the
    range test, whatever the length of [wBytes], and runs the store loop;
    when the bytes do not fit in the buffer, the loop writes the bytes that
    do and then stores one past the end of the buffer, which stops the call
    with an index-out-of-range panic. *)
Theorem SetBytes_no_upper_bound_check sr wAddr wBytes :
  sr_dataRecords sr <> [] ->
  startAddress sr <= wAddr <= endAddress sr ->
  SetBytes sr wAddr wBytes
  = SetBytes_loop sr (wAddr - startAddress sr) 0 wBytes /\
  (forall a, snd (SetBytes sr wAddr wBytes) <> Err (ErrOutOfRange a)) /\
  (wBytes <> [] ->
   Z.of_nat (length (Bytes sr))
     < wAddr - startAddress sr + Z.of_nat (length wBytes) ->
   exists sr',
     SetBytes sr wAddr wBytes = (sr', Panic IndexOutOfRange) /\
     length (Bytes sr') = length (Bytes sr) /\
     forall k : nat,
       wAddr - startAddress sr <= Z.of_nat k ->
       (k < length (Bytes sr))%nat ->
       Bytes sr' !! k = wBytes !! Z.to_nat (Z.of_nat k - (wAddr - startAddress sr))).
Proof.
  intros Hne Hin. unfold SetBytes, Bytes.
  assert ((Z.of_nat (length (sr_dataRecords sr)) =? 0) = false) as ->.
  { apply Z.eqb_neq. destruct (sr_dataRecords sr); [congruence|simpl; lia]. }
  assert ((wAddr <? startAddress sr) || (wAddr >? endAddress sr) = false) as ->.
  { apply orb_false_iff. rewrite Z.gtb_ltb, !Z.ltb_ge. lia. }
  split; [reflexivity|].
  rewrite SetBytes_loop_storeAll.
  replace (wAddr - startAddress sr + 0) with (wAddr - startAddress sr) by lia.
  destruct (storeAll (dataBytes sr) (wAddr - startAddress sr) wBytes)
    as [b out] eqn:Hs.
  simpl. split.
  - intros a ->.
    clear Hne Hin. revert Hs. generalize (dataBytes sr) (wAddr - startAddress sr).
    induction wBytes as [|w ws IH]; simpl; intros l off.
    + discriminate.
    + destruct (store l off w) eqn:E.
      * apply IH.
      * unfold store in E. destruct (_ && _); discriminate.
      * discriminate.
  - intros Hw Hover.
    destruct (storeAll_overflow wBytes (dataBytes sr) (wAddr - startAddress sr))
      as [b2 Hb2]; [exact Hw|lia|lia|].
    rewrite Hb2 in Hs. inversion Hs; subst b2 out.
    eexists. split; [reflexivity|]. simpl.
    split; [exact (storeAll_length _ _ _ _ _ Hb2)|].
    intros k Hk1 Hk2.
    assert (0 <= wAddr - startAddress sr) as Hoff by lia.
    rewrite (storeAll_lookup_lt _ _ _ _ _ Hoff Hb2 k Hk2).
    destruct (_ && _) eqn:E; [reflexivity|zbool; lia].
Qed.

(** Witness of C9: a write of three bytes at [0x14], the last address of
    the image of [file_gap], where two bytes fit. *)
Lemma SetBytes_no_upper_bound_check_witness :
  sr_dataRecords image_gap <> [] /\
  startAddress image_gap <= 20 <= endAddress image_gap /\
  SetBytes image_gap 20 [1; 2; 3]
  = SetBytes_loop image_gap (20 - startAddress image_gap) 0 [1; 2; 3] /\
  (forall a, snd (SetBytes image_gap 20 [1; 2; 3]) <> Err (ErrOutOfRange a)) /\
  ([1; 2; 3] <> [] ->
   Z.of_nat (length (Bytes image_gap))
     < 20 - startAddress image_gap + Z.of_nat (length [1; 2; 3]) ->
   exists sr',
     SetBytes image_gap 20 [1; 2; 3] = (sr', Panic IndexOutOfRange) /\
     length (Bytes sr') = length (Bytes image_gap) /\
     forall k : nat,
       20 - startAddress image_gap <= Z.of_nat k ->
       (k < length (Bytes image_gap))%nat ->
       Bytes sr' !! k
       = [1; 2; 3] !! Z.to_nat (Z.of_nat k - (20 - startAddress image_gap))).
Proof.
  assert (sr_dataRecords image_gap <> []) as Hne by discriminate.
  assert (startAddress image_gap <= 20 <= endAddress image_gap) as Hin
    by (vm_compute; split; discriminate).
  split; [exact Hne|]. split; [exact Hin|].
  exact (SetBytes_no_upper_bound_check image_gap 20 [1; 2; 3] Hne Hin).
Defined.

(** ** strconv.ParseUint on the fields of a record

    Every field of a record is at most eight characters long, so it cannot
    overflow 32 bits: [ParseUint] returns its value when all its characters
    are hexadecimal digits, and a syntax error otherwise. *)

Lemma digitVal_nonneg c d : digitVal c = Some d -> 0 <= d.
Proof.
  unfold digitVal.
  repeat match goal with
         | |- context [if ?b then _ else _] => destruct b eqn:?
         end;
    intros [= <-]; zbool; lia.
Qed.

Lemma ParseUint_loop_small s0 cs : forall n,
  0 <= n ->
  (n + 1) * 16 ^ Z.of_nat (String.length cs) <= 2 ^ 32 ->
  if allHex cs
  then exists v, ParseUint_loop s0 16 (2 ^ 60) (2 ^ 32 - 1) cs n = Ok v
                 /\ 0 <= v < 2 ^ 32
  else ParseUint_loop s0 16 (2 ^ 60) (2 ^ 32 - 1) cs n = Err (ErrSyntax s0).
Proof.
  induction cs as [|c cs IH]; intros n Hn Hb.
  - simpl in *. exists n. split; [reflexivity|lia].
  - cbn [allHex ParseUint_loop]. unfold hexDigit.
    destruct (digitVal c) as [d|] eqn:Hd; [|reflexivity].
    pose proof (digitVal_nonneg _ _ Hd) as Hd0.
    cbn [String.length] in Hb. rewrite Nat2Z.inj_succ, Z.pow_succ_r in Hb by lia.
    assert (0 < 16 ^ Z.of_nat (String.length cs)) as Hp
      by (apply Z.pow_pos_nonneg; lia).
    destruct (d <? 16) eqn:Hlt; zbool.
    + assert ((d >=? 16) = false) as -> by (rewrite Z.geb_leb; apply Z.leb_gt; lia).
      assert (n < 2 ^ 32) as Hn32 by nia.
      assert ((n >=? 2 ^ 60) = false) as -> by (rewrite Z.geb_leb; apply Z.leb_gt; lia).
      unfold u64. rewrite (Z.mod_small (n * 16)) by lia.
      rewrite (Z.mod_small (n * 16 + d)) by lia.
      assert (n * 16 + d + 1 <= 2 ^ 32) as Hn1 by nia.
      assert ((n * 16 + d <? n * 16) = false) as -> by (apply Z.ltb_ge; lia).
      assert ((n * 16 + d >? 2 ^ 32 - 1) = false) as ->
        by (rewrite Z.gtb_ltb; apply Z.ltb_ge; lia).
      cbn [orb andb]. apply IH; [lia|nia].
    + assert ((d >=? 16) = true) as -> by (rewrite Z.geb_leb; apply Z.leb_le; lia).
      reflexivity.
Qed.

Lemma ParseUint_small s :
  (String.length s <= 8)%nat ->
  match s with
  | EmptyString => ParseUint s 16 32 = Err (ErrSyntax s)
  | _ => if allHex s then exists v, ParseUint s 16 32 = Ok v /\ 0 <= v < 2 ^ 32
         else ParseUint s 16 32 = Err (ErrSyntax s)
  end.
Proof.
  intros Hlen. destruct s as [|c s]; [reflexivity|].
  unfold ParseUint.
  change ((2 ^ 64 - 1) / 16 + 1) with (2 ^ 60).
  apply ParseUint_loop_small; [lia|].
  rewrite Z.mul_1_l.
  change (2 ^ 32) with (16 ^ 8).
  apply Z.pow_le_mono_r; lia.
Qed.

(** No field of a record makes [ParseUint] return a range error. *)
Lemma ParseUint_small_cases s :
  (String.length s <= 8)%nat ->
  (exists v, ParseUint s 16 32 = Ok v /\ 0 <= v < 2 ^ 32)
  \/ ParseUint s 16 32 = Err (ErrSyntax s).
Proof.
  intros H. pose proof (ParseUint_small s H) as Hs.
  destruct s as [|c s]; [now right|].
  destruct (allHex (String c s)); [now left|now right].
Qed.

(** ** Fields of a line *)

Lemma explode_oneChar line : Forall oneChar (explode line).
Proof.
  induction line as [|c line IH]; simpl; constructor; [now exists c|exact IH].
Qed.

Lemma explode_length line : length (explode line) = String.length line.
Proof. induction line as [|c line IH]; simpl; congruence. Qed.

Lemma Join_oneChar_cons c l :
  Join (String c EmptyString :: l) "" = String c (Join l "").
Proof. unfold Join. destruct l; reflexivity. Qed.

Lemma Join_oneChar_length l :
  Forall oneChar l -> String.length (Join l "") = length l.
Proof.
  induction 1 as [|s l [c ->] _ IH]; [reflexivity|].
  rewrite Join_oneChar_cons. simpl. now rewrite IH.
Qed.

Lemma Join_oneChar_allHex l :
  Forall oneChar l -> Forall (fun s => allHex s = true) l ->
  allHex (Join l "") = true.
Proof.
  induction 1 as [|s l [c ->] _ IH]; intros Hh; [reflexivity|].
  inversion Hh as [|? ? Hc Hl]; subst.
  rewrite Join_oneChar_cons. simpl in *.
  rewrite andb_true_r in Hc. now rewrite Hc, IH.
Qed.

Lemma slice_Ok {A : Type} (sl : list A) lo hi s :
  slice sl lo hi = Ok s ->
  0 <= lo <= hi /\ hi <= Z.of_nat (length sl) /\
  s = take (Z.to_nat (hi - lo)) (drop (Z.to_nat lo) sl).
Proof.
  unfold slice. destruct (_ && _) eqn:E; [|discriminate].
  intros [= <-]. zbool. repeat split; lia.
Qed.

Lemma slice_short {A : Type} (sl : list A) lo hi :
  Z.of_nat (length sl) < hi -> slice sl lo hi = Panic SliceBounds.
Proof.
  intros H. unfold slice. destruct (_ && _) eqn:E; [|reflexivity].
  zbool. lia.
Qed.

Lemma slice_length {A : Type} (sl : list A) lo hi s :
  slice sl lo hi = Ok s -> Z.of_nat (length s) = hi - lo.
Proof.
  intros H. apply slice_Ok in H as (H1 & H2 & ->).
  rewrite length_take, length_drop. lia.
Qed.

Lemma field_cases sl lo hi :
  Forall oneChar sl -> hi - lo <= 8 ->
  (exists v, field sl lo hi = Ok v /\ 0 <= v < 2 ^ 32) \/ softFail (field sl lo hi).
Proof.
  intros Hsl Hw. unfold field, softFail, bind.
  destruct (slice sl lo hi) as [s| |] eqn:Hs.
  - pose proof (slice_length _ _ _ _ Hs) as Hlen.
    apply slice_Ok in Hs as (_ & _ & ->).
    destruct (ParseUint_small_cases
                (Join (take (Z.to_nat (hi - lo)) (drop (Z.to_nat lo) sl)) ""))
      as [Hv|He].
    + rewrite Join_oneChar_length by (apply Forall_take, Forall_drop, Hsl). lia.
    + now left.
    + right. right. eauto.
  - unfold slice in Hs. destruct (_ && _); discriminate.
  - right. left. unfold slice in Hs. destruct (_ && _); congruence.
Qed.

(** A field made of hexadecimal digits decodes, unless the line ends
    before the field does. *)
Lemma field_hex sl lo hi :
  Forall oneChar sl ->
  Forall (fun s => allHex s = true) (drop 4 sl) ->
  4 <= lo < hi -> hi - lo <= 8 ->
  (exists v, field sl lo hi = Ok v /\ 0 <= v < 2 ^ 32)
  \/ field sl lo hi = Panic SliceBounds.
Proof.
  intros Hsl Hhex Hlo Hw. unfold field, bind.
  destruct (slice sl lo hi) as [s| |] eqn:Hs.
  - pose proof (slice_length _ _ _ _ Hs) as Hlen.
    apply slice_Ok in Hs as (_ & _ & Hs).
    assert (Forall oneChar s) as H1
      by (rewrite Hs; apply Forall_take, Forall_drop, Hsl).
    assert (Forall (fun s => allHex s = true) s) as H2.
    { rewrite Hs. apply Forall_take.
      replace (Z.to_nat lo) with (4 + (Z.to_nat lo - 4))%nat by lia.
      rewrite <- drop_drop. now apply Forall_drop. }
    pose proof (ParseUint_small (Join s "")) as Hp.
    rewrite (Join_oneChar_length _ H1) in Hp.
    rewrite (Join_oneChar_allHex _ H1 H2) in Hp.
    destruct (Join s "") eqn:Hj.
    + apply (f_equal String.length) in Hj.
      rewrite (Join_oneChar_length _ H1) in Hj. simpl in Hj. lia.
    + left. apply Hp. lia.
  - unfold slice in Hs. destruct (_ && _); discriminate.
  - right. unfold slice in Hs. destruct (_ && _); congruence.
Qed.

Lemma field_outcome sl lo hi :
  Forall oneChar sl -> 4 <= lo < hi -> hi - lo <= 8 ->
  (exists v, field sl lo hi = Ok v /\ 0 <= v < 2 ^ 32)
  \/ stops sl (field sl lo hi).
Proof.
  intros Hsl Hlo Hw.
  destruct (field_cases sl lo hi Hsl Hw) as [Hv|Hsoft]; [now left|].
  right. split; [exact Hsoft|]. intros Hhex.
  destruct (field_hex sl lo hi Hsl Hhex Hlo Hw) as [(v & Hv & _)|Hp];
    [|exact Hp].
  destruct Hsoft as [Hp|[num He]]; congruence.
Qed.

Lemma stops_bind {A B : Type} sl (r : result A) (k : A -> result B) :
  stops sl r -> stops sl (bind r k).
Proof.
  intros [[Hp|[num He]] Hhex]; split.
  - left. now rewrite Hp.
  - intros H. now rewrite (Hhex H).
  - right. exists num. now rewrite He.
  - intros H. now rewrite (Hhex H).
Qed.

(** ** The field decoders on a line *)

Lemma getLengh_field sl : getLengh sl = (len <-- field sl 2 4 ;; Ok (u32 len)).
Proof. unfold getLengh, field, bind. now destruct (slice sl 2 4). Qed.

Lemma getDataLenAsStr_field sl :
  getDataLenAsStr sl = (len <-- field sl 2 4 ;; Ok (u64 (len * 2))).
Proof. unfold getDataLenAsStr, field, bind. now destruct (slice sl 2 4). Qed.

Lemma getAddress_field srectype sl :
  getAddress srectype sl =
  (addrLenAsStr <-- getAddrLenAsStr srectype ;;
   addr <-- field sl 4 (4 + addrLenAsStr) ;; Ok (u32 addr)).
Proof.
  unfold getAddress, field, bind.
  destruct (getAddrLenAsStr srectype) as [a| |]; try reflexivity.
  now destruct (slice sl 4 (4 + a)).
Qed.

Lemma getData_loop_field sl n i data :
  getData_loop sl (S n) i data =
  (b <-- field sl i (i + 2) ;; getData_loop sl n (i + 2) (data ++ [byte b])).
Proof. simpl. unfold field, bind. now destruct (slice sl i (i + 2)). Qed.

Lemma getChecksum_field srectype sl :
  getChecksum srectype sl =
  (dataLenAsStr <-- getDataLenAsStr sl ;;
   csum <-- field sl (2 + 2 + dataLenAsStr - 2) (2 + 2 + dataLenAsStr) ;;
   Ok (byte csum)).
Proof.
  unfold getChecksum, field, bind, TypeFieldStrLen, LengthFieldStrLen,
    CSumFieldStrLen.
  destruct (getDataLenAsStr sl) as [l| |]; try reflexivity.
  now destruct (slice sl (2 + 2 + l - 2) (2 + 2 + l)).
Qed.

Lemma decoded_addrLen srectype :
  decoded srectype = true ->
  exists a, getAddrLenAsStr srectype = Ok a /\ 4 <= a <= 8.
Proof.
  unfold decoded, isDataType, getAddrLenAsStr. intros H.
  destruct (String.eqb srectype "S0"); [exists 4; split; [reflexivity|lia]|].
  destruct (String.eqb srectype "S1"); [exists 4; split; [reflexivity|lia]|].
  destruct (String.eqb srectype "S2"); [exists 6; split; [reflexivity|lia]|].
  destruct (String.eqb srectype "S3"); [exists 8; split; [reflexivity|lia]|].
  discriminate.
Qed.

Lemma getLengh_dataLen sl n :
  Forall oneChar sl -> getLengh sl = Ok n ->
  getDataLenAsStr sl = Ok (2 * n) /\ 0 <= n < 2 ^ 32.
Proof.
  intros Hsl. rewrite getLengh_field, getDataLenAsStr_field.
  destruct (field_cases sl 2 4 Hsl) as [(v & Hv & Hb)|[Hp|[num He]]]; [lia| | |].
  - rewrite Hv. simpl. intros [= <-].
    rewrite u32_small by exact Hb. unfold u64.
    rewrite Z.mod_small by lia. split; [f_equal; lia|exact Hb].
  - rewrite Hp. discriminate.
  - rewrite He. discriminate.
Qed.

Lemma getAddress_outcome srectype sl :
  Forall oneChar sl -> decoded srectype = true ->
  (exists a, getAddress srectype sl = Ok a) \/ stops sl (getAddress srectype sl).
Proof.
  intros Hsl Ht. rewrite getAddress_field.
  destruct (decoded_addrLen _ Ht) as (a & -> & Ha). cbn [bind].
  destruct (field_outcome sl 4 (4 + a) Hsl) as [(v & Hv & _)|Hs]; [lia|lia| |].
  - left. rewrite Hv. simpl. eauto.
  - right. now apply stops_bind.
Qed.

Lemma getData_loop_outcome sl n : forall i data,
  Forall oneChar sl -> 4 <= i ->
  (exists d, getData_loop sl n i data = Ok d)
  \/ stops sl (getData_loop sl n i data).
Proof.
  induction n as [|n IH]; intros i data Hsl Hi.
  - left. simpl. eauto.
  - rewrite getData_loop_field.
    destruct (field_outcome sl i (i + 2) Hsl) as [(v & Hv & _)|Hs]; [lia|lia| |].
    + rewrite Hv. cbn [bind]. apply IH; [exact Hsl|lia].
    + right. now apply stops_bind.
Qed.

Lemma getData_outcome srectype sl n :
  Forall oneChar sl -> decoded srectype = true -> getLengh sl = Ok n ->
  (exists d, getData srectype sl = Ok d) \/ stops sl (getData srectype sl).
Proof.
  intros Hsl Ht Hn. unfold getData.
  destruct (decoded_addrLen _ Ht) as (a & -> & Ha). cbn [bind].
  destruct (getLengh_dataLen _ _ Hsl Hn) as [-> _]. cbn [bind].
  apply getData_loop_outcome; [exact Hsl|].
  unfold TypeFieldStrLen, LengthFieldStrLen. lia.
Qed.

(** On a line shorter than its length field declares, the checksum field
    lies past the end of the line. *)
Lemma getChecksum_short srectype sl n :
  Forall oneChar sl -> getLengh sl = Ok n ->
  Z.of_nat (length sl) < 4 + 2 * n ->
  getChecksum srectype sl = Panic SliceBounds.
Proof.
  intros Hsl Hn Hshort. rewrite getChecksum_field.
  destruct (getLengh_dataLen _ _ Hsl Hn) as [-> _]. cbn [bind].
  unfold field. rewrite slice_short by lia. reflexivity.
Qed.

Lemma getDataRecordFields_short rec srectype sl n :
  Forall oneChar sl -> decoded srectype = true -> getLengh sl = Ok n ->
  Z.of_nat (length sl) < 4 + 2 * n ->
  stops sl (snd (getDataRecordFields rec srectype sl)).
Proof.
  intros Hsl Ht Hn Hshort. unfold getDataRecordFields.
  rewrite Hn. cbn [assigned].
  destruct (getAddress_outcome srectype sl Hsl Ht) as [[a Ha]|[Hs Hh]].
  - rewrite Ha. cbn [assigned].
    destruct (getData_outcome srectype sl n Hsl Ht Hn) as [[d Hd]|[Hs Hh]].
    + rewrite Hd. cbn [assigned].
      rewrite (getChecksum_short srectype sl n Hsl Hn Hshort). simpl.
      split; [now left|reflexivity].
    + split.
      * destruct Hs as [Hp|[num He]]; [rewrite Hp|rewrite He]; simpl;
          [now left|right; eauto].
      * intros H. rewrite (Hh H). reflexivity.
  - split.
    + destruct Hs as [Hp|[num He]]; [rewrite Hp|rewrite He]; simpl;
        [now left|right; eauto].
    + intros H. rewrite (Hh H). reflexivity.
Qed.

Lemma getHeaderRecordFields_short rec sl n :
  Forall oneChar sl -> getLengh sl = Ok n ->
  Z.of_nat (length sl) < 4 + 2 * n ->
  stops sl (snd (getHeaderRecordFields rec sl)).
Proof.
  intros Hsl Hn Hshort. unfold getHeaderRecordFields.
  rewrite Hn. cbn [assigned].
  destruct (getData_outcome "S0" sl n Hsl eq_refl Hn) as [[d Hd]|[Hs Hh]].
  - rewrite Hd. cbn [assigned].
    rewrite (getChecksum_short "S0" sl n Hsl Hn Hshort). simpl.
    split; [now left|reflexivity].
  - split.
    + destruct Hs as [Hp|[num He]]; [rewrite Hp|rewrite He]; simpl;
        [now left|right; eauto].
    + intros H. rewrite (Hh H). reflexivity.
Qed.

(** ** Lines by their tag *)

Lemma slice_tag a b rest :
  slice (Split (String a (String b rest)) "") 0 2
  = Ok [String a EmptyString; String b EmptyString].
Proof.
  unfold slice. cbn [Split explode length].
  assert ((0 <=? 0) && (0 <=? 2)
          && (2 <=? Z.of_nat (S (S (length (explode rest))))) = true) as ->.
  { rewrite !andb_true_iff, !Z.leb_le. lia. }
  reflexivity.
Qed.

Lemma scanLines_app pre : forall srs post,
  scanLines srs (pre ++ post) =
  match scanLines srs pre with
  | (srs1, Ok _) => scanLines srs1 post
  | stopped => stopped
  end.
Proof.
  induction pre as [|l pre IH]; intros srs post; simpl; [reflexivity|].
  destruct (scanLine srs l) as [srs1 [[]| |]]; [apply IH|reflexivity..].
Qed.

(** C2, as stated, fails: the second line of [file_unknown_tag] carries
    the tag [XX], and [ParseFile] returns no error; it leaves the same
    [Srec] as for the file without that line. *)
Lemma unknown_tag_line_not_rejected :
  ParseFile NewSrec file_unknown_tag = (image_gap, Ok tt) /\
  ParseFile NewSrec file_gap = (image_gap, Ok tt) /\
  Legacy.ParseFile [] file_unknown_tag = Legacy.ParseFile [] file_gap /\
  snd (Legacy.ParseFile [] file_unknown_tag) = Ok tt.
Proof. repeat split; vm_compute; reflexivity. Qed.

(** C2, amended. A line whose 2-character tag is none of [S0], [S1], [S2],
    [S3] (so [S4]..[S9] and every unrecognized tag alike) is skipped without
    an error: the loop iteration leaves the [Srec] as it was, and
    [ParseFile] behaves as on the file without that line. The older
    revision of the loop skips such a line in the same way. *)
Theorem undecoded_tag_line_is_skipped srs st pre a b rest post :
  decoded (String a (String b EmptyString)) = false ->
  scanLine srs (String a (String b rest)) = (srs, Ok tt) /\
  ParseFile srs (pre ++ String a (String b rest) :: post)
  = ParseFile srs (pre ++ post) /\
  Legacy.scanLine st (String a (String b rest)) = (st, Ok tt).
Proof.
  intros Ht.
  assert (forall srs0, scanLine srs0 (String a (String b rest)) = (srs0, Ok tt))
    as Hskip.
  { intros srs0. unfold scanLine. rewrite slice_tag.
    change (Join [String a EmptyString; String b EmptyString] "")
      with (String a (String b EmptyString)).
    unfold decoded in Ht. apply orb_false_iff in Ht as [-> ->].
    now destruct (isFooterType _). }
  split; [apply Hskip|]. split.
  - unfold ParseFile. rewrite !scanLines_app.
    destruct (scanLines srs pre) as [srs1 [[]| |]]; try reflexivity.
    cbn [scanLines]. rewrite Hskip. reflexivity.
  - unfold Legacy.scanLine. rewrite slice_tag.
    change (Join [String a EmptyString; String b EmptyString] "")
      with (String a (String b EmptyString)).
    unfold decoded in Ht. apply orb_false_iff in Ht as [-> ->].
    now destruct (isFooterType _).
Qed.

(** Witness of C2, amended: the line [XX]. *)
Lemma undecoded_tag_line_is_skipped_witness :
  decoded "XX" = false /\
  scanLine image_gap "XX" = (image_gap, Ok tt) /\
  ParseFile NewSrec (["S1050010AABB00"] ++ "XX" :: ["S1050014CCDD00"])
  = ParseFile NewSrec (["S1050010AABB00"] ++ ["S1050014CCDD00"]) /\
  Legacy.scanLine (newBianryRecord, []) "XX" = ((newBianryRecord, []), Ok tt).
Proof.
  split; [reflexivity|].
  pose proof (undecoded_tag_line_is_skipped image_gap (newBianryRecord, [])
                [] "X" "X" "" [] eq_refl) as (H1 & _ & H3).
  pose proof (undecoded_tag_line_is_skipped NewSrec (newBianryRecord, [])
                ["S1050010AABB00"] "X" "X" "" ["S1050014CCDD00"] eq_refl)
    as (_ & H2 & _).
  split; [exact H1|]. split; [exact H2|exact H3].
Defined.

(** ** Truncated lines *)

(** C6, as stated, fails: the line [S1130000AA] declares [0x13] bytes and
    holds one data byte; [getData] on it, and with it the whole iteration
    of the scanning loop, stops with a slice-bounds panic and returns no
    error. On [S1050000AABB], which lacks only its checksum, [getData]
    returns the two data bytes and [getChecksum] panics. *)
Lemma truncated_line_panics :
  getLengh (Split "S1130000AA" "") = Ok 19 /\
  getData "S1" (Split "S1130000AA" "") = Panic SliceBounds /\
  snd (scanLine NewSrec "S1130000AA") = Panic SliceBounds /\
  getLengh (Split "S1050000AABB" "") = Ok 5 /\
  getData "S1" (Split "S1050000AABB" "") = Ok [170; 187] /\
  getChecksum "S1" (Split "S1050000AABB" "") = Panic SliceBounds /\
  snd (scanLine NewSrec "S1050000AABB") = Panic SliceBounds.
Proof. repeat split; vm_compute; reflexivity. Qed.

(** C6, amended. On a line with a decoded tag ([S0]..[S3]) that is shorter
    than its length field declares, field decoding never succeeds, but it
    does not return an error for the missing characters: [getChecksum]
    stops with a slice-bounds panic, and the iteration of the scanning
    loop on that line leaves the [Srec] as it was and ends in that panic
    (always so when the characters after the length field are hexadecimal
    digits) or in the syntax error of a non-hexadecimal character met
    before the end of the line. *)
Theorem truncated_line_stops srs a b rest n :
  decoded (String a (String b EmptyString)) = true ->
  getLengh (Split (String a (String b rest)) "") = Ok n ->
  Z.of_nat (String.length (String a (String b rest))) < 4 + 2 * n ->
  getChecksum (String a (String b EmptyString))
              (Split (String a (String b rest)) "") = Panic SliceBounds /\
  fst (scanLine srs (String a (String b rest))) = srs /\
  (snd (scanLine srs (String a (String b rest))) = Panic SliceBounds \/
   exists num,
     snd (scanLine srs (String a (String b rest))) = Err (ErrSyntax num)) /\
  (hexAfterLength (Split (String a (String b rest)) "") ->
   snd (scanLine srs (String a (String b rest))) = Panic SliceBounds).
Proof.
  intros Ht Hn Hshort.
  assert (Forall oneChar (Split (String a (String b rest)) "")) as Hsl
    by apply explode_oneChar.
  assert (Z.of_nat (length (Split (String a (String b rest)) "")) < 4 + 2 * n)
    as Hlen.
  { unfold Split. rewrite explode_length. exact Hshort. }
  split; [exact (getChecksum_short _ _ n Hsl Hn Hlen)|].
  assert (exists out,
            scanLine srs (String a (String b rest)) = (srs, out) /\
            stops (Split (String a (String b rest)) "") out)
    as (out & Hscan & Hstop).
  { assert (forall out : result unit,
              stops (Split (String a (String b rest)) "") out ->
              (match out with Ok _ => False | _ => True end)) as Hnot_ok.
    { intros [[]| |] [[Hp|[num He]] _]; try discriminate; exact I. }
    unfold scanLine. rewrite slice_tag.
    change (Join [String a EmptyString; String b EmptyString] "")
      with (String a (String b EmptyString)).
    destruct (String.eqb (String a (String b EmptyString)) "S0") eqn:E0.
    - pose proof (getHeaderRecordFields_short newHeaderRecord _ n Hsl Hn Hlen)
        as Hstop.
      destruct (getHeaderRecordFields newHeaderRecord
                  (Split (String a (String b rest)) "")) as [h out].
      cbn [snd] in Hstop. pose proof (Hnot_ok out Hstop) as Hok.
      exists out. destruct out as [[]| |]; [contradiction| |];
        (split; [reflexivity|exact Hstop]).
    - pose proof (getDataRecordFields_short newBianryRecord _ _ n Hsl Ht
                    Hn Hlen) as Hstop.
      unfold decoded in Ht. rewrite E0 in Ht. cbn [orb] in Ht. rewrite Ht.
      destruct (getDataRecordFields newBianryRecord
                  (String a (String b EmptyString))
                  (Split (String a (String b rest)) "")) as [r out].
      cbn [snd] in Hstop. pose proof (Hnot_ok out Hstop) as Hok.
      exists out. destruct out as [[]| |]; [contradiction| |];
        (split; [reflexivity|exact Hstop]). }
  rewrite Hscan. cbn [fst snd]. split; [reflexivity|exact Hstop].
Qed.

(** Witness of C6, amended: the line [S1130000AA]. *)
Lemma truncated_line_stops_witness :
  decoded "S1" = true /\
  getLengh (Split "S1130000AA" "") = Ok 19 /\
  Z.of_nat (String.length "S1130000AA") < 4 + 2 * 19 /\
  getChecksum "S1" (Split "S1130000AA" "") = Panic SliceBounds /\
  fst (scanLine NewSrec "S1130000AA") = NewSrec /\
  (snd (scanLine NewSrec "S1130000AA") = Panic SliceBounds \/
   exists num, snd (scanLine NewSrec "S1130000AA") = Err (ErrSyntax num)) /\
  (hexAfterLength (Split "S1130000AA" "") ->
   snd (scanLine NewSrec "S1130000AA") = Panic SliceBounds).
Proof.
  assert (getLengh (Split "S1130000AA" "") = Ok 19) as Hn
    by (vm_compute; reflexivity).
  assert (Z.of_nat (String.length "S1130000AA") < 4 + 2 * 19) as Hs
    by (vm_compute; reflexivity).
  split; [reflexivity|]. split; [exact Hn|]. split; [exact Hs|].
  exact (truncated_line_stops NewSrec "S" "1" "130000AA" 19 eq_refl Hn Hs).
Defined.

(** ** Failed parses *)

Lemma copyRecord_frame ds : forall sr ofst brcs i sr' out,
  copyRecord sr ofst brcs i ds = (sr', out) ->
  sr' = set_dataBytes sr (dataBytes sr').
Proof.
  induction ds as [|d ds IH]; intros sr ofst brcs i sr' out H; simpl in H.
  - inversion H; subst. now rewrite set_dataBytes_id.
  - destruct (_ || _).
    + inversion H; subst. now rewrite set_dataBytes_id.
    + destruct (store _ _ d) eqn:E.
      * apply IH in H. rewrite H at 1. reflexivity.
      * inversion H; subst. now rewrite set_dataBytes_id.
      * inversion H; subst. now rewrite set_dataBytes_id.
Qed.

Lemma copyRecords_frame recs : forall sr ofst sr' out,
  copyRecords sr ofst recs = (sr', out) ->
  sr' = set_dataBytes sr (dataBytes sr').
Proof.
  induction recs as [|r rest IH]; intros sr ofst sr' out H; simpl in H.
  - inversion H; subst. now rewrite set_dataBytes_id.
  - destruct (copyRecord sr ofst r 0 (dr_data r)) as [sr1 out1] eqn:E.
    apply copyRecord_frame in E.
    destruct out1 as [[]| |].
    + apply IH in H. rewrite H at 1. rewrite E. reflexivity.
    + inversion H; subst. exact E.
    + inversion H; subst. exact E.
Qed.

(** A scan that stops, stops at a line that does not decode, with the
    [Srec] as the lines before it left it. *)
Lemma scanLines_stopped lines : forall srs srs' out,
  scanLines srs lines = (srs', out) -> out <> Ok tt ->
  exists pre bad post,
    lines = pre ++ bad :: post /\
    scanLines srs pre = (srs', Ok tt) /\
    scanLine srs' bad = (srs', out).
Proof.
  induction lines as [|l rest IH]; intros srs srs' out H Hout; simpl in H.
  - inversion H; subst. congruence.
  - destruct (scanLine srs l) as [srs1 out1] eqn:E.
    destruct out1 as [[]| |].
    + destruct (IH _ _ _ H Hout) as (pre & bad & post & -> & Hpre & Hbad).
      exists (l :: pre), bad, post. repeat split; [|exact Hbad].
      simpl. now rewrite E.
    + inversion H; subst.
      pose proof (scanLine_stopped _ _ _ _ E Hout) as ->.
      exists [], l, rest. repeat split. exact E.
    + inversion H; subst.
      pose proof (scanLine_stopped _ _ _ _ E Hout) as ->.
      exists [], l, rest. repeat split. exact E.
Qed.

(** After the scan, [ParseFile] touches neither the header nor the list of
    data records, whatever its outcome. *)
Lemma ParseFile_after_scan srs lines srs1 srs' out :
  scanLines srs lines = (srs1, Ok tt) ->
  ParseFile srs lines = (srs', out) ->
  sr_headerRecord srs' = sr_headerRecord srs1 /\
  sr_dataRecords srs' = sr_dataRecords srs1.
Proof.
  intros Hscan. unfold ParseFile. rewrite Hscan.
  destruct (isDataRecordExists srs1) as [[]| |]; try (now intros [= <- <-]).
  destruct (isAddrAcending srs1) as [[]| |]; try (now intros [= <- <-]).
  destruct (getStartAddr srs1); try (now intros [= <- <-]).
  destruct (getEndAddr _); try (now intros [= <- <-]).
  destruct (getLastRecordDataLen _); try (now intros [= <- <-]).
  unfold makePaddedBytes. intros H. apply copyRecords_frame in H.
  rewrite H. split; reflexivity.
Qed.

(** C7, as stated, fails: a failed [ParseFile] leaves its partial work in
    the [Srec]. After the syntax error on the second line of
    [file_bad_hex] the first record is still there, which [SetBytes] shows:
    on the fresh [Srec] it reports that there is no data, on this one it
    runs into the empty buffer. After the ordering error on
    [file_late_descent] all three records are there. After the
    out-of-range error on [file_dip] the records, both addresses and a
    buffer with the fill byte and the first record's data are there, and
    [Bytes] returns that buffer. *)
Lemma failed_parse_leaves_state :
  ParseFile NewSrec file_bad_hex = (state_bad_hex, Err (ErrSyntax "00ZZ")) /\
  sr_dataRecords state_bad_hex = [mkDataRecord "S1" 5 16 [170; 187] 0] /\
  snd (SetBytes NewSrec 0 [1]) = Err ErrEmpty /\
  snd (SetBytes state_bad_hex 0 [1]) = Panic IndexOutOfRange /\
  ParseFile NewSrec file_late_descent
  = (state_late_descent, Err ErrNotAscending) /\
  length (sr_dataRecords state_late_descent) = 3%nat /\
  ParseFile NewSrec file_dip = (state_dip, Err (ErrOutOfRange 5)) /\
  length (sr_dataRecords state_dip) = 3%nat /\
  startAddress state_dip = 16 /\ endAddress state_dip = 32 /\
  Bytes state_dip
  = [170; 187; 255; 255; 255; 255; 255; 255; 255; 255; 255; 255; 255; 255;
     255; 255; 255; 255].
Proof. repeat split; vm_compute; reflexivity. Qed.

(** C7, amended. [ParseFile] is not atomic. When it does not succeed, the
    lines split into those scanned and those left unread, and the [Srec]
    keeps the header and all data records that the scan of the former
    stored, after the records it held before the call. If a line was left
    unread, the first such line is the one whose decoding failed, and the
    [Srec] is exactly as the lines before it left it; otherwise the failure
    came after the scan, with every record of the file kept. *)
Theorem ParseFile_failure_keeps_state srs lines srs' out :
  ParseFile srs lines = (srs', out) ->
  out <> Ok tt ->
  exists scanned unread srs1,
    lines = scanned ++ unread /\
    scanLines srs scanned = (srs1, Ok tt) /\
    sr_headerRecord srs' = sr_headerRecord srs1 /\
    sr_dataRecords srs' = sr_dataRecords srs1 /\
    length (sr_dataRecords srs')
    = (length (sr_dataRecords srs) + dataLines scanned)%nat /\
    (unread <> [] ->
     srs' = srs1 /\
     exists bad post, unread = bad :: post /\ scanLine srs1 bad = (srs1, out)).
Proof.
  intros H Hout.
  destruct (scanLines srs lines) as [srs1 out1] eqn:Hscan.
  assert (forall scanned s1,
            scanLines srs scanned = (s1, Ok tt) ->
            length (sr_dataRecords s1)
            = (length (sr_dataRecords srs) + dataLines scanned)%nat) as Hcount.
  { intros scanned s1 Hs.
    apply scanLines_frame in Hs as (_ & _ & _ & _ & recs & -> & _ & Hl).
    rewrite length_app, (Hl eq_refl). reflexivity. }
  destruct out1 as [[]| |].
  - destruct (ParseFile_after_scan _ _ _ _ _ Hscan H) as [Hh Hr].
    exists lines, [], srs1. rewrite app_nil_r.
    repeat split; try assumption.
    + rewrite Hr. now apply Hcount.
    + congruence.
    + congruence.
  - assert (srs' = srs1 /\ out = Err e) as [-> ->].
    { unfold ParseFile in H. rewrite Hscan in H. now inversion H. }
    destruct (scanLines_stopped _ _ _ _ Hscan Hout)
      as (pre & bad & post & -> & Hpre & Hbad).
    exists pre, (bad :: post), srs1.
    repeat split; try assumption; try (now apply Hcount). eauto.
  - assert (srs' = srs1 /\ out = Panic p) as [-> ->].
    { unfold ParseFile in H. rewrite Hscan in H. now inversion H. }
    destruct (scanLines_stopped _ _ _ _ Hscan Hout)
      as (pre & bad & post & -> & Hpre & Hbad).
    exists pre, (bad :: post), srs1.
    repeat split; try assumption; try (now apply Hcount). eauto.
Qed.

(** Witness of C7, amended: [file_bad_hex]. *)
Lemma ParseFile_failure_keeps_state_witness :
  ParseFile NewSrec file_bad_hex = (state_bad_hex, Err (ErrSyntax "00ZZ")) /\
  Err (ErrSyntax "00ZZ") <> Ok tt /\
  exists scanned unread srs1,
    file_bad_hex = scanned ++ unread /\
    scanLines NewSrec scanned = (srs1, Ok tt) /\
    sr_headerRecord state_bad_hex = sr_headerRecord srs1 /\
    sr_dataRecords state_bad_hex = sr_dataRecords srs1 /\
    length (sr_dataRecords state_bad_hex)
    = (length (sr_dataRecords NewSrec) + dataLines scanned)%nat /\
    (unread <> [] ->
     state_bad_hex = srs1 /\
     exists bad post,
       unread = bad :: post /\
       scanLine srs1 bad = (srs1, Err (ErrSyntax "00ZZ"))).
Proof.
  assert (ParseFile NewSrec file_bad_hex
          = (state_bad_hex, Err (ErrSyntax "00ZZ"))) as H
    by (vm_compute; reflexivity).
  assert (@Err unit (ErrSyntax "00ZZ") <> Ok tt) as Hout by discriminate.
  split; [exact H|]. split; [exact Hout|].
  exact (ParseFile_failure_keeps_state NewSrec file_bad_hex state_bad_hex
           (Err (ErrSyntax "00ZZ")) H Hout).
Defined.

(** ** The ordering check *)

Lemma index_lookup {A : Type} (a : list A) i x :
  0 <= i -> a !! Z.to_nat i = Some x -> index a i = Ok x.
Proof.
  intros Hi Hx. unfold index.
  pose proof (lookup_lt_Some _ _ _ Hx) as Hlt.
  assert ((0 <=? i) && (i <? Z.of_nat (length a)) = true) as ->.
  { rewrite andb_true_iff, Z.leb_le, Z.ltb_lt. lia. }
  now rewrite Hx.
Qed.

(** When the scan leaves a first record with data whose address lies above
    the address of the last record, and the ordering check lets the list
    through, [ParseFile] ends in the out-of-range error of
    [makePaddedBytes] for that first record. *)
Lemma ParseFile_first_out_of_range srs lines srs1 first rest lst d ds :
  scanLines srs lines = (srs1, Ok tt) ->
  sr_dataRecords srs1 = first :: rest ->
  last (first :: rest) = Some lst ->
  isAddrAcending srs1 = Ok tt ->
  dr_data first = d :: ds ->
  dr_address lst < dr_address first ->
  snd (ParseFile srs lines) = Err (ErrOutOfRange (dr_address first)).
Proof.
  intros Hscan Hrecs Hlast Hasc Hdata Hlt.
  unfold ParseFile. rewrite Hscan.
  unfold isDataRecordExists. rewrite Hrecs.
  assert ((Z.of_nat (length (first :: rest)) =? 0) = false) as ->
    by (apply Z.eqb_neq; simpl; lia).
  rewrite Hasc.
  unfold getStartAddr. rewrite Hrecs.
  rewrite (index_lookup (first :: rest) 0 first); [|lia|reflexivity].
  cbn [bind].
  unfold getEndAddr, getLastRecordDataLen.
  cbn [set_startAddress set_endAddress sr_dataRecords].
  rewrite Hrecs.
  rewrite last_lookup in Hlast.
  rewrite (index_lookup (first :: rest) _ lst).
  2: simpl; lia.
  2: { rewrite <- Hlast. f_equal. simpl. lia. }
  cbn [bind].
  unfold makePaddedBytes, set_dataBytes, set_endAddress, set_startAddress.
  cbn [sr_dataRecords startAddress endAddress dataBytes
       sr_headerRecord sr_footerRecord].
  rewrite Hrecs. cbn [copyRecords]. rewrite Hdata. cbn [copyRecord].
  cbn [startAddress endAddress].
  assert ((dr_address first <? dr_address first)
          || (dr_address first >? dr_address lst) = true) as ->.
  { apply orb_true_iff. right. rewrite Z.gtb_ltb. apply Z.ltb_lt. exact Hlt. }
  reflexivity.
Qed.

(** What the loop of [isAddrAcending] checks once it is past index 0: that
    the addresses from [prevAddr] on are non-decreasing. *)
Lemma isAddrAcending_loop_ascending recs : forall i prevAddr,
  isAddrAcending_loop (S i) prevAddr recs = Ok tt
  <-> ascending (prevAddr :: (dr_address <$> recs)) = true.
Proof.
  induction recs as [|r rest IH]; intros i prevAddr.
  - simpl. tauto.
  - cbn [isAddrAcending_loop Nat.eqb]. rewrite fmap_cons.
    change (ascending (prevAddr :: dr_address r :: (dr_address <$> rest)))
      with ((prevAddr <=? dr_address r)
            && ascending (dr_address r :: (dr_address <$> rest))).
    destruct (dr_address r <? prevAddr) eqn:E.
    + apply Z.ltb_lt in E.
      assert ((prevAddr <=? dr_address r) = false) as ->
        by (apply Z.leb_gt; lia).
      simpl. split; discriminate.
    + apply Z.ltb_ge in E.
      assert ((prevAddr <=? dr_address r) = true) as ->
        by (apply Z.leb_le; lia).
      simpl. apply IH.
Qed.

(** X6. With the first comparison missing, the ordering check accepts
    exactly the lists of records whose addresses are non-decreasing from
    the second record on. *)
Lemma isAddrAcending_checks_tail sr r0 rest :
  sr_dataRecords sr = r0 :: rest ->
  Forall (fun r => 0 <= dr_address r) rest ->
  isAddrAcending sr = Ok tt <-> ascending (dr_address <$> rest) = true.
Proof.
  intros Hrecs Hpos. unfold isAddrAcending. rewrite Hrecs.
  cbn [isAddrAcending_loop Nat.eqb].
  rewrite isAddrAcending_loop_ascending.
  destruct rest as [|r1 rest']; [simpl; tauto|].
  inversion Hpos as [|? ? H1 _]; subst.
  rewrite fmap_cons.
  change (ascending (0 :: dr_address r1 :: (dr_address <$> rest')))
    with ((0 <=? dr_address r1)
          && ascending (dr_address r1 :: (dr_address <$> rest'))).
  assert ((0 <=? dr_address r1) = true) as -> by (apply Z.leb_le; lia).
  simpl. tauto.
Qed.

(** C1. The ordering check never compares the first two records: the loop
    of [isAddrAcending] skips index 0 without recording its address, so the
    outcome of the check does not depend on the first record at all.
    [file_dip_nodata] has the addresses [0x10, 0x05, 0x20] and [ParseFile]
    returns no error on it. [file_descending] has the addresses
    [0x100, 0x050]; the check lets it through, and [ParseFile] ends in the
    out-of-range error of [makePaddedBytes] for address [0x100], after
    that function has sized the buffer from the wrapped difference
    [0x050 - 0x100]. A step back between later records is reported, as on
    [file_late_descent]. *)
Theorem isAddrAcending_ignores_first_record :
  (forall h r0 r0' rest f s e b,
     isAddrAcending (mkSrec h (r0 :: rest) f s e b)
     = isAddrAcending (mkSrec h (r0' :: rest) f s e b)) /\
  ParseFile NewSrec file_dip_nodata = (image_dip_nodata, Ok tt) /\
  dr_address <$> sr_dataRecords image_dip_nodata = [16; 5; 32] /\
  scanLines NewSrec file_descending = (scanned_descending, Ok tt) /\
  dr_address <$> sr_dataRecords scanned_descending = [256; 80] /\
  isAddrAcending scanned_descending = Ok tt /\
  snd (ParseFile NewSrec file_descending) = Err (ErrOutOfRange 256) /\
  dr_address <$> sr_dataRecords state_late_descent = [16; 32; 21] /\
  snd (ParseFile NewSrec file_late_descent) = Err ErrNotAscending.
Proof.
  split; [reflexivity|].
  split; [vm_compute; reflexivity|].
  split; [reflexivity|].
  assert (scanLines NewSrec file_descending = (scanned_descending, Ok tt))
    as Hscan by (vm_compute; reflexivity).
  split; [exact Hscan|].
  split; [reflexivity|].
  split; [reflexivity|].
  split.
  - exact (ParseFile_first_out_of_range NewSrec file_descending
             scanned_descending
             (mkDataRecord "S1" 5 256 [170; 187] 0)
             [mkDataRecord "S1" 5 80 [204; 221] 0]
             (mkDataRecord "S1" 5 80 [204; 221] 0)
             170 [187]
             Hscan eq_refl eq_refl eq_refl eq_refl ltac:(reflexivity)).
  - split; vm_compute; reflexivity.
Qed.

(** * Further properties of the package *)

(** ** The value of a decoded field *)

Lemma hexDigit_digitOf c : hexDigit c = true -> 0 <= digitOf c < 16.
Proof.
  unfold hexDigit, digitOf. destruct (digitVal c) as [d|] eqn:Hd; [|discriminate].
  intros H. apply Z.ltb_lt in H.
  pose proof (digitVal_nonneg _ _ Hd). lia.
Qed.

Lemma hexValue_bound s :
  allHex s = true -> 0 <= hexValue s < 16 ^ Z.of_nat (String.length s).
Proof.
  induction s as [|c s IH]; intros H.
  - simpl. lia.
  - cbn [allHex] in H. apply andb_true_iff in H as [Hc Hs].
    specialize (IH Hs). pose proof (hexDigit_digitOf _ Hc) as Hd.
    cbn [hexValue String.length].
    rewrite Nat2Z.inj_succ, Z.pow_succ_r by lia.
    nia.
Qed.

Lemma ParseUint_loop_value s0 cs : forall n,
  0 <= n ->
  (n + 1) * 16 ^ Z.of_nat (String.length cs) <= 2 ^ 32 ->
  allHex cs = true ->
  ParseUint_loop s0 16 (2 ^ 60) (2 ^ 32 - 1) cs n
  = Ok (n * 16 ^ Z.of_nat (String.length cs) + hexValue cs).
Proof.
  induction cs as [|c cs IH]; intros n Hn Hb Hhex.
  - simpl. f_equal. lia.
  - cbn [allHex] in Hhex. apply andb_true_iff in Hhex as [Hc Hs].
    pose proof (hexDigit_digitOf _ Hc) as Hd.
    unfold hexDigit in Hc. unfold digitOf in Hd.
    cbn [ParseUint_loop hexValue String.length]. unfold digitOf.
    destruct (digitVal c) as [d|]; [|discriminate].
    cbn [String.length] in Hb.
    rewrite Nat2Z.inj_succ, Z.pow_succ_r in Hb |- * by lia.
    assert (0 < 16 ^ Z.of_nat (String.length cs)) as Hp
      by (apply Z.pow_pos_nonneg; lia).
    assert ((d >=? 16) = false) as -> by (rewrite Z.geb_leb; apply Z.leb_gt; lia).
    assert (n < 2 ^ 32) as Hn32 by nia.
    assert ((n >=? 2 ^ 60) = false) as ->
      by (rewrite Z.geb_leb; apply Z.leb_gt; lia).
    unfold u64. rewrite (Z.mod_small (n * 16)) by lia.
    rewrite (Z.mod_small (n * 16 + d)) by lia.
    assert (n * 16 + d + 1 <= 2 ^ 32) as Hn1 by nia.
    assert ((n * 16 + d <? n * 16) = false) as -> by (apply Z.ltb_ge; lia).
    assert ((n * 16 + d >? 2 ^ 32 - 1) = false) as ->
      by (rewrite Z.gtb_ltb; apply Z.ltb_ge; lia).
    cbn [orb]. rewrite IH; [f_equal; lia|lia|nia|exact Hs].
Qed.

(** On a string of at most eight characters [ParseUint] succeeds exactly on
    the non-empty strings of hexadecimal digits, with their value. *)
Lemma ParseUint_value s v :
  (String.length s <= 8)%nat ->
  ParseUint s 16 32 = Ok v ->
  s <> EmptyString /\ allHex s = true /\ v = hexValue s.
Proof.
  intros Hlen Hv. pose proof (ParseUint_small s Hlen) as Hs.
  destruct s as [|c s]; [congruence|].
  destruct (allHex (String c s)) eqn:Hhex; [|congruence].
  split; [discriminate|]. split; [reflexivity|].
  unfold ParseUint in Hv.
  change ((2 ^ 64 - 1) / 16 + 1) with (2 ^ 60) in Hv.
  rewrite ParseUint_loop_value in Hv;
    [injection Hv as <-; now rewrite Z.mul_0_l|lia| |exact Hhex].
  rewrite Z.mul_1_l. change (2 ^ 32) with (16 ^ 8).
  apply Z.pow_le_mono_r; lia.
Qed.

Lemma cols_length sl lo hi :
  Forall oneChar sl -> 0 <= lo <= hi -> hi <= Z.of_nat (length sl) ->
  Z.of_nat (String.length (cols sl lo hi)) = hi - lo.
Proof.
  intros Hsl H1 H2. unfold cols.
  rewrite Join_oneChar_length by (apply Forall_take, Forall_drop, Hsl).
  rewrite length_take, length_drop. lia.
Qed.

(** A field that decodes lies inside the line, holds hexadecimal digits
    only, and decodes to their value. *)
Lemma field_value sl lo hi v :
  Forall oneChar sl -> hi - lo <= 8 ->
  field sl lo hi = Ok v ->
  0 <= lo /\ lo < hi /\ hi <= Z.of_nat (length sl) /\
  allHex (cols sl lo hi) = true /\
  v = hexValue (cols sl lo hi) /\
  0 <= v < 16 ^ (hi - lo).
Proof.
  intros Hsl Hw. unfold field, bind.
  destruct (slice sl lo hi) as [s| |] eqn:Hs; try discriminate.
  apply slice_Ok in Hs as (H1 & H2 & ->). fold (cols sl lo hi).
  intros Hv.
  pose proof (cols_length sl lo hi Hsl H1 H2) as Hlen.
  apply ParseUint_value in Hv as (Hne & Hhex & ->); [|lia].
  pose proof (hexValue_bound _ Hhex) as Hb. rewrite Hlen in Hb.
  assert (lo < hi).
  { destruct (cols sl lo hi); [congruence|]. simpl in Hlen. lia. }
  repeat split; try lia; assumption.
Qed.

Lemma getData_loop_values sl :
  Forall oneChar sl ->
  forall n i data d,
    getData_loop sl n i data = Ok d ->
    exists tail,
      d = data ++ tail /\ length tail = n /\
      Forall (fun b => 0 <= b <= 255) tail /\
      (n <> O -> 0 <= i /\ i + 2 * Z.of_nat n <= Z.of_nat (length sl)) /\
      forall j : nat,
        (j < n)%nat ->
        tail !! j
        = Some (hexValue (cols sl (i + 2 * Z.of_nat j) (i + 2 * Z.of_nat j + 2))).
Proof.
  intros Hsl. induction n as [|n IH]; intros i data d H.
  - simpl in H. injection H as <-. exists []. rewrite app_nil_r.
    split; [reflexivity|]. split; [reflexivity|]. split; [constructor|].
    split; [congruence|]. intros j Hj. lia.
  - rewrite getData_loop_field in H.
    destruct (field sl i (i + 2)) as [b| |] eqn:Hf; try discriminate.
    cbn [bind] in H.
    apply field_value in Hf as (H0 & _ & H2 & _ & Hb & Hr); [|exact Hsl|lia].
    replace (i + 2 - i) with 2 in Hr by lia. change (16 ^ 2) with 256 in Hr.
    apply IH in H as (tail & -> & Hlen & Hall & Hin & Hval).
    exists (byte b :: tail).
    assert (byte b = b) as Hbyte by (unfold byte; apply Z.mod_small; lia).
    split; [now rewrite <- app_assoc|].
    split; [simpl; now rewrite Hlen|].
    split; [constructor; [rewrite Hbyte; lia|exact Hall]|].
    split.
    + intros _. split; [lia|].
      destruct n as [|n']; [lia|]. specialize (Hin ltac:(discriminate)). lia.
    + intros [|j] Hj.
      * simpl. rewrite Hbyte, Hb. do 3 f_equal; lia.
      * simpl. rewrite Hval by lia. do 3 f_equal; lia.
Qed.

Lemma getAddrLenAsStr_Ok srectype a :
  getAddrLenAsStr srectype = Ok a ->
  (a = 4 \/ a = 6 \/ a = 8) /\ decoded srectype = true.
Proof.
  unfold getAddrLenAsStr, decoded, isDataType.
  destruct (String.eqb srectype "S0"); [intros [= <-]; auto|].
  destruct (String.eqb srectype "S1"); [intros [= <-]; auto|].
  destruct (String.eqb srectype "S2"); [intros [= <-]; auto|].
  destruct (String.eqb srectype "S3"); [intros [= <-]; auto|].
  discriminate.
Qed.

(** Everything that a successful decoding of a data record fixes. *)
Lemma getDataRecordFields_columns rec srectype line rec' :
  getDataRecordFields rec srectype (Split line "") = (rec', Ok tt) ->
  exists a n,
    getAddrLenAsStr srectype = Ok a /\ (a = 4 \/ a = 6 \/ a = 8) /\
    dr_srectype rec' = srectype /\
    dr_length rec' = n /\ 0 <= n <= 255 /\
    n = hexValue (cols (Split line "") 2 4) /\
    0 <= dr_address rec' < 16 ^ a /\
    dr_address rec' = hexValue (cols (Split line "") 4 (4 + a)) /\
    length (dr_data rec') = Z.to_nat (n - a / 2 - 1) /\
    Forall (fun b => 0 <= b <= 255) (dr_data rec') /\
    (forall j : nat,
       (j < length (dr_data rec'))%nat ->
       dr_data rec' !! j
       = Some (hexValue (cols (Split line "") (4 + a + 2 * Z.of_nat j)
                              (4 + a + 2 * Z.of_nat j + 2)))) /\
    0 <= dr_checksum rec' <= 255 /\
    dr_checksum rec' = hexValue (cols (Split line "") (2 + 2 * n) (4 + 2 * n)) /\
    4 + a <= Z.of_nat (String.length line) /\
    4 + 2 * n <= Z.of_nat (String.length line).
Proof.
  intros H.
  assert (Forall oneChar (Split line "")) as Hsl by apply explode_oneChar.
  assert (length (Split line "") = String.length line) as Hll
    by apply explode_length.
  apply getDataRecordFields_Ok in H as (n & addr & d & c & Hn & Ha & Hd & Hc & ->).
  cbn [dr_srectype dr_length dr_address dr_data dr_checksum].
  destruct (getLengh_dataLen _ _ Hsl Hn) as [Hdl Hn32].
  rewrite getLengh_field in Hn.
  destruct (field (Split line "") 2 4) as [v| |] eqn:Hf; try discriminate.
  cbn [bind] in Hn. injection Hn as Hn.
  apply field_value in Hf as (_ & _ & _ & _ & Hv & Hvr); [|exact Hsl|lia].
  change (16 ^ (4 - 2)) with 256 in Hvr.
  rewrite u32_small in Hn by lia. rewrite Hn in Hv, Hvr. clear Hn v.
  rewrite getAddress_field in Ha.
  destruct (getAddrLenAsStr srectype) as [a| |] eqn:Hal; try discriminate.
  destruct (getAddrLenAsStr_Ok _ _ Hal) as [Ha3 _].
  cbn [bind] in Ha.
  destruct (field (Split line "") 4 (4 + a)) as [v| |] eqn:Hf; try discriminate.
  cbn [bind] in Ha. injection Ha as Ha.
  apply field_value in Hf as (_ & _ & Hahi & _ & Hav & Har); [|exact Hsl|lia].
  replace (4 + a - 4) with a in Har by lia.
  assert (16 ^ a <= 2 ^ 32) as Hpow.
  { change (2 ^ 32) with (16 ^ 8). apply Z.pow_le_mono_r; lia. }
  rewrite u32_small in Ha by lia. rewrite Ha in Hav, Har. clear Ha v.
  unfold getData in Hd. rewrite Hal, Hdl in Hd. cbn [bind] in Hd.
  unfold TypeFieldStrLen, LengthFieldStrLen, CSumFieldStrLen in Hd.
  apply (getData_loop_values _ Hsl) in Hd as (tail & Hd & Htl & Hall & _ & Hval).
  rewrite app_nil_l in Hd. subst d.
  assert (trips2 (2 + 2 + a) (2 + 2 + (2 * n - 2)) = Z.to_nat (n - a / 2 - 1))
    as Htrips.
  { unfold trips2. f_equal.
    destruct Ha3 as [->|[->| ->]]; Z.div_mod_to_equations; lia. }
  rewrite getChecksum_field, Hdl in Hc. cbn [bind] in Hc.
  destruct (field (Split line "") (2 + 2 + 2 * n - 2) (2 + 2 + 2 * n))
    as [v| |] eqn:Hf; try discriminate.
  cbn [bind] in Hc. injection Hc as Hc.
  apply field_value in Hf as (_ & _ & Hchi & _ & Hcv & Hcr); [|exact Hsl|lia].
  replace (2 + 2 + 2 * n - (2 + 2 + 2 * n - 2)) with 2 in Hcr by lia.
  change (16 ^ 2) with 256 in Hcr.
  assert (byte v = v) as Hbyte by (unfold byte; apply Z.mod_small; lia).
  rewrite Hbyte in Hc. rewrite Hc in Hcv, Hcr. clear Hc Hbyte v.
  exists a, n.
  split; [reflexivity|]. split; [exact Ha3|]. split; [reflexivity|].
  split; [reflexivity|]. split; [lia|]. split; [exact Hv|].
  split; [lia|]. split; [exact Hav|]. split; [now rewrite Htl, Htrips|].
  split; [exact Hall|]. split.
  - intros j Hj. rewrite Hval by lia. do 3 f_equal; lia.
  - split; [lia|]. split.
    + rewrite Hcv. do 2 f_equal; lia.
    + rewrite <- Hll. lia.
Qed.

(** X1. The fields of a record that decodes are the values of fixed
    columns of its line, read as hexadecimal numbers: the length from
    columns 2..3, the address from the columns after it (4, 6 or 8 of them,
    by record type), data byte [j] from the two columns at
    [4 + width + 2j], and the checksum from the two columns at
    [2 + 2 * length]. *)
Theorem decoded_record_is_column_values rec srectype line rec' :
  getDataRecordFields rec srectype (Split line "") = (rec', Ok tt) ->
  dr_srectype rec' = srectype /\
  dr_length rec' = hexValue (cols (Split line "") 2 4) /\
  dr_address rec'
  = hexValue (cols (Split line "") 4 (4 + addrWidth srectype)) /\
  (forall j : nat,
     (j < length (dr_data rec'))%nat ->
     dr_data rec' !! j
     = Some (hexValue
               (cols (Split line "")
                     (4 + addrWidth srectype + 2 * Z.of_nat j)
                     (4 + addrWidth srectype + 2 * Z.of_nat j + 2)))) /\
  dr_checksum rec'
  = hexValue (cols (Split line "") (2 + 2 * dr_length rec')
                   (4 + 2 * dr_length rec')).
Proof.
  intros H.
  apply getDataRecordFields_columns in H
    as (a & n & Hal & _ & Ht & Hn & _ & Hnv & _ & Hav & _ & _ & Hd & _ & Hc & _).
  unfold addrWidth. rewrite Hal, Hn.
  split; [exact Ht|]. split; [exact Hnv|]. split; [exact Hav|].
  split; [exact Hd|exact Hc].
Qed.

(** Witness of X1: [line_example]. *)
Lemma decoded_record_is_column_values_witness :
  getDataRecordFields newBianryRecord "S1" (Split line_example "")
  = (record_example, Ok tt) /\
  dr_srectype record_example = "S1" /\
  dr_length record_example = hexValue (cols (Split line_example "") 2 4) /\
  dr_address record_example
  = hexValue (cols (Split line_example "") 4 (4 + addrWidth "S1")) /\
  (forall j : nat,
     (j < length (dr_data record_example))%nat ->
     dr_data record_example !! j
     = Some (hexValue
               (cols (Split line_example "")
                     (4 + addrWidth "S1" + 2 * Z.of_nat j)
                     (4 + addrWidth "S1" + 2 * Z.of_nat j + 2)))) /\
  dr_checksum record_example
  = hexValue (cols (Split line_example "") (2 + 2 * dr_length record_example)
                   (4 + 2 * dr_length record_example)).
Proof.
  assert (getDataRecordFields newBianryRecord "S1" (Split line_example "")
          = (record_example, Ok tt)) as H by (vm_compute; reflexivity).
  split; [exact H|].
  exact (decoded_record_is_column_values newBianryRecord "S1" line_example
           record_example H).
Defined.

(** X2. A record that decodes has a length of at most 255, an address
    below [16 ^ width], data bytes and a checksum of at most 255, and as
    many data bytes as its length field leaves after the address and the
    checksum: [length - width / 2 - 1], or none when the length field is
    smaller than that. So [length = width / 2 + len(data) + 1] holds exactly
    for the records whose length field is at least [width / 2 + 1], and
    the line is at least [4 + 2 * length] characters long. *)
Theorem decoded_record_ranges rec srectype line rec' :
  getDataRecordFields rec srectype (Split line "") = (rec', Ok tt) ->
  0 <= dr_length rec' <= 255 /\
  0 <= dr_address rec' < 16 ^ addrWidth srectype /\
  Forall (fun b => 0 <= b <= 255) (dr_data rec') /\
  0 <= dr_checksum rec' <= 255 /\
  length (dr_data rec')
  = Z.to_nat (dr_length rec' - addrWidth srectype / 2 - 1) /\
  (dr_length rec'
   = addrWidth srectype / 2 + Z.of_nat (length (dr_data rec')) + 1
   <-> addrWidth srectype / 2 + 1 <= dr_length rec') /\
  4 + 2 * dr_length rec' <= Z.of_nat (String.length line).
Proof.
  intros H.
  apply getDataRecordFields_columns in H
    as (a & n & Hal & Ha3 & _ & Hn & Hnr & _ & Har & _ & Hlen & Hall & _
        & Hcr & _ & _ & Hline).
  unfold addrWidth. rewrite Hal, Hn.
  split; [exact Hnr|]. split; [exact Har|]. split; [exact Hall|].
  split; [exact Hcr|]. split; [exact Hlen|]. split; [|exact Hline].
  rewrite Hlen. destruct Ha3 as [->|[->| ->]]; Z.div_mod_to_equations; lia.
Qed.

(** Witness of X2: [line_example]. *)
Lemma decoded_record_ranges_witness :
  getDataRecordFields newBianryRecord "S1" (Split line_example "")
  = (record_example, Ok tt) /\
  0 <= dr_length record_example <= 255 /\
  0 <= dr_address record_example < 16 ^ addrWidth "S1" /\
  Forall (fun b => 0 <= b <= 255) (dr_data record_example) /\
  0 <= dr_checksum record_example <= 255 /\
  length (dr_data record_example)
  = Z.to_nat (dr_length record_example - addrWidth "S1" / 2 - 1) /\
  (dr_length record_example
   = addrWidth "S1" / 2 + Z.of_nat (length (dr_data record_example)) + 1
   <-> addrWidth "S1" / 2 + 1 <= dr_length record_example) /\
  4 + 2 * dr_length record_example <= Z.of_nat (String.length line_example).
Proof.
  assert (getDataRecordFields newBianryRecord "S1" (Split line_example "")
          = (record_example, Ok tt)) as H by (vm_compute; reflexivity).
  split; [exact H|].
  exact (decoded_record_ranges newBianryRecord "S1" line_example
           record_example H).
Defined.

(** ** Lines that decode *)

Lemma ParseUint_loop_no_panic s0 base cutoff maxVal cs : forall n p,
  ParseUint_loop s0 base cutoff maxVal cs n <> Panic p.
Proof.
  induction cs as [|c cs IH]; intros n p; simpl; [discriminate|].
  destruct (digitVal c); [|discriminate].
  destruct (_ >=? base); [discriminate|].
  destruct (n >=? cutoff); [discriminate|].
  destruct (_ || _); [discriminate|apply IH].
Qed.

Lemma ParseUint_no_panic s base bitSize p : ParseUint s base bitSize <> Panic p.
Proof.
  unfold ParseUint. destruct s; [discriminate|apply ParseUint_loop_no_panic].
Qed.

Lemma slice_in {A : Type} (sl : list A) lo hi :
  0 <= lo <= hi -> hi <= Z.of_nat (length sl) ->
  slice sl lo hi = Ok (take (Z.to_nat (hi - lo)) (drop (Z.to_nat lo) sl)).
Proof.
  intros H1 H2. unfold slice.
  assert ((0 <=? lo) && (lo <=? hi) && (hi <=? Z.of_nat (length sl)) = true)
    as -> by (rewrite !andb_true_iff, !Z.leb_le; lia).
  reflexivity.
Qed.

(** A field of hexadecimal digits that lies inside the line decodes. *)
Lemma field_hex_in sl lo hi :
  Forall oneChar sl -> hexAfterLength sl ->
  4 <= lo < hi -> hi - lo <= 8 -> hi <= Z.of_nat (length sl) ->
  exists v, field sl lo hi = Ok v.
Proof.
  intros Hsl Hhex Hlo Hw Hhi.
  destruct (field_hex sl lo hi Hsl Hhex Hlo Hw) as [(v & Hv & _)|Hp]; [eauto|].
  unfold field in Hp. rewrite slice_in in Hp by lia. cbn [bind] in Hp.
  now apply ParseUint_no_panic in Hp.
Qed.

Lemma getData_loop_hex_in sl :
  Forall oneChar sl -> hexAfterLength sl ->
  forall n i data,
    4 <= i -> i + 2 * Z.of_nat n <= Z.of_nat (length sl) ->
    exists d, getData_loop sl n i data = Ok d.
Proof.
  intros Hsl Hhex. induction n as [|n IH]; intros i data Hi Hend.
  - simpl. eauto.
  - rewrite getData_loop_field.
    destruct (field_hex_in sl i (i + 2) Hsl Hhex) as [v ->]; [lia|lia|lia|].
    cbn [bind]. apply IH; lia.
Qed.

(** X3. A line decodes into a record whenever its length field decodes,
    all its characters after the length field are hexadecimal digits, and
    it is long enough to hold the address field and the [4 + 2 * length]
    characters that its length field declares. *)
Theorem wellformed_line_decodes rec srectype line n :
  decoded srectype = true ->
  getLengh (Split line "") = Ok n ->
  hexAfterLength (Split line "") ->
  4 + addrWidth srectype <= Z.of_nat (String.length line) ->
  4 + 2 * n <= Z.of_nat (String.length line) ->
  exists rec',
    getDataRecordFields rec srectype (Split line "") = (rec', Ok tt).
Proof.
  intros Ht Hn Hhex Haddr Hfull.
  assert (Forall oneChar (Split line "")) as Hsl by apply explode_oneChar.
  assert (length (Split line "") = String.length line) as Hll
    by apply explode_length.
  destruct (decoded_addrLen _ Ht) as (a & Hal & Ha).
  unfold addrWidth in Haddr. rewrite Hal in Haddr.
  destruct (getAddrLenAsStr_Ok _ _ Hal) as [Ha3 _].
  destruct (getLengh_dataLen _ _ Hsl Hn) as [Hdl Hn32].
  assert (exists addr, getAddress srectype (Split line "") = Ok addr)
    as [addr Haddr'].
  { rewrite getAddress_field, Hal. cbn [bind].
    destruct (field_hex_in (Split line "") 4 (4 + a) Hsl Hhex) as [v ->];
      [lia|lia|lia|].
    cbn [bind]. eauto. }
  assert (exists d, getData srectype (Split line "") = Ok d) as [d Hd].
  { unfold getData. rewrite Hal, Hdl. cbn [bind].
    unfold TypeFieldStrLen, LengthFieldStrLen, CSumFieldStrLen.
    apply getData_loop_hex_in; [exact Hsl|exact Hhex|lia|].
    unfold trips2.
    destruct Ha3 as [->|[->| ->]]; Z.div_mod_to_equations; lia. }
  assert (exists c, getChecksum srectype (Split line "") = Ok c) as [c Hc].
  { rewrite getChecksum_field, Hdl. cbn [bind].
    destruct (Z.eq_dec n 0) as [->|Hn0].
    - rewrite getLengh_field in Hn. change (2 + 2 + 2 * 0 - 2) with 2.
      change (2 + 2 + 2 * 0) with 4.
      destruct (field (Split line "") 2 4); try discriminate.
      cbn [bind]. eauto.
    - destruct (field_hex_in (Split line "") (2 + 2 + 2 * n - 2)
                  (2 + 2 + 2 * n) Hsl Hhex) as [v ->]; [lia|lia|lia|].
      cbn [bind]. eauto. }
  unfold getDataRecordFields. rewrite Hn, Haddr', Hd, Hc. simpl. eauto.
Qed.

(** Witness of X3: [line_example]. *)
Lemma wellformed_line_decodes_witness :
  decoded "S1" = true /\
  getLengh (Split line_example "") = Ok 19 /\
  hexAfterLength (Split line_example "") /\
  4 + addrWidth "S1" <= Z.of_nat (String.length line_example) /\
  4 + 2 * 19 <= Z.of_nat (String.length line_example) /\
  exists rec',
    getDataRecordFields newBianryRecord "S1" (Split line_example "")
    = (rec', Ok tt).
Proof.
  assert (getLengh (Split line_example "") = Ok 19) as Hn
    by (vm_compute; reflexivity).
  assert (hexAfterLength (Split line_example "")) as Hhex
    by (unfold hexAfterLength; vm_compute; repeat constructor).
  assert (4 + addrWidth "S1" <= Z.of_nat (String.length line_example)) as Ha
    by (vm_compute; discriminate).
  assert (4 + 2 * 19 <= Z.of_nat (String.length line_example)) as Hf
    by (vm_compute; discriminate).
  split; [reflexivity|]. split; [exact Hn|]. split; [exact Hhex|].
  split; [exact Ha|]. split; [exact Hf|].
  exact (wellformed_line_decodes newBianryRecord "S1" line_example 19
           eq_refl Hn Hhex Ha Hf).
Defined.

(** ** Text after the checksum *)

Lemma explode_app s1 s2 :
  explode (s1 ++ s2)%string = explode s1 ++ explode s2.
Proof. induction s1 as [|c s1 IH]; simpl; [reflexivity|now rewrite IH]. Qed.

Lemma slice_app {A : Type} (sl more : list A) lo hi s :
  slice sl lo hi = Ok s -> slice (sl ++ more) lo hi = Ok s.
Proof.
  intros H. apply slice_Ok in H as (H1 & H2 & ->).
  rewrite slice_in by (rewrite ?length_app; lia). f_equal.
  rewrite drop_app_le by lia.
  rewrite take_app_le by (rewrite length_drop; lia).
  reflexivity.
Qed.

Lemma field_app sl more lo hi v :
  field sl lo hi = Ok v -> field (sl ++ more) lo hi = Ok v.
Proof.
  unfold field, bind. destruct (slice sl lo hi) as [s| |] eqn:Hs; try discriminate.
  now rewrite (slice_app _ more _ _ _ Hs).
Qed.

Lemma getLengh_app sl more n :
  getLengh sl = Ok n -> getLengh (sl ++ more) = Ok n.
Proof.
  rewrite !getLengh_field.
  destruct (field sl 2 4) as [v| |] eqn:Hf; try discriminate.
  now rewrite (field_app _ more _ _ _ Hf).
Qed.

Lemma getDataLenAsStr_app sl more n :
  getDataLenAsStr sl = Ok n -> getDataLenAsStr (sl ++ more) = Ok n.
Proof.
  rewrite !getDataLenAsStr_field.
  destruct (field sl 2 4) as [v| |] eqn:Hf; try discriminate.
  now rewrite (field_app _ more _ _ _ Hf).
Qed.

Lemma getAddress_app srectype sl more a :
  getAddress srectype sl = Ok a -> getAddress srectype (sl ++ more) = Ok a.
Proof.
  rewrite !getAddress_field.
  destruct (getAddrLenAsStr srectype) as [w| |]; try discriminate. cbn [bind].
  destruct (field sl 4 (4 + w)) as [v| |] eqn:Hf; try discriminate.
  now rewrite (field_app _ more _ _ _ Hf).
Qed.

Lemma getData_loop_app sl more n : forall i data d,
  getData_loop sl n i data = Ok d ->
  getData_loop (sl ++ more) n i data = Ok d.
Proof.
  induction n as [|n IH]; intros i data d; [trivial|].
  rewrite !getData_loop_field.
  destruct (field sl i (i + 2)) as [v| |] eqn:Hf; try discriminate.
  rewrite (field_app _ more _ _ _ Hf). cbn [bind]. apply IH.
Qed.

Lemma getData_app srectype sl more d :
  getData srectype sl = Ok d -> getData srectype (sl ++ more) = Ok d.
Proof.
  unfold getData.
  destruct (getAddrLenAsStr srectype) as [w| |]; try discriminate. cbn [bind].
  destruct (getDataLenAsStr sl) as [l| |] eqn:Hl; try discriminate.
  rewrite (getDataLenAsStr_app _ more _ Hl). cbn [bind].
  apply getData_loop_app.
Qed.

Lemma getChecksum_app srectype sl more c :
  getChecksum srectype sl = Ok c -> getChecksum srectype (sl ++ more) = Ok c.
Proof.
  rewrite !getChecksum_field.
  destruct (getDataLenAsStr sl) as [l| |] eqn:Hl; try discriminate.
  rewrite (getDataLenAsStr_app _ more _ Hl). cbn [bind].
  destruct (field sl (2 + 2 + l - 2) (2 + 2 + l)) as [v| |] eqn:Hf;
    try discriminate.
  now rewrite (field_app _ more _ _ _ Hf).
Qed.

Lemma getDataRecordFields_app rec srectype sl more rec' :
  getDataRecordFields rec srectype sl = (rec', Ok tt) ->
  getDataRecordFields rec srectype (sl ++ more) = (rec', Ok tt).
Proof.
  intros H.
  apply getDataRecordFields_Ok in H as (n & a & d & c & Hn & Ha & Hd & Hc & ->).
  unfold getDataRecordFields.
  rewrite (getLengh_app _ more _ Hn), (getAddress_app _ _ more _ Ha),
    (getData_app _ _ more _ Hd), (getChecksum_app _ _ more _ Hc).
  reflexivity.
Qed.

Lemma getHeaderRecordFields_app rec sl more rec' :
  getHeaderRecordFields rec sl = (rec', Ok tt) ->
  getHeaderRecordFields rec (sl ++ more) = (rec', Ok tt).
Proof.
  unfold getHeaderRecordFields.
  destruct (getLengh sl) as [n| |] eqn:Hn; simpl; try discriminate.
  destruct (getData "S0" sl) as [d| |] eqn:Hd; simpl; try discriminate.
  destruct (getChecksum "S0" sl) as [c| |] eqn:Hc; simpl; try discriminate.
  rewrite (getLengh_app _ more _ Hn), (getData_app _ _ more _ Hd),
    (getChecksum_app _ _ more _ Hc).
  trivial.
Qed.

(** X4. A line that the scanning loop accepts is handled in the same way
    when any text is appended to it: characters after the checksum are
    never read. *)
Theorem accepted_line_ignores_appended_text srs line more :
  snd (scanLine srs line) = Ok tt ->
  scanLine srs (line ++ more)%string = scanLine srs line.
Proof.
  unfold scanLine, Split. rewrite explode_app.
  destruct (slice (explode line) 0 2) as [tag| |] eqn:Htag;
    [|discriminate|discriminate].
  rewrite (slice_app _ (explode more) _ _ _ Htag).
  destruct (String.eqb (Join tag "") "S0").
  - destruct (getHeaderRecordFields newHeaderRecord (explode line))
      as [h [[]| |]] eqn:Hh; [|discriminate|discriminate].
    intros _. now rewrite (getHeaderRecordFields_app _ _ (explode more) _ Hh).
  - destruct (isDataType (Join tag "")); [|reflexivity].
    destruct (getDataRecordFields newBianryRecord (Join tag "") (explode line))
      as [r [[]| |]] eqn:Hr; [|discriminate|discriminate].
    intros _. now rewrite (getDataRecordFields_app _ _ _ (explode more) _ Hr).
Qed.

(** Witness of X4: [line_example] followed by a comment. *)
Lemma accepted_line_ignores_appended_text_witness :
  snd (scanLine NewSrec line_example) = Ok tt /\
  scanLine NewSrec (line_example ++ " ; start of image")%string
  = scanLine NewSrec line_example.
Proof.
  assert (snd (scanLine NewSrec line_example) = Ok tt) as H
    by (vm_compute; reflexivity).
  split; [exact H|].
  exact (accepted_line_ignores_appended_text NewSrec line_example
           " ; start of image" H).
Defined.

(** Witness of X6: the records of [file_descending], with the addresses
    [0x100, 0x050]. *)
Lemma isAddrAcending_checks_tail_witness :
  sr_dataRecords scanned_descending
  = [mkDataRecord "S1" 5 256 [170; 187] 0; mkDataRecord "S1" 5 80 [204; 221] 0]
  /\
  Forall (fun r => 0 <= dr_address r) [mkDataRecord "S1" 5 80 [204; 221] 0] /\
  (isAddrAcending scanned_descending = Ok tt
   <-> ascending (dr_address <$> [mkDataRecord "S1" 5 80 [204; 221] 0]) = true).
Proof.
  assert (Forall (fun r => 0 <= dr_address r)
                 [mkDataRecord "S1" 5 80 [204; 221] 0]) as Hpos
    by (repeat constructor; discriminate).
  split; [reflexivity|]. split; [exact Hpos|].
  exact (isAddrAcending_checks_tail scanned_descending _ _ eq_refl Hpos).
Defined.

(** ** Files without data records *)

(** X5. A file without any line tagged [S1], [S2] or [S3] is never
    accepted: when all its lines scan, [ParseFile] returns the
    empty-input error, and leaves the buffer of a fresh [Srec] empty. *)
Theorem file_without_data_lines_is_rejected lines :
  dataLines lines = 0%nat ->
  snd (ParseFile NewSrec lines) <> Ok tt /\
  (snd (scanLines NewSrec lines) = Ok tt ->
   ParseFile NewSrec lines = (fst (scanLines NewSrec lines), Err ErrEmpty) /\
   Bytes (fst (ParseFile NewSrec lines)) = []).
Proof.
  intros Hnone. unfold ParseFile.
  destruct (scanLines NewSrec lines) as [srs1 out] eqn:Hscan.
  apply scanLines_frame in Hscan as (_ & _ & Hb & _ & recs & Hr & _ & Hn).
  destruct out as [[]| |].
  - specialize (Hn eq_refl). rewrite Hnone in Hn.
    destruct recs; [|discriminate]. simpl in Hr.
    unfold isDataRecordExists. rewrite Hr. simpl.
    split; [discriminate|]. intros _. split; [reflexivity|]. exact Hb.
  - split; [discriminate|]. discriminate.
  - split; [discriminate|]. discriminate.
Qed.

(** Witness of X5: [file_no_data]. *)
Lemma file_without_data_lines_is_rejected_witness :
  dataLines file_no_data = 0%nat /\
  snd (ParseFile NewSrec file_no_data) <> Ok tt /\
  (snd (scanLines NewSrec file_no_data) = Ok tt ->
   ParseFile NewSrec file_no_data
   = (fst (scanLines NewSrec file_no_data), Err ErrEmpty) /\
   Bytes (fst (ParseFile NewSrec file_no_data)) = []).
Proof.
  split; [reflexivity|].
  exact (file_without_data_lines_is_rejected file_no_data eq_refl).
Defined.

(** ** The records of a file *)

Lemma scanLine_records srs line srs' :
  scanLine srs line = (srs', Ok tt) ->
  sr_dataRecords srs' = sr_dataRecords srs ++ decodeDataLine line.
Proof.
  unfold scanLine, decodeDataLine.
  destruct (slice (Split line "") 0 2) as [tag| |]; [|discriminate..].
  destruct (String.eqb (Join tag "") "S0") eqn:E0.
  { apply String.eqb_eq in E0. rewrite E0. simpl.
    destruct (getHeaderRecordFields _ _) as [h [[]| |]]; simpl;
      intros [= <-]; simpl; now rewrite app_nil_r. }
  destruct (isDataType (Join tag "")).
  { destruct (getDataRecordFields _ _ _) as [r [[]| |]]; simpl;
      intros [= <-]; reflexivity. }
  destruct (isFooterType (Join tag "")); intros [= <-]; now rewrite app_nil_r.
Qed.

Lemma scanLines_records lines : forall srs srs',
  scanLines srs lines = (srs', Ok tt) ->
  sr_dataRecords srs'
  = sr_dataRecords srs ++ concat (decodeDataLine <$> lines).
Proof.
  induction lines as [|l rest IH]; intros srs srs' H; simpl in H.
  - injection H as <-. simpl. now rewrite app_nil_r.
  - destruct (scanLine srs l) as [srs1 [[]| |]] eqn:E; try discriminate.
    apply scanLine_records in E. apply IH in H.
    rewrite H, E, fmap_cons. simpl. now rewrite app_assoc.
Qed.

(** X7. After a successful [ParseFile] the [Srec] holds the records it
    held before, followed by one record for every line tagged [S1], [S2] or
    [S3], in file order, each the decoding of its line. *)
Theorem parsed_records_in_file_order srs lines sr :
  ParseFile srs lines = (sr, Ok tt) ->
  sr_dataRecords sr
  = sr_dataRecords srs ++ concat (decodeDataLine <$> lines) /\
  length (sr_dataRecords sr)
  = (length (sr_dataRecords srs) + dataLines lines)%nat.
Proof.
  intros H.
  apply ParseFile_Ok in H as (srs1 & first & lst & Hscan & _ & _ & _ & Hc).
  apply copyRecords_frame in Hc. rewrite Hc. simpl.
  split; [now apply scanLines_records|].
  apply scanLines_frame in Hscan as (_ & _ & _ & _ & recs & -> & _ & Hn).
  rewrite length_app, (Hn eq_refl). reflexivity.
Qed.

(** Witness of X7: [file_contiguous], with three record lines among
    five. *)
Lemma parsed_records_in_file_order_witness :
  ParseFile NewSrec file_contiguous = (image_contiguous, Ok tt) /\
  sr_dataRecords image_contiguous
  = sr_dataRecords NewSrec ++ concat (decodeDataLine <$> file_contiguous) /\
  length (sr_dataRecords image_contiguous)
  = (length (sr_dataRecords NewSrec) + dataLines file_contiguous)%nat.
Proof.
  assert (ParseFile NewSrec file_contiguous = (image_contiguous, Ok tt)) as H
    by (vm_compute; reflexivity).
  split; [exact H|].
  exact (parsed_records_in_file_order NewSrec file_contiguous
           image_contiguous H).
Defined.

(** ** When a scanned file assembles *)

Lemma copyRecords_fits recs : forall sr ofst,
  Forall (fitsIn sr ofst) recs ->
  exists sr', copyRecords sr ofst recs = (sr', Ok tt).
Proof.
  induction recs as [|r rest IH]; intros sr ofst Hfit; simpl; [eauto|].
  inversion Hfit as [|? ? Hr Hrest]; subst.
  assert (exists b,
            copyRecord sr ofst r 0 (dr_data r) = (set_dataBytes sr b, Ok tt) /\
            length b = length (dataBytes sr)) as (b & -> & Hlen).
  { destruct (dr_data r) as [|d ds] eqn:Hd.
    - exists (dataBytes sr). simpl. now rewrite set_dataBytes_id.
    - unfold fitsIn in Hr. rewrite Hd in Hr.
      destruct (Hr ltac:(discriminate)) as (Hin & Hoff & Hend).
      assert (outOfRange sr r = false) as Hout.
      { unfold outOfRange. apply orb_false_iff.
        rewrite Z.gtb_ltb, !Z.ltb_ge. lia. }
      rewrite copyRecord_storeAll by exact Hout.
      replace (dr_address r - ofst + 0) with (dr_address r - ofst) by lia.
      destruct (storeAll_fits (d :: ds) (dataBytes sr) (dr_address r - ofst))
        as [b Hb]; [lia|lia|].
      rewrite Hb. exists b. split; [reflexivity|].
      exact (storeAll_length _ _ _ _ _ Hb). }
  apply IH. eapply Forall_impl; [exact Hrest|].
  intros x Hx. unfold fitsIn in *. simpl. rewrite Hlen. exact Hx.
Qed.

(** Once the scan and both checks are passed, [ParseFile] is the copy of
    the records into the padded buffer. *)
Lemma ParseFile_assembles srs lines srs1 first lst :
  scanLines srs lines = (srs1, Ok tt) ->
  head (sr_dataRecords srs1) = Some first ->
  last (sr_dataRecords srs1) = Some lst ->
  isAddrAcending srs1 = Ok tt ->
  ParseFile srs lines
  = copyRecords (padded srs1 first lst) (dr_address first)
                (sr_dataRecords srs1).
Proof.
  intros Hscan Hhead Hlast Hasc.
  unfold ParseFile. rewrite Hscan.
  unfold isDataRecordExists.
  destruct (sr_dataRecords srs1) as [|r0 rest] eqn:Hrecs; [discriminate|].
  injection Hhead as ->.
  assert ((Z.of_nat (length (first :: rest)) =? 0) = false) as ->
    by (apply Z.eqb_neq; simpl; lia).
  rewrite Hasc.
  unfold getStartAddr. rewrite Hrecs.
  rewrite (index_lookup (first :: rest) 0 first); [|lia|reflexivity].
  cbn [bind].
  unfold getEndAddr, getLastRecordDataLen.
  cbn [set_startAddress set_endAddress sr_dataRecords].
  rewrite Hrecs.
  rewrite last_lookup in Hlast.
  rewrite (index_lookup (first :: rest) _ lst).
  2: simpl; lia.
  2: { rewrite <- Hlast. f_equal. simpl. lia. }
  cbn [bind].
  unfold makePaddedBytes, padded, paddedSize, set_dataBytes, set_endAddress,
    set_startAddress.
  cbn [sr_dataRecords startAddress endAddress dataBytes
       sr_headerRecord sr_footerRecord].
  rewrite Hrecs. reflexivity.
Qed.

(** X8. A file whose lines all scan is accepted exactly when it has a data
    record, its addresses pass the ordering check, and every record with
    data has its address between the addresses of the first and the last
    record and ends inside the padded buffer. In particular a record that
    reaches past the end of the last record makes [ParseFile] fail even when
    the addresses are in order. *)
Theorem scanned_file_is_accepted_iff srs lines srs1 :
  scanLines srs lines = (srs1, Ok tt) ->
  snd (ParseFile srs lines) = Ok tt
  <-> exists first lst,
        head (sr_dataRecords srs1) = Some first /\
        last (sr_dataRecords srs1) = Some lst /\
        isAddrAcending srs1 = Ok tt /\
        Forall (fitsIn (padded srs1 first lst) (dr_address first))
               (sr_dataRecords srs1).
Proof.
  intros Hscan. split.
  - intros Hok.
    destruct (ParseFile srs lines) as [sr out] eqn:Hp. simpl in Hok. subst out.
    apply ParseFile_Ok in Hp
      as (srs1' & first & lst & Hscan' & Hh & Hl & Hasc & Hc).
    rewrite Hscan in Hscan'. injection Hscan' as <-.
    exists first, lst. repeat split; try assumption.
    apply copyRecords_Ok in Hc as (_ & _ & Hfit & _). exact Hfit.
  - intros (first & lst & Hh & Hl & Hasc & Hfit).
    rewrite (ParseFile_assembles _ _ _ _ _ Hscan Hh Hl Hasc).
    destruct (copyRecords_fits _ _ _ Hfit) as [sr' ->]. reflexivity.
Qed.

(** Witness of X8: [file_contiguous]. *)
Lemma scanned_file_is_accepted_iff_witness :
  scanLines NewSrec file_contiguous = (scanned_contiguous, Ok tt) /\
  (snd (ParseFile NewSrec file_contiguous) = Ok tt
   <-> exists first lst,
         head (sr_dataRecords scanned_contiguous) = Some first /\
         last (sr_dataRecords scanned_contiguous) = Some lst /\
         isAddrAcending scanned_contiguous = Ok tt /\
         Forall (fitsIn (padded scanned_contiguous first lst)
                        (dr_address first))
                (sr_dataRecords scanned_contiguous)).
Proof.
  assert (scanLines NewSrec file_contiguous = (scanned_contiguous, Ok tt))
    as H by (vm_compute; reflexivity).
  split; [exact H|].
  exact (scanned_file_is_accepted_iff NewSrec file_contiguous
           scanned_contiguous H).
Defined.

(** ** The outcomes of a parse *)

Lemma softFail_reachable {A : Type} (r : result A) : softFail r -> reachable r.
Proof. intros [->|[num ->]]; exact I. Qed.

Lemma outcome_reachable {A : Type} (r : result A) :
  reachable r -> reachable (outcome r).
Proof. destruct r as [a|[]|]; trivial. Qed.

Lemma field_reachable sl lo hi :
  Forall oneChar sl -> hi - lo <= 8 -> reachable (field sl lo hi).
Proof.
  intros Hsl Hw.
  destruct (field_cases sl lo hi Hsl Hw) as [(v & -> & _)|Hs]; [exact I|].
  now apply softFail_reachable.
Qed.

Lemma bind_reachable {A B : Type} (r : result A) (k : A -> result B) :
  reachable r -> (forall a, r = Ok a -> reachable (k a)) ->
  reachable (bind r k).
Proof. destruct r as [a|e|p]; simpl; auto. Qed.

Lemma getLengh_reachable sl : Forall oneChar sl -> reachable (getLengh sl).
Proof.
  intros Hsl. rewrite getLengh_field.
  apply bind_reachable; [apply field_reachable; [exact Hsl|lia]|]. intros; exact I.
Qed.

Lemma getAddress_reachable srectype sl :
  Forall oneChar sl -> decoded srectype = true ->
  reachable (getAddress srectype sl).
Proof.
  intros Hsl Ht.
  destruct (getAddress_outcome srectype sl Hsl Ht) as [[a ->]|[Hs _]];
    [exact I|now apply softFail_reachable].
Qed.

Lemma getData_reachable srectype sl n :
  Forall oneChar sl -> decoded srectype = true -> getLengh sl = Ok n ->
  reachable (getData srectype sl).
Proof.
  intros Hsl Ht Hn.
  destruct (getData_outcome srectype sl n Hsl Ht Hn) as [[a ->]|[Hs _]];
    [exact I|now apply softFail_reachable].
Qed.

Lemma getChecksum_reachable srectype sl n :
  Forall oneChar sl -> getLengh sl = Ok n ->
  reachable (getChecksum srectype sl).
Proof.
  intros Hsl Hn. rewrite getChecksum_field.
  destruct (getLengh_dataLen _ _ Hsl Hn) as [-> _]. cbn [bind].
  apply bind_reachable; [apply field_reachable; [exact Hsl|lia]|]. intros; exact I.
Qed.

Lemma getDataRecordFields_reachable rec srectype sl :
  Forall oneChar sl -> decoded srectype = true ->
  reachable (snd (getDataRecordFields rec srectype sl)).
Proof.
  intros Hsl Ht. unfold getDataRecordFields.
  pose proof (getLengh_reachable sl Hsl) as H1.
  destruct (getLengh sl) as [n| |] eqn:Hn; cbn [assigned snd outcome];
    try exact H1.
  pose proof (getAddress_reachable srectype sl Hsl Ht) as H2.
  destruct (getAddress srectype sl) as [a| |]; cbn [assigned snd outcome];
    try exact H2.
  pose proof (getData_reachable srectype sl n Hsl Ht Hn) as H3.
  destruct (getData srectype sl) as [d| |]; cbn [assigned snd outcome];
    try exact H3.
  apply outcome_reachable. exact (getChecksum_reachable srectype sl n Hsl Hn).
Qed.

Lemma getHeaderRecordFields_reachable rec sl :
  Forall oneChar sl -> reachable (snd (getHeaderRecordFields rec sl)).
Proof.
  intros Hsl. unfold getHeaderRecordFields.
  pose proof (getLengh_reachable sl Hsl) as H1.
  destruct (getLengh sl) as [n| |] eqn:Hn; cbn [assigned snd outcome];
    try exact H1.
  pose proof (getData_reachable "S0" sl n Hsl eq_refl Hn) as H3.
  destruct (getData "S0" sl) as [d| |]; cbn [assigned snd outcome];
    try exact H3.
  apply outcome_reachable. exact (getChecksum_reachable "S0" sl n Hsl Hn).
Qed.

Lemma scanLine_reachable srs line : reachable (snd (scanLine srs line)).
Proof.
  assert (Forall oneChar (Split line "")) as Hsl by apply explode_oneChar.
  unfold scanLine.
  destruct (slice (Split line "") 0 2) as [tag| |] eqn:Htag.
  - destruct (String.eqb (Join tag "") "S0") eqn:E0.
    + pose proof (getHeaderRecordFields_reachable newHeaderRecord _ Hsl) as H.
      destruct (getHeaderRecordFields newHeaderRecord (Split line ""))
        as [h [[]|e|p]]; exact H.
    + destruct (isDataType (Join tag "")) eqn:E1.
      * assert (decoded (Join tag "") = true) as Hdec
          by (unfold decoded; rewrite E1; apply orb_true_r).
        pose proof (getDataRecordFields_reachable newBianryRecord _ _ Hsl Hdec)
          as H.
        destruct (getDataRecordFields newBianryRecord (Join tag "")
                    (Split line "")) as [r [[]|e|p]]; exact H.
      * destruct (isFooterType (Join tag "")); exact I.
  - unfold slice in Htag. destruct (_ && _); discriminate.
  - exact I.
Qed.

Lemma scanLines_reachable lines : forall srs,
  reachable (snd (scanLines srs lines)).
Proof.
  induction lines as [|l rest IH]; intros srs; simpl; [exact I|].
  pose proof (scanLine_reachable srs l) as H.
  destruct (scanLine srs l) as [srs1 [[]| |]]; [apply IH|exact H|exact H].
Qed.

Lemma isAddrAcending_loop_reachable recs : forall i prevAddr,
  reachable (isAddrAcending_loop i prevAddr recs).
Proof.
  induction recs as [|r rest IH]; intros i prevAddr; simpl; [exact I|].
  destruct (Nat.eqb i 0); [apply IH|].
  destruct (_ <? _); [exact I|apply IH].
Qed.

Lemma copyRecord_reachable ds : forall sr ofst brcs i,
  reachable (snd (copyRecord sr ofst brcs i ds)).
Proof.
  induction ds as [|d ds IH]; intros sr ofst brcs i; simpl; [exact I|].
  destruct (_ || _); [exact I|].
  destruct (store _ _ d) eqn:E; [apply IH| |exact I].
  unfold store in E. destruct (_ && _); discriminate.
Qed.

Lemma copyRecords_reachable recs : forall sr ofst,
  reachable (snd (copyRecords sr ofst recs)).
Proof.
  induction recs as [|r rest IH]; intros sr ofst; simpl; [exact I|].
  pose proof (copyRecord_reachable (dr_data r) sr ofst r 0) as H.
  destruct (copyRecord sr ofst r 0 (dr_data r)) as [sr1 [[]| |]];
    [apply IH|exact H|exact H].
Qed.

Lemma index_reachable {A : Type} (a : list A) i : reachable (index a i).
Proof.
  unfold index. destruct (_ && _); [|exact I].
  destruct (a !! Z.to_nat i); exact I.
Qed.

Lemma getter_reachable {A B : Type} (r : result A) (f : A -> B) :
  reachable r -> reachable (x <-- r ;; Ok (f x)).
Proof. destruct r; trivial. Qed.

(** X9. Whatever the file and the [Srec], [ParseFile] never returns the
    range error of [strconv.ParseUint] (no field is wide enough to overflow
    32 bits) and never the "is not srectype" error of [getAddrLenAsStr]
    (the function is only called with the tags it knows). *)
Theorem ParseFile_unreachable_errors srs lines :
  (forall num, snd (ParseFile srs lines) <> Err (ErrRange num)) /\
  (forall srectype, snd (ParseFile srs lines) <> Err (ErrNotSrectype srectype)).
Proof.
  assert (reachable (snd (ParseFile srs lines))) as H.
  { unfold ParseFile.
    pose proof (scanLines_reachable lines srs) as Hs.
    destruct (scanLines srs lines) as [srs1 [[]| |]]; [|exact Hs|exact Hs].
    unfold isDataRecordExists. destruct (_ =? 0); [exact I|].
    pose proof (isAddrAcending_loop_reachable (sr_dataRecords srs1) 0 0) as Ha.
    unfold isAddrAcending.
    destruct (isAddrAcending_loop 0 0 (sr_dataRecords srs1)) as [[]| |];
      [|exact Ha|exact Ha].
    pose proof (getter_reachable (index (sr_dataRecords srs1) 0) dr_address
                  (index_reachable _ _)) as H1.
    unfold getStartAddr.
    destruct (bind (index (sr_dataRecords srs1) 0) _) as [a| |];
      [|exact H1|exact H1].
    set (srs2 := set_startAddress srs1 a).
    pose proof (getter_reachable
                  (index (sr_dataRecords srs2)
                         (Z.of_nat (length (sr_dataRecords srs2)) - 1))
                  dr_address (index_reachable _ _)) as H2.
    unfold getEndAddr.
    destruct (bind (index (sr_dataRecords srs2) _) _) as [b| |];
      [|exact H2|exact H2].
    set (srs3 := set_endAddress srs2 b).
    pose proof (getter_reachable
                  (index (sr_dataRecords srs3)
                         (Z.of_nat (length (sr_dataRecords srs3)) - 1))
                  (fun r => u32 (Z.of_nat (length (dr_data r))))
                  (index_reachable _ _)) as H3.
    unfold getLastRecordDataLen.
    destruct (bind (index (sr_dataRecords srs3) _) _) as [l| |];
      [|exact H3|exact H3].
    unfold makePaddedBytes. apply copyRecords_reachable. }
  split; intros x Hx; rewrite Hx in H; exact H.
Qed.

(** ** Records that reach past the last record *)

Lemma copyRecords_app l1 : forall sr ofst l2,
  copyRecords sr ofst (l1 ++ l2) =
  match copyRecords sr ofst l1 with
  | (sr', Ok _) => copyRecords sr' ofst l2
  | stopped => stopped
  end.
Proof.
  induction l1 as [|r l1 IH]; intros sr ofst l2; simpl; [reflexivity|].
  destruct (copyRecord sr ofst r 0 (dr_data r)) as [sr1 [[]| |]];
    [apply IH|reflexivity..].
Qed.

(** X10. The size of the buffer comes from the last record alone. When a
    record with data starts inside the address range but ends past the
    buffer, and the records before it fit, [ParseFile] stops with an
    index-out-of-range panic, in order though the addresses are. *)
Theorem overhanging_record_panics srs lines srs1 first lst pre r post :
  scanLines srs lines = (srs1, Ok tt) ->
  head (sr_dataRecords srs1) = Some first ->
  last (sr_dataRecords srs1) = Some lst ->
  isAddrAcending srs1 = Ok tt ->
  sr_dataRecords srs1 = pre ++ r :: post ->
  Forall (fitsIn (padded srs1 first lst) (dr_address first)) pre ->
  dr_address first <= dr_address r <= dr_address lst ->
  dr_data r <> [] ->
  Z.of_nat (length (dataBytes (padded srs1 first lst)))
    < dr_address r - dr_address first + Z.of_nat (length (dr_data r)) ->
  snd (ParseFile srs lines) = Panic IndexOutOfRange.
Proof.
  intros Hscan Hh Hl Hasc Hrecs Hpre Hin Hdata Hover.
  rewrite (ParseFile_assembles _ _ _ _ _ Hscan Hh Hl Hasc).
  rewrite Hrecs, copyRecords_app.
  destruct (copyRecords_fits _ _ _ Hpre) as [sr' Hc]. rewrite Hc.
  apply copyRecords_Ok in Hc as (Hsr & Hlen & _ & _).
  cbn [copyRecords].
  assert (outOfRange sr' r = false) as Hout.
  { rewrite Hsr. unfold outOfRange. simpl. apply orb_false_iff.
    rewrite Z.gtb_ltb, !Z.ltb_ge. lia. }
  rewrite copyRecord_storeAll by exact Hout.
  replace (dr_address r - dr_address first + 0)
    with (dr_address r - dr_address first) by lia.
  destruct (storeAll_overflow (dr_data r) (dataBytes sr')
              (dr_address r - dr_address first)) as [b Hb];
    [exact Hdata|lia|rewrite Hlen; exact Hover|].
  rewrite Hb. reflexivity.
Qed.

(** Witness of X10: [file_overhang], whose first record holds five bytes
    in a buffer of three. *)
Lemma overhanging_record_panics_witness :
  scanLines NewSrec file_overhang = (scanned_overhang, Ok tt) /\
  head (sr_dataRecords scanned_overhang)
  = Some (mkDataRecord "S1" 8 0 [1; 2; 3; 4; 5] 0) /\
  last (sr_dataRecords scanned_overhang)
  = Some (mkDataRecord "S1" 4 2 [6] 0) /\
  isAddrAcending scanned_overhang = Ok tt /\
  sr_dataRecords scanned_overhang
  = [] ++ mkDataRecord "S1" 8 0 [1; 2; 3; 4; 5] 0
       :: [mkDataRecord "S1" 4 2 [6] 0] /\
  Forall (fitsIn (padded scanned_overhang
                    (mkDataRecord "S1" 8 0 [1; 2; 3; 4; 5] 0)
                    (mkDataRecord "S1" 4 2 [6] 0)) 0) [] /\
  0 <= 0 <= 2 /\
  [1; 2; 3; 4; 5] <> [] /\
  Z.of_nat (length (dataBytes (padded scanned_overhang
                                 (mkDataRecord "S1" 8 0 [1; 2; 3; 4; 5] 0)
                                 (mkDataRecord "S1" 4 2 [6] 0))))
    < 0 - 0 + Z.of_nat (length [1; 2; 3; 4; 5]) /\
  snd (ParseFile NewSrec file_overhang) = Panic IndexOutOfRange.
Proof.
  assert (scanLines NewSrec file_overhang = (scanned_overhang, Ok tt)) as H
    by (vm_compute; reflexivity).
  assert (Forall (fitsIn (padded scanned_overhang
                    (mkDataRecord "S1" 8 0 [1; 2; 3; 4; 5] 0)
                    (mkDataRecord "S1" 4 2 [6] 0)) 0) []) as Hpre
    by constructor.
  assert (0 <= 0 <= 2) as Hin by lia.
  assert ([1; 2; 3; 4; 5] <> []) as Hd by discriminate.
  assert (Z.of_nat (length (dataBytes (padded scanned_overhang
                                 (mkDataRecord "S1" 8 0 [1; 2; 3; 4; 5] 0)
                                 (mkDataRecord "S1" 4 2 [6] 0))))
          < 0 - 0 + Z.of_nat (length [1; 2; 3; 4; 5])) as Hov
    by (vm_compute; reflexivity).
  split; [exact H|]. split; [reflexivity|]. split; [reflexivity|].
  split; [reflexivity|]. split; [reflexivity|]. split; [exact Hpre|].
  split; [exact Hin|]. split; [exact Hd|]. split; [exact Hov|].
  exact (overhanging_record_panics NewSrec file_overhang scanned_overhang
           (mkDataRecord "S1" 8 0 [1; 2; 3; 4; 5] 0)
           (mkDataRecord "S1" 4 2 [6] 0)
           [] (mkDataRecord "S1" 8 0 [1; 2; 3; 4; 5] 0)
           [mkDataRecord "S1" 4 2 [6] 0]
           H eq_refl eq_refl eq_refl eq_refl Hpre Hin Hd Hov).
Defined.

(** ** Files without gaps *)

Lemma allData_cons r rest : allData (r :: rest) = dr_data r ++ allData rest.
Proof. reflexivity. Qed.

Lemma contiguous_bounds rest : forall r lst,
  contiguous (r :: rest) ->
  last (r :: rest) = Some lst ->
  dr_address lst + Z.of_nat (length (dr_data lst))
  = dr_address r + Z.of_nat (length (allData (r :: rest))) /\
  Forall (fun x =>
            dr_address r <= dr_address x <= dr_address lst /\
            dr_address x + Z.of_nat (length (dr_data x))
            <= dr_address r + Z.of_nat (length (allData (r :: rest))))
         (r :: rest).
Proof.
  induction rest as [|r' rest IH]; intros r lst Hc Hl.
  - simpl in Hl. injection Hl as <-.
    rewrite allData_cons. unfold allData at 1 2. simpl.
    rewrite app_nil_r. split; [lia|]. constructor; [lia|constructor].
  - destruct Hc as [Hnext Hc]. rewrite last_cons_cons in Hl.
    destruct (IH r' lst Hc Hl) as [Hspan Hall].
    rewrite (allData_cons r), length_app.
    split; [lia|].
    assert (dr_address r' <= dr_address lst) as Hle.
    { inversion Hall as [|? ? [? ?] _]; subst. lia. }
    constructor; [lia|].
    eapply Forall_impl; [exact Hall|]. simpl. intros x Hx. lia.
Qed.

Lemma contiguous_ascending recs :
  contiguous recs -> ascending (dr_address <$> recs) = true.
Proof.
  induction recs as [|r [|r' rest] IH]; intros Hc; [reflexivity..|].
  destruct Hc as [Hnext Hc]. specialize (IH Hc).
  rewrite !fmap_cons in *.
  change (ascending (dr_address r :: dr_address r' :: (dr_address <$> rest)))
    with ((dr_address r <=? dr_address r')
          && ascending (dr_address r' :: (dr_address <$> rest))).
  rewrite IH, andb_true_r. apply Z.leb_le. lia.
Qed.

Lemma image_of_contiguous ofst k rest : forall r old,
  contiguous (r :: rest) ->
  image ofst (r :: rest) k old =
  if (dr_address r - ofst <=? k)
     && (k <? dr_address r - ofst + Z.of_nat (length (allData (r :: rest))))
  then allData (r :: rest) !! Z.to_nat (k - (dr_address r - ofst))
  else old.
Proof.
  induction rest as [|r' rest IH]; intros r old Hc.
  - cbn [image]. unfold covers, byteAt. rewrite allData_cons.
    unfold allData at 1 2. simpl concat. rewrite !app_nil_r. reflexivity.
  - destruct Hc as [Hnext Hc].
    change (image ofst (r :: r' :: rest) k old)
      with (image ofst (r' :: rest) k
                  (if covers ofst r k then byteAt ofst r k else old)).
    rewrite (IH r' _ Hc). rewrite (allData_cons r), length_app.
    unfold covers, byteAt.
    repeat match goal with
           | |- context [if ?b then _ else _] => destruct b eqn:?
           end;
      zbool; try lia; try reflexivity;
      first [ rewrite lookup_app_r by lia; f_equal; lia
            | rewrite lookup_app_l by lia; reflexivity ].
Qed.

Lemma paddedSize_exact first lst :
  0 <= dr_address first <= dr_address lst ->
  dr_address lst - dr_address first + Z.of_nat (length (dr_data lst)) < 2 ^ 32 ->
  paddedSize first lst
  = dr_address lst - dr_address first + Z.of_nat (length (dr_data lst)).
Proof.
  intros H1 H2. unfold paddedSize.
  rewrite (u32_small (dr_address lst - dr_address first)) by lia.
  rewrite (u32_small (Z.of_nat _)) by lia.
  apply u32_small. lia.
Qed.

(** X11. A file whose lines all scan and whose data records follow each
    other without gap or overlap, with less than [2 ^ 32] data bytes in
    all, is accepted by [ParseFile] on a fresh [Srec]; the image starts at
    the address of the first record and [Bytes] returns exactly the data
    bytes of the records, in file order, with no fill byte. *)
Theorem contiguous_file_assembles_to_its_data lines srs1 first :
  scanLines NewSrec lines = (srs1, Ok tt) ->
  head (sr_dataRecords srs1) = Some first ->
  contiguous (sr_dataRecords srs1) ->
  Z.of_nat (length (allData (sr_dataRecords srs1))) < 2 ^ 32 ->
  exists sr,
    ParseFile NewSrec lines = (sr, Ok tt) /\
    startAddress sr = dr_address first /\
    Bytes sr = allData (sr_dataRecords srs1).
Proof.
  intros Hscan Hh Hc Htotal.
  pose proof Hscan as Hframe.
  apply scanLines_frame in Hframe as (_ & _ & Hb & _ & recs & Hr & Hu & _).
  simpl in Hb, Hr. subst recs.
  destruct (sr_dataRecords srs1) as [|r0 rest] eqn:Hrecs; [discriminate|].
  injection Hh as ->.
  destruct (last (first :: rest)) as [lst|] eqn:Hl;
    [|rewrite last_lookup in Hl; simpl in Hl;
      apply lookup_ge_None in Hl; simpl in Hl; lia].
  destruct (contiguous_bounds rest first lst Hc Hl) as [Hspan Hall].
  set (total := Z.of_nat (length (allData (first :: rest)))) in *.
  assert (0 <= dr_address first < 2 ^ 32) as Hf
    by (inversion Hu; subst; assumption).
  assert (dr_address first <= dr_address lst) as Hle
    by (inversion Hall as [|? ? [? ?] _]; subst; lia).
  assert (paddedSize first lst = total) as Hsize
    by (rewrite paddedSize_exact; lia).
  assert (isAddrAcending srs1 = Ok tt) as Hasc.
  { unfold isAddrAcending. rewrite Hrecs. cbn [isAddrAcending_loop Nat.eqb].
    apply isAddrAcending_loop_ascending.
    destruct rest as [|r1 rest']; [reflexivity|].
    destruct Hc as [_ Hc]. apply contiguous_ascending in Hc.
    rewrite fmap_cons in *.
    change (ascending (0 :: dr_address r1 :: (dr_address <$> rest')))
      with ((0 <=? dr_address r1)
            && ascending (dr_address r1 :: (dr_address <$> rest'))).
    rewrite Hc, andb_true_r. apply Z.leb_le.
    inversion Hu as [|? ? _ Hu']; subst. inversion Hu'; subst. lia. }
  assert (Forall (fitsIn (padded srs1 first lst) (dr_address first))
                 (sr_dataRecords srs1)) as Hfit.
  { rewrite Hrecs. eapply Forall_impl; [exact Hall|]. simpl.
    intros x [Hx1 Hx2] _. unfold padded. simpl.
    rewrite Hb, app_nil_l, length_replicate, Hsize. lia. }
  assert (head (sr_dataRecords srs1) = Some first) as Hh
    by (now rewrite Hrecs).
  assert (last (sr_dataRecords srs1) = Some lst) as Hl'
    by (now rewrite Hrecs).
  rewrite (ParseFile_assembles _ _ _ _ _ Hscan Hh Hl' Hasc).
  destruct (copyRecords_fits _ _ _ Hfit) as [sr Hcopy].
  exists sr. split; [exact Hcopy|].
  apply copyRecords_Ok in Hcopy as (Hsr & Hlen & _ & Himg).
  split; [rewrite Hsr; reflexivity|].
  unfold Bytes. apply list_eq. intros k.
  unfold padded in Hlen, Himg. simpl in Hlen, Himg.
  rewrite Hb, app_nil_l, length_replicate, Hsize in Hlen.
  rewrite Himg, Hrecs, Hb, app_nil_l.
  rewrite (image_of_contiguous _ _ _ _ _ Hc).
  replace (dr_address first - dr_address first) with 0 by lia.
  fold total.
  destruct ((0 <=? Z.of_nat k) && (Z.of_nat k <? 0 + total)) eqn:E.
  - f_equal. lia.
  - zbool; [lia|].
    rewrite lookup_ge_None_2 by (rewrite length_replicate; lia).
    symmetry. apply lookup_ge_None_2. unfold total in *. lia.
Qed.

(** Witness of X11: [file_contiguous]. *)
Lemma contiguous_file_assembles_to_its_data_witness :
  scanLines NewSrec file_contiguous = (scanned_contiguous, Ok tt) /\
  head (sr_dataRecords scanned_contiguous)
  = Some (mkDataRecord "S1" 5 16 [170; 187] 0) /\
  contiguous (sr_dataRecords scanned_contiguous) /\
  Z.of_nat (length (allData (sr_dataRecords scanned_contiguous))) < 2 ^ 32 /\
  exists sr,
    ParseFile NewSrec file_contiguous = (sr, Ok tt) /\
    startAddress sr = dr_address (mkDataRecord "S1" 5 16 [170; 187] 0) /\
    Bytes sr = allData (sr_dataRecords scanned_contiguous).
Proof.
  assert (scanLines NewSrec file_contiguous = (scanned_contiguous, Ok tt))
    as H by (vm_compute; reflexivity).
  assert (contiguous (sr_dataRecords scanned_contiguous)) as Hc
    by (simpl; repeat split).
  assert (Z.of_nat (length (allData (sr_dataRecords scanned_contiguous)))
          < 2 ^ 32) as Ht by (vm_compute; reflexivity).
  split; [exact H|]. split; [reflexivity|]. split; [exact Hc|].
  split; [exact Ht|].
  exact (contiguous_file_assembles_to_its_data file_contiguous
           scanned_contiguous _ H eq_refl Hc Ht).
Defined.

(** ** Parsing into an [Srec] that was used before *)

(** X12. [ParseFile] does not reset its receiver. On an [Srec] that
    already holds records and a buffer, a successful call keeps the old
    buffer and appends the padding to it, so the buffer grows by the padded
    size; the image starts at the address of the first record of the whole
    list, old records included, and all records are copied again at
    offsets counted from the start of the old buffer. *)
Theorem ParseFile_appends_to_used_Srec srs lines sr :
  ParseFile srs lines = (sr, Ok tt) ->
  exists first lst,
    head (sr_dataRecords sr) = Some first /\
    last (sr_dataRecords sr) = Some lst /\
    startAddress sr = dr_address first /\
    endAddress sr = dr_address lst /\
    length (Bytes sr)
    = (length (Bytes srs) + Z.to_nat (paddedSize first lst))%nat /\
    forall k : nat,
      Bytes sr !! k
      = image (dr_address first) (sr_dataRecords sr) (Z.of_nat k)
              ((Bytes srs ++ replicate (Z.to_nat (paddedSize first lst)) 255)
               !! k).
Proof.
  intros H.
  apply ParseFile_Ok in H as (srs1 & first & lst & Hscan & Hh & Hl & _ & Hc).
  apply scanLines_frame in Hscan as (_ & _ & Hb & _).
  apply copyRecords_Ok in Hc as (Hsr & Hlen & _ & Himg).
  simpl in Hlen, Himg. rewrite Hb in Hlen, Himg.
  assert (sr_dataRecords sr = sr_dataRecords srs1) as Hrecs
    by (rewrite Hsr; reflexivity).
  assert (startAddress sr = dr_address first) as Hstart
    by (rewrite Hsr; reflexivity).
  assert (endAddress sr = dr_address lst) as Hend
    by (rewrite Hsr; reflexivity).
  exists first, lst. unfold Bytes. rewrite Hrecs.
  split; [exact Hh|]. split; [exact Hl|]. split; [exact Hstart|].
  split; [exact Hend|]. split.
  - rewrite Hlen, length_app, length_replicate. reflexivity.
  - exact Himg.
Qed.

(** Witness of X12: [file_one_record] parsed twice into the same [Srec];
    the buffer of two bytes becomes one of four. *)
Lemma ParseFile_appends_to_used_Srec_witness :
  ParseFile image_one_record file_one_record
  = (image_one_record_twice, Ok tt) /\
  Bytes image_one_record = [170; 187] /\
  Bytes image_one_record_twice = [170; 187; 255; 255] /\
  exists first lst,
    head (sr_dataRecords image_one_record_twice) = Some first /\
    last (sr_dataRecords image_one_record_twice) = Some lst /\
    startAddress image_one_record_twice = dr_address first /\
    endAddress image_one_record_twice = dr_address lst /\
    length (Bytes image_one_record_twice)
    = (length (Bytes image_one_record)
       + Z.to_nat (paddedSize first lst))%nat /\
    forall k : nat,
      Bytes image_one_record_twice !! k
      = image (dr_address first) (sr_dataRecords image_one_record_twice)
              (Z.of_nat k)
              ((Bytes image_one_record
                  ++ replicate (Z.to_nat (paddedSize first lst)) 255) !! k).
Proof.
  assert (ParseFile image_one_record file_one_record
          = (image_one_record_twice, Ok tt)) as H
    by (vm_compute; reflexivity).
  split; [exact H|]. split; [reflexivity|]. split; [reflexivity|].
  exact (ParseFile_appends_to_used_Srec image_one_record file_one_record
           image_one_record_twice H).
Defined.

(** ** More on patching *)

Lemma records_nonempty_eqb (sr : Srec) :
  sr_dataRecords sr <> [] ->
  (Z.of_nat (length (sr_dataRecords sr)) =? 0) = false.
Proof.
  intros H. apply Z.eqb_neq. destruct (sr_dataRecords sr); [congruence|simpl; lia].
Qed.

Lemma inRange_orb (sr : Srec) wAddr :
  startAddress sr <= wAddr <= endAddress sr ->
  (wAddr <? startAddress sr) || (wAddr >? endAddress sr) = false.
Proof. intros H. apply orb_false_iff. rewrite Z.gtb_ltb, !Z.ltb_ge. lia. Qed.

(** A write that fits, in closed form. *)
Lemma SetBytes_fits sr wAddr ws :
  sr_dataRecords sr <> [] ->
  startAddress sr <= wAddr <= endAddress sr ->
  wAddr - startAddress sr + Z.of_nat (length ws)
    <= Z.of_nat (length (dataBytes sr)) ->
  exists b,
    SetBytes sr wAddr ws = (set_dataBytes sr b, Ok tt) /\
    length b = length (dataBytes sr) /\
    forall k : nat,
      b !! k =
      if (wAddr - startAddress sr <=? Z.of_nat k)
         && (Z.of_nat k <? wAddr - startAddress sr + Z.of_nat (length ws))
      then ws !! Z.to_nat (Z.of_nat k - (wAddr - startAddress sr))
      else dataBytes sr !! k.
Proof.
  intros Hne Hin Hfit. unfold SetBytes.
  rewrite records_nonempty_eqb, inRange_orb by assumption.
  rewrite SetBytes_loop_storeAll.
  replace (wAddr - startAddress sr + 0) with (wAddr - startAddress sr) by lia.
  destruct (storeAll_fits ws (dataBytes sr) (wAddr - startAddress sr))
    as [b Hb]; [lia|lia|].
  rewrite Hb. exists b. split; [reflexivity|].
  split; [exact (storeAll_length _ _ _ _ _ Hb)|exact (storeAll_lookup _ _ _ _ Hb)].
Qed.

(** X13. [SetBytes] returns no error exactly when the [Srec] holds data
    records, the address lies within [startAddress..endAddress], and the
    bytes are none or fit in the buffer. On an [Srec] without data records
    it returns the empty-data error whatever the address, and changes
    nothing. *)
Theorem SetBytes_accepted_iff sr wAddr wBytes :
  (snd (SetBytes sr wAddr wBytes) = Ok tt
   <-> sr_dataRecords sr <> [] /\
       startAddress sr <= wAddr <= endAddress sr /\
       (wBytes = [] \/
        wAddr - startAddress sr + Z.of_nat (length wBytes)
          <= Z.of_nat (length (Bytes sr)))) /\
  (sr_dataRecords sr = [] -> SetBytes sr wAddr wBytes = (sr, Err ErrEmpty)).
Proof.
  split; [|intros H; unfold SetBytes; now rewrite H].
  unfold Bytes. split.
  - unfold SetBytes.
    destruct (_ =? 0) eqn:E0; [discriminate|].
    destruct (_ || _) eqn:E1; [discriminate|].
    rewrite SetBytes_loop_storeAll.
    replace (wAddr - startAddress sr + 0) with (wAddr - startAddress sr) by lia.
    destruct (storeAll (dataBytes sr) (wAddr - startAddress sr) wBytes)
      as [b out] eqn:Hs.
    cbn [snd]. intros ->.
    split; [intros Hnil; rewrite Hnil in E0; discriminate|].
    zbool. split; [lia|].
    destruct wBytes as [|w ws]; [now left|right].
    apply (storeAll_Ok_bounds _ _ _ _ Hs). discriminate.
  - intros (Hne & Hin & [-> |Hfit]).
    + unfold SetBytes. rewrite records_nonempty_eqb, inRange_orb by assumption.
      reflexivity.
    + destruct (SetBytes_fits sr wAddr wBytes Hne Hin Hfit) as (b & -> & _).
      reflexivity.
Qed.

(** Witness of X13: the image of [file_gap] and the fresh [Srec]. *)
Lemma SetBytes_accepted_iff_witness :
  snd (SetBytes image_gap 17 [1; 2]) = Ok tt /\
  sr_dataRecords NewSrec = [] /\
  SetBytes NewSrec 17 [1; 2] = (NewSrec, Err ErrEmpty).
Proof.
  split.
  - apply (proj1 (SetBytes_accepted_iff image_gap 17 [1; 2])).
    split; [discriminate|]. split; [vm_compute; split; discriminate|].
    right. vm_compute. discriminate.
  - split; [reflexivity|].
    exact (proj2 (SetBytes_accepted_iff NewSrec 17 [1; 2]) eq_refl).
Defined.

(** X14. Two writes that fit and whose address ranges do not overlap can
    be made in either order: both orders succeed and leave the same
    [Srec]. *)
Theorem SetBytes_disjoint_writes_commute sr a1 w1 a2 w2 :
  sr_dataRecords sr <> [] ->
  startAddress sr <= a1 <= endAddress sr ->
  startAddress sr <= a2 <= endAddress sr ->
  a1 - startAddress sr + Z.of_nat (length w1) <= Z.of_nat (length (Bytes sr)) ->
  a2 - startAddress sr + Z.of_nat (length w2) <= Z.of_nat (length (Bytes sr)) ->
  a1 + Z.of_nat (length w1) <= a2 \/ a2 + Z.of_nat (length w2) <= a1 ->
  exists sr',
    SetBytes (fst (SetBytes sr a1 w1)) a2 w2 = (sr', Ok tt) /\
    SetBytes (fst (SetBytes sr a2 w2)) a1 w1 = (sr', Ok tt).
Proof.
  unfold Bytes. intros Hne H1 H2 Hf1 Hf2 Hdisj.
  destruct (SetBytes_fits sr a1 w1 Hne H1 Hf1) as (b1 & E1 & L1 & K1).
  destruct (SetBytes_fits sr a2 w2 Hne H2 Hf2) as (b2 & E2 & L2 & K2).
  rewrite E1, E2. cbn [fst].
  destruct (SetBytes_fits (set_dataBytes sr b1) a2 w2) as (b12 & E12 & L12 & K12);
    [exact Hne|exact H2|simpl; rewrite L1; exact Hf2|].
  destruct (SetBytes_fits (set_dataBytes sr b2) a1 w1) as (b21 & E21 & L21 & K21);
    [exact Hne|exact H1|simpl; rewrite L2; exact Hf1|].
  rewrite E12, E21. simpl in K12, K21.
  assert (b12 = b21) as ->.
  { apply list_eq. intros k. rewrite K12, K21, K1, K2.
    repeat match goal with
           | |- context [if ?b then _ else _] => destruct b eqn:?
           end; zbool; try lia; reflexivity. }
  eexists. split; reflexivity.
Qed.

(** Witness of X14: one byte written over each record of the image of
    [file_gap]. *)
Lemma SetBytes_disjoint_writes_commute_witness :
  sr_dataRecords image_gap <> [] /\
  startAddress image_gap <= 16 <= endAddress image_gap /\
  startAddress image_gap <= 20 <= endAddress image_gap /\
  16 - startAddress image_gap + Z.of_nat (length [1])
    <= Z.of_nat (length (Bytes image_gap)) /\
  20 - startAddress image_gap + Z.of_nat (length [2])
    <= Z.of_nat (length (Bytes image_gap)) /\
  (16 + Z.of_nat (length [1]) <= 20 \/ 20 + Z.of_nat (length [2]) <= 16) /\
  exists sr',
    SetBytes (fst (SetBytes image_gap 16 [1])) 20 [2] = (sr', Ok tt) /\
    SetBytes (fst (SetBytes image_gap 20 [2])) 16 [1] = (sr', Ok tt).
Proof.
  assert (sr_dataRecords image_gap <> []) as Hne by discriminate.
  assert (startAddress image_gap <= 16 <= endAddress image_gap) as H1
    by (vm_compute; split; discriminate).
  assert (startAddress image_gap <= 20 <= endAddress image_gap) as H2
    by (vm_compute; split; discriminate).
  assert (16 - startAddress image_gap + Z.of_nat (length [1])
          <= Z.of_nat (length (Bytes image_gap))) as Hf1
    by (vm_compute; discriminate).
  assert (20 - startAddress image_gap + Z.of_nat (length [2])
          <= Z.of_nat (length (Bytes image_gap))) as Hf2
    by (vm_compute; discriminate).
  assert (16 + Z.of_nat (length [1]) <= 20 \/ 20 + Z.of_nat (length [2]) <= 16)
    as Hd by (left; vm_compute; discriminate).
  split; [exact Hne|]. split; [exact H1|]. split; [exact H2|].
  split; [exact Hf1|]. split; [exact Hf2|]. split; [exact Hd|].
  exact (SetBytes_disjoint_writes_commute image_gap 16 [1] 20 [2]
           Hne H1 H2 Hf1 Hf2 Hd).
Defined.

(** X15. A write over an earlier write at the same address that is at
    least as long leaves no trace of the earlier one: the result is that of
    the later write alone. *)
Theorem SetBytes_later_write_wins sr wAddr w1 w2 :
  sr_dataRecords sr <> [] ->
  startAddress sr <= wAddr <= endAddress sr ->
  wAddr - startAddress sr + Z.of_nat (length w2)
    <= Z.of_nat (length (Bytes sr)) ->
  (length w1 <= length w2)%nat ->
  SetBytes (fst (SetBytes sr wAddr w1)) wAddr w2 = SetBytes sr wAddr w2.
Proof.
  unfold Bytes. intros Hne Hin Hf2 Hlen.
  destruct (SetBytes_fits sr wAddr w1 Hne Hin) as (b1 & E1 & L1 & K1); [lia|].
  destruct (SetBytes_fits sr wAddr w2 Hne Hin Hf2) as (b2 & E2 & L2 & K2).
  rewrite E1, E2. cbn [fst].
  destruct (SetBytes_fits (set_dataBytes sr b1) wAddr w2)
    as (b12 & E12 & L12 & K12);
    [exact Hne|exact Hin|simpl; rewrite L1; exact Hf2|].
  rewrite E12. simpl in K12.
  assert (b12 = b2) as ->.
  { apply list_eq. intros k. rewrite K12, K2, K1.
    repeat match goal with
           | |- context [if ?b then _ else _] => destruct b eqn:?
           end; zbool; try lia; reflexivity. }
  reflexivity.
Qed.

(** Witness of X15: two writes of two bytes at [0x11] into the image of
    [file_gap]. *)
Lemma SetBytes_later_write_wins_witness :
  sr_dataRecords image_gap <> [] /\
  startAddress image_gap <= 17 <= endAddress image_gap /\
  17 - startAddress image_gap + Z.of_nat (length [3; 4])
    <= Z.of_nat (length (Bytes image_gap)) /\
  (length [1; 2] <= length [3; 4])%nat /\
  SetBytes (fst (SetBytes image_gap 17 [1; 2])) 17 [3; 4]
  = SetBytes image_gap 17 [3; 4].
Proof.
  assert (sr_dataRecords image_gap <> []) as Hne by discriminate.
  assert (startAddress image_gap <= 17 <= endAddress image_gap) as Hin
    by (vm_compute; split; discriminate).
  assert (17 - startAddress image_gap + Z.of_nat (length [3; 4])
          <= Z.of_nat (length (Bytes image_gap))) as Hf
    by (vm_compute; discriminate).
  assert (length [1; 2] <= length [3; 4])%nat as Hl by (simpl; lia).
  split; [exact Hne|]. split; [exact Hin|]. split; [exact Hf|].
  split; [exact Hl|].
  exact (SetBytes_later_write_wins image_gap 17 [1; 2] [3; 4] Hne Hin Hf Hl).
Defined.

(** X16. Writing back the bytes that the buffer holds at an address
    changes nothing: for any count [n], the [n] bytes read from the buffer
    at the offset of an address within range (fewer when the buffer ends
    before) are accepted, and the [Srec] is as before. *)
Theorem SetBytes_of_current_bytes_is_identity sr wAddr (n : nat) :
  sr_dataRecords sr <> [] ->
  startAddress sr <= wAddr <= endAddress sr ->
  SetBytes sr wAddr
    (take n (drop (Z.to_nat (wAddr - startAddress sr)) (Bytes sr)))
  = (sr, Ok tt).
Proof.
  unfold Bytes. intros Hne Hin.
  set (off := wAddr - startAddress sr).
  set (ws := take n (drop (Z.to_nat off) (dataBytes sr))).
  destruct ws as [|w ws'] eqn:Hws.
  - unfold SetBytes. rewrite records_nonempty_eqb, inRange_orb by assumption.
    reflexivity.
  - assert (length ws <= length (dataBytes sr) - Z.to_nat off)%nat as Hlen.
    { unfold ws. rewrite length_take, length_drop. lia. }
    assert (Z.to_nat off < length (dataBytes sr))%nat as Hoff.
    { destruct (Nat.lt_ge_cases (Z.to_nat off) (length (dataBytes sr)))
        as [|Hge]; [assumption|].
      unfold ws in Hws. rewrite drop_ge in Hws by lia.
      rewrite take_nil in Hws. discriminate. }
    rewrite <- Hws.
    destruct (SetBytes_fits sr wAddr ws Hne Hin) as (b & -> & L & K);
      [unfold off in *; lia|].
    f_equal. rewrite <- (set_dataBytes_id sr) at 2. f_equal.
    apply list_eq. intros k. rewrite K. fold off.
    destruct (_ && _) eqn:E; [|reflexivity]. zbool.
    assert (length ws <= n)%nat as Hn by (unfold ws; rewrite length_take; lia).
    assert (Z.to_nat (Z.of_nat k - off) < n)%nat as Hk by lia.
    unfold ws. rewrite (lookup_take_lt _ _ _ Hk).
    rewrite lookup_drop. f_equal. lia.
Qed.

(** Witness of X16: three bytes at [0x11] of the image of [file_gap]. *)
Lemma SetBytes_of_current_bytes_is_identity_witness :
  sr_dataRecords image_gap <> [] /\
  startAddress image_gap <= 17 <= endAddress image_gap /\
  SetBytes image_gap 17
    (take 3 (drop (Z.to_nat (17 - startAddress image_gap)) (Bytes image_gap)))
  = (image_gap, Ok tt).
Proof.
  assert (sr_dataRecords image_gap <> []) as Hne by discriminate.
  assert (startAddress image_gap <= 17 <= endAddress image_gap) as Hin
    by (vm_compute; split; discriminate).
  split; [exact Hne|]. split; [exact Hin|].
  exact (SetBytes_of_current_bytes_is_identity image_gap 17 3 Hne Hin).
Defined.

(** ** Patching an assembled image *)

(** X17. On the image of an accepted file whose last record has data,
    every write that starts within [startAddress..endAddress] and ends at
    or before [endAddress] is accepted. *)
Theorem patch_up_to_endAddress_is_accepted lines sr lst wAddr wBytes :
  ParseFile NewSrec lines = (sr, Ok tt) ->
  last (sr_dataRecords sr) = Some lst ->
  dr_data lst <> [] ->
  startAddress sr <= wAddr <= endAddress sr ->
  wAddr + Z.of_nat (length wBytes) - 1 <= endAddress sr ->
  snd (SetBytes sr wAddr wBytes) = Ok tt.
Proof.
  intros H Hl Hd Hin Hend.
  pose proof (ParseFile_records_nonempty _ _ _ H) as Hne.
  destruct (ParseFile_image _ _ H)
    as (first & lst' & _ & Hl' & Hs & He & _ & _ & Hfit & _).
  rewrite Hl in Hl'. injection Hl' as <-.
  rewrite last_lookup in Hl.
  pose proof (Forall_lookup_1 _ _ _ _ Hfit Hl) as Hf.
  destruct (Hf Hd) as (_ & _ & Hb).
  assert (1 <= Z.of_nat (length (dr_data lst))) as Hone
    by (destruct (dr_data lst); [congruence|simpl; lia]).
  destruct (SetBytes_fits sr wAddr wBytes Hne Hin) as (b & -> & _); [lia|].
  reflexivity.
Qed.

(** Witness of X17: two bytes at [0x13] of the image of [file_gap], which
    ends at [0x14]. *)
Lemma patch_up_to_endAddress_is_accepted_witness :
  ParseFile NewSrec file_gap = (image_gap, Ok tt) /\
  last (sr_dataRecords image_gap)
  = Some (mkDataRecord "S1" 5 20 [204; 221] 0) /\
  [204; 221] <> [] /\
  startAddress image_gap <= 19 <= endAddress image_gap /\
  19 + Z.of_nat (length [1; 2]) - 1 <= endAddress image_gap /\
  snd (SetBytes image_gap 19 [1; 2]) = Ok tt.
Proof.
  assert (ParseFile NewSrec file_gap = (image_gap, Ok tt)) as H
    by (vm_compute; reflexivity).
  assert (@nil Z <> [204; 221]) as Hd' by discriminate.
  assert ([204; 221] <> @nil Z) as Hd by discriminate.
  assert (startAddress image_gap <= 19 <= endAddress image_gap) as Hin
    by (vm_compute; split; discriminate).
  assert (19 + Z.of_nat (length [1; 2]) - 1 <= endAddress image_gap) as He
    by (vm_compute; discriminate).
  split; [exact H|]. split; [reflexivity|]. split; [exact Hd|].
  split; [exact Hin|]. split; [exact He|].
  exact (patch_up_to_endAddress_is_accepted file_gap image_gap
           (mkDataRecord "S1" 5 20 [204; 221] 0) 19 [1; 2]
           H eq_refl Hd Hin He).
Defined.

(** X18. On the image of an accepted file whose last record has no data
    and whose [startAddress] is not above its [endAddress], the buffer ends
    just before [endAddress]: every write of at least one byte at
    [endAddress] passes the range test and stops with an
    index-out-of-range panic. *)
Theorem patch_at_endAddress_of_empty_last_record_panics lines sr lst wBytes :
  ParseFile NewSrec lines = (sr, Ok tt) ->
  last (sr_dataRecords sr) = Some lst ->
  dr_data lst = [] ->
  startAddress sr <= endAddress sr ->
  wBytes <> [] ->
  Z.of_nat (length (Bytes sr)) = endAddress sr - startAddress sr /\
  snd (SetBytes sr (endAddress sr) wBytes) = Panic IndexOutOfRange.
Proof.
  intros H Hl Hd Hle Hw.
  pose proof (ParseFile_records_nonempty _ _ _ H) as Hne.
  destruct (ParseFile_image _ _ H)
    as (first & lst' & Hh & Hl' & Hs & He & Hlen & Hu & _ & _).
  rewrite Hl in Hl'. injection Hl' as <-.
  rewrite head_lookup in Hh. rewrite last_lookup in Hl.
  pose proof (Forall_lookup_1 _ _ _ _ Hu Hh) as Hf.
  pose proof (Forall_lookup_1 _ _ _ _ Hu Hl) as Hlast. simpl in Hf, Hlast.
  assert (Z.of_nat (length (dataBytes sr)) = endAddress sr - startAddress sr)
    as Hsize.
  { rewrite Hlen, paddedSize_exact; rewrite ?Hd; simpl; lia. }
  split; [exact Hsize|].
  unfold SetBytes.
  rewrite records_nonempty_eqb, inRange_orb by (assumption || lia).
  rewrite SetBytes_loop_storeAll.
  destruct (storeAll_overflow wBytes (dataBytes sr)
              (endAddress sr - startAddress sr + 0)) as [b ->];
    [exact Hw|lia| |reflexivity].
  destruct wBytes; [congruence|simpl; lia].
Qed.

(** Witness of X18: one byte at [0x14] of the image of
    [file_empty_last]. *)
Lemma patch_at_endAddress_of_empty_last_record_panics_witness :
  ParseFile NewSrec file_empty_last = (image_empty_last, Ok tt) /\
  last (sr_dataRecords image_empty_last)
  = Some (mkDataRecord "S1" 3 20 [] 0) /\
  startAddress image_empty_last <= endAddress image_empty_last /\
  [1] <> [] /\
  Z.of_nat (length (Bytes image_empty_last))
  = endAddress image_empty_last - startAddress image_empty_last /\
  snd (SetBytes image_empty_last (endAddress image_empty_last) [1])
  = Panic IndexOutOfRange.
Proof.
  assert (ParseFile NewSrec file_empty_last = (image_empty_last, Ok tt)) as H
    by (vm_compute; reflexivity).
  assert (startAddress image_empty_last <= endAddress image_empty_last) as Hle
    by (vm_compute; discriminate).
  assert ([1] <> @nil Z) as Hw by discriminate.
  split; [exact H|]. split; [reflexivity|]. split; [exact Hle|].
  split; [exact Hw|].
  exact (patch_at_endAddress_of_empty_last_record_panics file_empty_last
           image_empty_last (mkDataRecord "S1" 3 20 [] 0) [1]
           H eq_refl eq_refl Hle Hw).
Defined.

(** ** The older revision *)

Lemma GetBytes_data_prefix n m ds : forall bytes,
  0 <= n < 2 ^ 32 ->
  m = (if n =? 0 then 2 ^ 32 else n) ->
  Z.of_nat (length bytes) < m ->
  Legacy.GetBytes_data bytes ds n
  = if Z.of_nat (length bytes) + Z.of_nat (length ds) <? m
    then (bytes ++ ds, false)
    else (bytes ++ take (Z.to_nat (m - Z.of_nat (length bytes))) ds, true).
Proof.
  intros bytes Hn Hm. revert bytes.
  induction ds as [|b ds IH]; intros bytes Hlt.
  - cbn [Legacy.GetBytes_data length].
    destruct (_ <? _) eqn:E; zbool; [|lia]. now rewrite app_nil_r.
  - cbn [Legacy.GetBytes_data]. rewrite length_app. cbn [length].
    destruct (Z.eq_dec (Z.of_nat (length bytes) + 1) m) as [Heq|Hneq].
    + assert (u32 (Z.of_nat (length bytes + 1)) = n) as ->.
      { replace (Z.of_nat (length bytes + 1)) with m by lia.
        rewrite Hm. destruct (n =? 0) eqn:E; zbool.
        - subst n. reflexivity.
        - apply u32_small. lia. }
      rewrite Z.eqb_refl.
      destruct (_ <? _) eqn:E; zbool; [lia|].
      replace (Z.to_nat (m - Z.of_nat (length bytes))) with 1%nat by lia.
      reflexivity.
    + assert (m <= 2 ^ 32) as Hm32
        by (rewrite Hm; destruct (n =? 0) eqn:E; zbool; lia).
      rewrite u32_small by lia.
      destruct (_ =? n) eqn:E; zbool.
      { exfalso. apply Hneq. rewrite Hm.
        destruct (n =? 0) eqn:E0; zbool; lia. }
      rewrite IH by (rewrite length_app; cbn [length]; lia).
      rewrite length_app. cbn [length].
      replace (Z.of_nat (length bytes + 1) + Z.of_nat (length ds))
        with (Z.of_nat (length bytes) + Z.of_nat (S (length ds))) by lia.
      destruct (_ <? _) eqn:E1; [now rewrite <- app_assoc|].
      rewrite <- app_assoc. do 2 f_equal.
      replace (Z.to_nat (m - Z.of_nat (length bytes)))
        with (S (Z.to_nat (m - Z.of_nat (length bytes + 1)))) by lia.
      reflexivity.
Qed.

Lemma GetBytes_records_prefix n m recs : forall bytes,
  0 <= n < 2 ^ 32 ->
  m = (if n =? 0 then 2 ^ 32 else n) ->
  Z.of_nat (length bytes) < m ->
  Legacy.GetBytes_records bytes recs n
  = take (Z.to_nat m) (bytes ++ allData recs).
Proof.
  intros bytes Hn Hm. revert bytes.
  induction recs as [|br rest IH]; intros bytes Hlt.
  - cbn [Legacy.GetBytes_records]. unfold allData. simpl concat.
    rewrite app_nil_r, take_ge by lia. reflexivity.
  - cbn [Legacy.GetBytes_records].
    rewrite (GetBytes_data_prefix n m) by assumption.
    rewrite allData_cons.
    destruct (_ <? _) eqn:E; zbool.
    + rewrite IH by (rewrite length_app; lia). now rewrite app_assoc.
    + rewrite take_app, (take_ge bytes) by lia.
      replace (Z.to_nat m - length bytes)%nat
        with (Z.to_nat (m - Z.of_nat (length bytes))) by lia.
      rewrite take_app_le by lia. reflexivity.
Qed.

(** X19. [GetBytes] of the older revision returns the first [ByteSize]
    data bytes of the records, in record order, and all of them when there
    are fewer; a [ByteSize] of 0 never matches the count of a non-empty
    buffer before that count wraps around, so it gives the first [2^32]
    bytes and not the empty list. *)
Theorem Legacy_GetBytes_is_prefix recs ByteSize :
  0 <= ByteSize < 2 ^ 32 ->
  Legacy.GetBytes recs ByteSize
  = take (Z.to_nat (if ByteSize =? 0 then 2 ^ 32 else ByteSize))
         (allData recs).
Proof.
  intros Hn. unfold Legacy.GetBytes.
  rewrite (GetBytes_records_prefix ByteSize _ recs [] Hn eq_refl).
  - reflexivity.
  - cbn [length]. destruct (ByteSize =? 0) eqn:E; zbool; lia.
Qed.

(** Witness of X19: three bytes of two records of two bytes. *)
Lemma Legacy_GetBytes_is_prefix_witness :
  0 <= 3 < 2 ^ 32 /\
  Legacy.GetBytes [mkDataRecord "S1" 5 16 [170; 187] 0;
                   mkDataRecord "S1" 5 20 [204; 221] 0] 3
  = take (Z.to_nat (if 3 =? 0 then 2 ^ 32 else 3))
         (allData [mkDataRecord "S1" 5 16 [170; 187] 0;
                   mkDataRecord "S1" 5 20 [204; 221] 0]).
Proof.
  assert (0 <= 3 < 2 ^ 32) as H by lia.
  split; [exact H|].
  exact (Legacy_GetBytes_is_prefix
           [mkDataRecord "S1" 5 16 [170; 187] 0;
            mkDataRecord "S1" 5 20 [204; 221] 0] 3 H).
Defined.

Lemma data_loop_agrees sl n : forall i d data,
  getData_loop sl n i d = Ok data -> Legacy.data_loop sl n i d = Ok data.
Proof.
  induction n as [|n IH]; intros i d data H; [exact H|].
  cbn [getData_loop Legacy.data_loop] in *. unfold bind in *.
  destruct (slice sl i (i + 2)) as [s| |]; try discriminate.
  destruct (ParseUint (Join s "") 16 32) as [b| |]; try discriminate.
  apply IH. exact H.
Qed.

Lemma getAddrStrLen_data srectype :
  isDataType srectype = true ->
  Legacy.getAddrStrLen srectype = getAddrLenAsStr srectype.
Proof.
  intros Ht. unfold Legacy.getAddrStrLen, getAddrLenAsStr.
  destruct (String.eqb srectype "S0") eqn:E; [|reflexivity].
  apply String.eqb_eq in E. subst srectype. discriminate Ht.
Qed.

Lemma getSrecBinaryRecordFields_agrees rec0 rec1 srectype sl rec :
  Forall oneChar sl ->
  isDataType srectype = true ->
  getDataRecordFields rec0 srectype sl = (rec, Ok tt) ->
  Legacy.getSrecBinaryRecordFields rec1 srectype sl = (rec, Ok tt).
Proof.
  intros Hsl Ht H.
  apply getDataRecordFields_Ok in H
    as (n & a & d & c & Hn & Ha & Hd & Hc & ->).
  unfold Legacy.getSrecBinaryRecordFields, Legacy.getLengthStrLen.
  rewrite (getAddrStrLen_data _ Ht).
  unfold getAddress in Ha. unfold getData in Hd.
  destruct (getAddrLenAsStr srectype) as [w| |]; try discriminate.
  unfold getChecksum in Hc. unfold getDataLenAsStr in Hd, Hc.
  pose proof Hn as Hfield. rewrite getLengh_field in Hfield.
  destruct (field_cases sl 2 4 Hsl) as [(v & Hv & Hb)|[Hp|[num He]]];
    [lia| |rewrite Hp in Hfield; discriminate
     |rewrite He in Hfield; discriminate].
  rewrite Hv in Hfield. cbn [bind] in Hfield. injection Hfield as <-.
  unfold field in Hv. unfold bind in *.
  destruct (slice sl 2 4) as [s| |]; try discriminate.
  rewrite Hv in *. cbn [Legacy.ignoringError].
  destruct (slice sl 4 (4 + w)) as [s1| |]; try discriminate.
  destruct (ParseUint (Join s1 "") 16 32) as [addr| |]; try discriminate.
  injection Ha as <-. cbn [Legacy.ignoringError].
  rewrite (data_loop_agrees _ _ _ _ _ Hd).
  assert (u64 (v * 2) = v * 2) as Hu
    by (unfold u64; apply Z.mod_small; lia).
  rewrite Hu in Hc.
  replace (4 + v * 2 - 2)
    with (TypeFieldStrLen + LengthFieldStrLen + v * 2 - CSumFieldStrLen)
    by reflexivity.
  replace (TypeFieldStrLen + LengthFieldStrLen + v * 2 - CSumFieldStrLen + 2)
    with (TypeFieldStrLen + LengthFieldStrLen + v * 2)
    by (unfold TypeFieldStrLen, LengthFieldStrLen, CSumFieldStrLen; lia).
  destruct (slice sl _ (TypeFieldStrLen + LengthFieldStrLen + v * 2))
    as [s2| |]; try discriminate.
  destruct (ParseUint (Join s2 "") 16 32) as [cs| |]; try discriminate.
  injection Hc as <-. reflexivity.
Qed.

Lemma Legacy_scanLine_agrees srs line srs' rec1 :
  scanLine srs line = (srs', Ok tt) ->
  exists rec2,
    Legacy.scanLine (rec1, sr_dataRecords srs) line
    = ((rec2, sr_dataRecords srs'), Ok tt).
Proof.
  unfold scanLine, Legacy.scanLine. cbn [fst snd].
  destruct (slice (Split line "") 0 2) as [tag| |]; try discriminate.
  destruct (String.eqb (Join tag "") "S0").
  { destruct (getHeaderRecordFields _ _) as [h [[]| |]]; try discriminate.
    intros [= <-]. now exists rec1. }
  destruct (isDataType (Join tag "")) eqn:Ht.
  - destruct (getDataRecordFields _ _ _) as [rec [[]| |]] eqn:Hf;
      try discriminate.
    intros [= <-].
    rewrite (getSrecBinaryRecordFields_agrees _ rec1 _ (Split line "") _
               (explode_oneChar line) Ht Hf).
    now exists rec.
  - destruct (isFooterType _); intros [= <-]; now exists rec1.
Qed.

Lemma Legacy_scanLines_agrees lines : forall srs srs' rec1,
  scanLines srs lines = (srs', Ok tt) ->
  exists rec2,
    Legacy.scanLines (rec1, sr_dataRecords srs) lines
    = ((rec2, sr_dataRecords srs'), Ok tt).
Proof.
  induction lines as [|line rest IH]; intros srs srs' rec1 H.
  - injection H as <-. now exists rec1.
  - cbn [scanLines Legacy.scanLines] in *.
    destruct (scanLine srs line) as [srs1 [[]| |]] eqn:E; try discriminate.
    destruct (Legacy_scanLine_agrees _ _ _ rec1 E) as [rec2 ->].
    apply IH. exact H.
Qed.

(** X20. A file that the scanning loop of the current revision reads to
    its end is read by [ParseFile] of the older revision to the same list
    of records, appended to the records that were there. *)
Theorem Legacy_ParseFile_reads_same_records srs lines srs' :
  scanLines srs lines = (srs', Ok tt) ->
  Legacy.ParseFile (sr_dataRecords srs) lines = (sr_dataRecords srs', Ok tt).
Proof.
  intros H. unfold Legacy.ParseFile.
  destruct (Legacy_scanLines_agrees _ _ _ newBianryRecord H) as [rec2 ->].
  reflexivity.
Qed.

(** Witness of X20: the two records of [file_contiguous]. *)
Lemma Legacy_ParseFile_reads_same_records_witness :
  scanLines NewSrec file_contiguous = (scanned_contiguous, Ok tt) /\
  Legacy.ParseFile (sr_dataRecords NewSrec) file_contiguous
  = (sr_dataRecords scanned_contiguous, Ok tt).
Proof.
  assert (scanLines NewSrec file_contiguous = (scanned_contiguous, Ok tt))
    as H by (vm_compute; reflexivity).
  split; [exact H|].
  exact (Legacy_ParseFile_reads_same_records NewSrec file_contiguous
           scanned_contiguous H).
Defined.
